(** * json_compare: the comparison engine of [comparator.py]

    A shallow embedding of [JSONComparator] (src/json_compare/comparator.py)
    together with the properties of its specification.  Python values are
    modelled by the inductive type [value]; the comparator object by the record
    [JSONComparator]; methods by computations in a small state-and-exception
    monad in which the state (and so the log) survives a raised exception, as
    the attributes of a Python object do. *)

From Stdlib Require Import String Ascii List ZArith Bool Arith Lia.
From Stdlib Require Import DecimalString.
Import ListNotations.
Local Open Scope string_scope.
Local Open Scope list_scope.
Set Warnings "-register-all".

(* ===================================================================== *)
(** ** Python values produced by [json.load] *)
(* ===================================================================== *)

Module Py.

(** A Python [float]: an IEEE value that is NaN, an infinity, or the dyadic
    rational [m * 2^e].  Only equality is ever applied to it. *)
Inductive pyfloat : Type :=
| FNan
| FInf (negative : bool)
| FFinite (m e : Z).

(** What [json.load] returns: [None], [bool], [int], [float], [str], [list]
    and [dict] (insertion ordered, keys are strings). *)
Inductive value : Type :=
| VNone
| VBool (b : bool)
| VInt (z : Z)
| VFloat (f : pyfloat)
| VStr (s : string)
| VList (l : list value)
| VDict (d : list (string * value)).

(** Exceptions the comparator can raise. *)
Inductive exn : Type :=
| RuntimeError      (* a bare [raise] with no active exception *)
| IndexError
| KeyError
| TypeError
| AttributeError.

Inductive result (A : Type) : Type :=
| Ok (a : A)
| Raise (e : exn).
Arguments Ok {A} a.
Arguments Raise {A} e.

(** Nested induction principle for [value]. *)
Section value_induction.
Variable P : value -> Prop.
Hypothesis HNone : P VNone.
Hypothesis HBool : forall b, P (VBool b).
Hypothesis HInt : forall z, P (VInt z).
Hypothesis HFloat : forall f, P (VFloat f).
Hypothesis HStr : forall s, P (VStr s).
Hypothesis HList : forall l, Forall P l -> P (VList l).
Hypothesis HDict : forall d, Forall (fun kv => P (snd kv)) d -> P (VDict d).

Fixpoint value_nested_ind (v : value) : P v :=
  match v with
  | VNone => HNone
  | VBool b => HBool b
  | VInt z => HInt z
  | VFloat f => HFloat f
  | VStr s => HStr s
  | VList l =>
      HList l ((fix go (l : list value) : Forall P l :=
                  match l with
                  | [] => Forall_nil P
                  | x :: r => Forall_cons x (value_nested_ind x) (go r)
                  end) l)
  | VDict d =>
      HDict d ((fix go (d : list (string * value))
                 : Forall (fun kv => P (snd kv)) d :=
                  match d with
                  | [] => Forall_nil _
                  | kv :: r =>
                      Forall_cons kv (value_nested_ind (snd kv)) (go r)
                  end) d)
  end.
End value_induction.

(** *** Numbers and [==] *)

(** [m1 * 2^e1 = m2 * 2^e2], decided exactly. *)
Definition dyadic_eqb (m1 e1 m2 e2 : Z) : bool :=
  let lo := Z.min e1 e2 in
  Z.eqb (m1 * 2 ^ (e1 - lo)) (m2 * 2 ^ (e2 - lo)).

Definition float_eqb (a b : pyfloat) : bool :=
  match a, b with
  | FFinite m1 e1, FFinite m2 e2 => dyadic_eqb m1 e1 m2 e2
  | FInf s1, FInf s2 => Bool.eqb s1 s2
  | _, _ => false
  end.

(** Python compares an [int] with a [float] exactly. *)
Definition int_float_eqb (z : Z) (f : pyfloat) : bool :=
  match f with
  | FFinite m e => dyadic_eqb z 0 m e
  | _ => false
  end.

(** [bool] is a subclass of [int]: [True == 1] and [False == 0]. *)
Definition int_of_bool (b : bool) : Z := if b then 1%Z else 0%Z.

(** [d.get(key)] / [key in d] / [d[key]] on the items of a dict. *)
Fixpoint lookup (key : string) (d : list (string * value)) : option value :=
  match d with
  | [] => None
  | (k, v) :: r => if String.eqb key k then Some v else lookup key r
  end.

(** The one loaded value that is not equal to itself.  [json.load] returns
    the same [float] object for every NaN literal it reads. *)
Definition is_nan (v : value) : bool :=
  match v with VFloat FNan => true | _ => false end.

(** Python's [a == b] on loaded JSON values.  The comparison of two lists or
    two dicts takes two items for equal when they are the same object or
    [==]: inside a container NaN is equal to NaN, although [NaN == NaN] is
    false. *)
Fixpoint py_eqb (a b : value) {struct a} : bool :=
  match a, b with
  | VNone, VNone => true
  | VBool x, VBool y => Bool.eqb x y
  | VBool x, VInt y => Z.eqb (int_of_bool x) y
  | VBool x, VFloat y => int_float_eqb (int_of_bool x) y
  | VInt x, VBool y => Z.eqb x (int_of_bool y)
  | VInt x, VInt y => Z.eqb x y
  | VInt x, VFloat y => int_float_eqb x y
  | VFloat x, VBool y => int_float_eqb (int_of_bool y) x
  | VFloat x, VInt y => int_float_eqb y x
  | VFloat x, VFloat y => float_eqb x y
  | VStr x, VStr y => String.eqb x y
  | VList xs, VList ys =>
      (fix list_eqb (xs ys : list value) {struct xs} : bool :=
         match xs, ys with
         | [], [] => true
         | x :: xs', y :: ys' =>
             ((is_nan x && is_nan y) || py_eqb x y) && list_eqb xs' ys'
         | _, _ => false
         end) xs ys
  | VDict dx, VDict dy =>
      Nat.eqb (List.length dx) (List.length dy) &&
      (fix items_eqb (dx : list (string * value)) {struct dx} : bool :=
         match dx with
         | [] => true
         | (k, x) :: dx' =>
             match lookup k dy with
             | Some y =>
                 ((is_nan x && is_nan y) || py_eqb x y) && items_eqb dx'
             | None => false
             end
         end) dx
  | _, _ => false
  end.

(** [a != b]. *)
Definition py_neb (a b : value) : bool := negb (py_eqb a b).

(** [isinstance(v, dict)], [isinstance(v, list)]. *)
Definition is_dict (v : value) : bool :=
  match v with VDict _ => true | _ => false end.
Definition is_list (v : value) : bool :=
  match v with VList _ => true | _ => false end.

(** *** Strings *)

(** [needle in haystack] for two strings. *)
Fixpoint str_contains (needle haystack : string) : bool :=
  String.prefix needle haystack ||
  match haystack with
  | EmptyString => false
  | String _ rest => str_contains needle rest
  end.

(** [str(n)] for a non-negative [int]. *)
Definition str_of_nat (n : nat) : string :=
  NilEmpty.string_of_uint (Nat.to_uint n).

(** Drop the first [n] characters. *)
Fixpoint str_drop (n : nat) (s : string) : string :=
  match n, s with
  | O, _ => s
  | S k, EmptyString => EmptyString
  | S k, String _ r => str_drop k r
  end.

(** [s.removeprefix(p)]. *)
Definition removeprefix (p s : string) : string :=
  if String.prefix p s then str_drop (String.length p) s else s.

(** [s.replace(old, new)] for a non-empty [old]: occurrences are found from
    the left and do not overlap.  [skip] counts the characters of an
    occurrence that are still to be passed over. *)
Fixpoint replace_from (old new : string) (skip : nat) (s : string) : string :=
  match s with
  | EmptyString => EmptyString
  | String c rest =>
      match skip with
      | S k => replace_from old new k rest
      | O =>
          if String.prefix old s
          then new ++ replace_from old new (String.length old - 1) rest
          else String c (replace_from old new 0 rest)
      end
  end.

Definition replace (old new s : string) : string := replace_from old new 0 s.

(** *** Dynamic behaviour of the built-ins the comparator applies *)

(** A [str] is held as its UTF-8 encoding: a character (a code point) begins
    at every byte that is not a continuation byte, [0x80] to [0xBF]. *)
Definition is_continuation (c : ascii) : bool :=
  Nat.leb 128 (nat_of_ascii c) && Nat.ltb (nat_of_ascii c) 192.

(** The characters of a [str], after the bytes [cur] of the character that
    is being read. *)
Fixpoint code_points (cur : string) (s : string) : list string :=
  match s with
  | EmptyString => match cur with EmptyString => [] | _ => [cur] end
  | String c r =>
      if is_continuation c then code_points (cur ++ String c EmptyString) r
      else match cur with
           | EmptyString => code_points (String c EmptyString) r
           | _ => cur :: code_points (String c EmptyString) r
           end
  end.

(** [len(v)]. *)
Definition py_len (v : value) : result nat :=
  match v with
  | VList l => Ok (List.length l)
  | VDict d => Ok (List.length d)
  | VStr s => Ok (List.length (code_points EmptyString s))
  | _ => Raise TypeError
  end.

(** What iterating over a [str] yields: its characters, each a [str]. *)
Definition chars (s : string) : list value :=
  map VStr (code_points EmptyString s).

(** [v[idx]] for an [int] index [idx >= 0]. *)
Definition getitem_idx (v : value) (idx : nat) : result value :=
  match v with
  | VList l =>
      match nth_error l idx with Some x => Ok x | None => Raise IndexError end
  | VStr s =>
      match nth_error (chars s) idx with
      | Some x => Ok x
      | None => Raise IndexError
      end
  | VDict _ => Raise KeyError
  | _ => Raise TypeError
  end.

(** [key in v] for a [str] key. *)
Definition contains_key (key : string) (v : value) : result bool :=
  match v with
  | VDict d => Ok (match lookup key d with Some _ => true | None => false end)
  | VList l => Ok (existsb (py_eqb (VStr key)) l)
  | VStr s => Ok (str_contains key s)
  | _ => Raise TypeError
  end.

(** [v[key]] for a [str] key. *)
Definition getitem_key (v : value) (key : string) : result value :=
  match v with
  | VDict d =>
      match lookup key d with Some x => Ok x | None => Raise KeyError end
  | _ => Raise TypeError
  end.

(** [obj.get(prop)]: [None] when the key is absent. *)
Definition dict_get (obj : value) (prop : string) : result value :=
  match obj with
  | VDict d =>
      Ok (match lookup prop d with Some x => x | None => VNone end)
  | _ => Raise AttributeError
  end.

End Py.
Import Py.

(* ===================================================================== *)
(** ** The index-stripping substitution [re.sub("\[[^()]*\]", "", path)] *)
(* ===================================================================== *)

Module Regex.

Definition is_paren (c : ascii) : bool :=
  Ascii.eqb c "("%char || Ascii.eqb c ")"%char.

(** The pattern is an opening bracket, then [[^()]*], then a closing bracket.
    [last_close s], for the text [s] that follows an opening bracket, is the
    position of the closing bracket that ends the match: the star is greedy,
    so it is the last closing bracket that can be reached without crossing a
    parenthesis; [None] when there is no match at this opening bracket. *)
Fixpoint last_close (s : string) : option nat :=
  match s with
  | EmptyString => None
  | String c r =>
      if is_paren c then None
      else match last_close r with
           | Some i => Some (S i)
           | None => if Ascii.eqb c "]"%char then Some O else None
           end
  end.

(** [re.sub] scans from the left; at every position that is not inside an
    earlier match it tries the pattern and deletes the match.  [skip] counts
    the characters of the current match that are still to be deleted. *)
Fixpoint sub_from (skip : nat) (s : string) : string :=
  match s with
  | EmptyString => EmptyString
  | String c r =>
      match skip with
      | S k => sub_from k r
      | O =>
          if Ascii.eqb c "["%char
          then match last_close r with
               | Some i => sub_from (S i) r
               | None => String c (sub_from 0 r)
               end
          else String c (sub_from 0 r)
      end
  end.

(** [re.sub("\[[^()]*\]", "", path)]. *)
Definition strip_indices (path : string) : string := sub_from 0 path.

End Regex.
Import Regex.

(* ===================================================================== *)
(** ** The diff recorder ([LogProcessor]) *)
(* ===================================================================== *)

(** One recorded difference: its kind, the path of the cursor when it was
    recorded, and the values it is about. *)
Inductive diff_entry : Type :=
| MissingProperty (path : string)
| IncorrectType (path : string) (expected actual : value)
| UnequalValues (path : string) (expected actual : value)
| MissingArrayItem (path : string) (exp_value : value)
    (target_prop : option string)
| LackOfArrayItems (path : string) (exp_len act_len : nat)
| ExceedingArrayItems (path : string) (exp_len act_len : nat).

(** Modelled from the spec: the class [LogProcessor] of the module
    [log_processor], which the comparator imports, is not among the sources.
    It owns the ordered log and the current path (spec 4.2, 3): a path is the
    parent path and the segment joined by a dot, every recording call appends
    exactly one entry for the current path, nothing is ever removed. *)
Record LogProcessor : Type := mkLog {
  curr_path : string;
  log : list diff_entry
}.

Definition new_LogProcessor : LogProcessor := mkLog "" [].

(** The comparator object.  [target_key_path] is the attribute that
    [_compare_lists] probes with [hasattr]: [None] while it is unset. *)
Record JSONComparator : Type := mkComparator {
  diff_log : LogProcessor;
  target_property : string;
  properties_to_ignore : list string;
  left_data : value;
  right_data : value;
  target_key_path : option string
}.

(** *** Computations on the comparator: state that survives exceptions *)

Definition M (A : Type) : Type := JSONComparator -> result A * JSONComparator.

Definition ret {A} (a : A) : M A := fun self => (Ok a, self).

Definition bind {A B} (c : M A) (k : A -> M B) : M B :=
  fun self =>
    match c self with
    | (Ok a, self') => k a self'
    | (Raise e, self') => (Raise e, self')
    end.

Definition lift {A} (r : result A) : M A := fun self => (r, self).
Definition raise {A} (e : exn) : M A := lift (Raise e).
Definition get : M JSONComparator := fun self => (Ok self, self).
Definition put (self' : JSONComparator) : M unit := fun _ => (Ok tt, self').

Declare Scope comparator_scope.
Delimit Scope comparator_scope with cmp.
Notation "x <- c ;; k" := (bind c (fun x => k))
  (at level 100, c at next level, right associativity) : comparator_scope.
Notation "c ;; k" := (bind c (fun _ => k))
  (at level 100, right associativity) : comparator_scope.
Local Open Scope comparator_scope.

Definition set_diff_log (d : LogProcessor) (self : JSONComparator)
  : JSONComparator :=
  mkComparator d (target_property self) (properties_to_ignore self)
    (left_data self) (right_data self) (target_key_path self).

Definition set_target_property (t : string) (self : JSONComparator)
  : JSONComparator :=
  mkComparator (diff_log self) t (properties_to_ignore self)
    (left_data self) (right_data self) (target_key_path self).

(** [for idx, val in enumerate(items): body(idx, val)], counting from [idx]. *)
Definition for_enumerate (body : nat -> value -> M unit)
  : nat -> list value -> M unit :=
  fix loop (idx : nat) (items : list value) : M unit :=
    match items with
    | [] => ret tt
    | val :: rest => body idx val ;; loop (S idx) rest
    end.

(** [for key, val in items: body(key, val)]. *)
Definition for_items (body : string -> value -> M unit)
  : list (string * value) -> M unit :=
  fix loop (items : list (string * value)) : M unit :=
    match items with
    | [] => ret tt
    | (key, val) :: rest => body key val ;; loop rest
    end.

Module Log.

(** Modelled from the spec: [setup_path] of the absent [LogProcessor]; the
    cursor becomes the parent path and the segment joined by a dot
    (spec 3, 4.1). *)
Definition setup_path (item_path segment : string) : M unit :=
  self <- get ;;
  put (set_diff_log
         (mkLog (item_path ++ "." ++ segment) (log (diff_log self))) self).

Definition get_curr_path : M string :=
  self <- get ;; ret (curr_path (diff_log self)).

(** Modelled from the spec: the recording methods of the absent
    [LogProcessor]; each call appends exactly one entry, for the current
    path, and rewrites nothing (spec 4.2). *)
Definition record (entry : string -> diff_entry) : M unit :=
  self <- get ;;
  let d := diff_log self in
  put (set_diff_log
         (mkLog (curr_path d) (log d ++ [entry (curr_path d)])) self).

Definition missing_property : M unit := record MissingProperty.
Definition incorrect_type (expected actual : value) : M unit :=
  record (fun p => IncorrectType p expected actual).
Definition unequal_values (expected actual : value) : M unit :=
  record (fun p => UnequalValues p expected actual).
Definition missing_array_item (exp_value : value)
  (target_prop : option string) : M unit :=
  record (fun p => MissingArrayItem p exp_value target_prop).
Definition lack_of_array_items (exp_len act_len : nat) : M unit :=
  record (fun p => LackOfArrayItems p exp_len act_len).
Definition exceeding_array_items (exp_len act_len : nat) : M unit :=
  record (fun p => ExceedingArrayItems p exp_len act_len).

(** [self.diff_log.log.clear()]. *)
Definition clear : M unit :=
  self <- get ;;
  put (set_diff_log (mkLog (curr_path (diff_log self)) []) self).

End Log.

(* ===================================================================== *)
(** ** [class JSONComparator] *)
(* ===================================================================== *)

(** What [enumerate(v)] iterates over: the items of a list, the keys of a
    dict, the characters of a string. *)
Definition py_iter (v : value) : result (list value) :=
  match v with
  | VList l => Ok l
  | VDict d => Ok (map (fun kv => VStr (fst kv)) d)
  | VStr s => Ok (chars s)
  | _ => Raise TypeError
  end.

(** [__init__], after both files are loaded.  A missing (or empty) argument
    becomes the empty string, respectively the empty list; [target_key_path]
    is not among the attributes that are assigned. *)
Definition __init__ (left_ right_ : value) (target_property : option string)
  (properties_to_ignore : option (list string)) : JSONComparator :=
  mkComparator new_LogProcessor
    (match target_property with Some t => t | None => "" end)
    (match properties_to_ignore with Some l => l | None => [] end)
    left_ right_ None.

(** [__edit_target_prop_path_root]. *)
Definition __edit_target_prop_path_root (from_ to : string) : M unit :=
  self <- get ;;
  put (set_target_property (replace from_ to (target_property self)) self).

(** [__key_to_ignore]. *)
Definition normalize_path (path : string) : string :=
  replace "LEFT" "DATA" (replace "RIGHT" "DATA" (strip_indices path)).

Definition __key_to_ignore : M bool :=
  self <- get ;;
  let curr_path_without_idx := normalize_path (curr_path (diff_log self)) in
  ret (existsb (String.eqb curr_path_without_idx) (properties_to_ignore self)).

(** [__check_array_lengths]. *)
Definition __check_array_lengths (item_path : string) (exp_len act_len : nat)
  : M unit :=
  Log.setup_path item_path "<array>" ;;
  if Nat.ltb act_len exp_len then Log.lack_of_array_items exp_len act_len
  else if Nat.ltb exp_len act_len
       then Log.exceeding_array_items exp_len act_len
       else ret tt.

(** [__get_target_prop_value]; [object_] is a dict when it is called. *)
Definition __get_target_prop_value (object_ : value) : M (string * value) :=
  self <- get ;;
  let target_key :=
    replace "." ""
      (removeprefix (strip_indices (curr_path (diff_log self)))
         (target_property self)) in
  exp_key_val <- lift (getitem_key object_ target_key) ;;
  ret (target_key, exp_key_val).

(** [__get_idx_of_similar_row]: the scan over [enumerate(data)]. *)
Fixpoint scan_similar_row (prop : string) (prop_val : value) (idx : nat)
  (objs : list value) : result (option nat) :=
  match objs with
  | [] => Ok None
  | obj :: rest =>
      match dict_get obj prop with
      | Raise e => Raise e
      | Ok act_val =>
          if py_eqb act_val prop_val then Ok (Some idx)
          else scan_similar_row prop prop_val (S idx) rest
      end
  end.

Definition __get_idx_of_similar_row (prop : string) (prop_val : value)
  (data : value) : result (option nat) :=
  match py_iter data with
  | Raise e => Raise e
  | Ok objs => scan_similar_row prop prop_val 0 objs
  end.

(** The three loop bodies.  [rec_dicts] and [rec_lists] stand for the calls
    [self._compare_dicts(curr_path, val, _)] and
    [self._compare_lists(curr_path, val, _)] on the expected item [val]. *)
Section loop_bodies.
Variable rec_dicts rec_lists : value -> string -> value -> M unit.

(** Lines 105-124: one turn of the loop of [_compare_dicts]. *)
Definition compare_dicts_item (item_path : string) (act_data : value)
  (key : string) (val : value) : M unit :=
  Log.setup_path item_path key ;;
  present <- lift (contains_key key act_data) ;;
  if negb present then Log.missing_property
  else
    match val with
    | VDict _ =>
        act <- lift (getitem_key act_data key) ;;
        if is_dict act
        then (path <- Log.get_curr_path ;; rec_dicts val path act)
        else Log.incorrect_type (VDict []) act
    | VList _ =>
        act <- lift (getitem_key act_data key) ;;
        if is_list act
        then (path <- Log.get_curr_path ;; rec_lists val path act)
        else Log.incorrect_type (VList []) act
    | _ =>
        act <- lift (getitem_key act_data key) ;;
        if py_neb val act
        then (ignored <- __key_to_ignore ;;
              if negb ignored then Log.unequal_values val act else ret tt)
        else ret tt
    end.

(** Lines 140-159: one turn of the loop of
    [__compare_with_items_order_respect]. *)
Definition items_order_item (item_path : string) (act_data : value)
  (act_data_len : nat) (idx : nat) (val : value) : M unit :=
  Log.setup_path item_path ("<array>[" ++ str_of_nat idx ++ "]") ;;
  if Nat.eqb idx act_data_len then Log.missing_array_item val None
  else
    match val with
    | VDict _ =>
        act <- lift (getitem_idx act_data idx) ;;
        if is_dict act
        then (path <- Log.get_curr_path ;; rec_dicts val path act)
        else Log.incorrect_type (VDict []) act
    | VList _ =>
        act <- lift (getitem_idx act_data idx) ;;
        if is_list act
        then (path <- Log.get_curr_path ;; rec_lists val path act)
        else Log.incorrect_type (VList []) act
    | _ =>
        act <- lift (getitem_idx act_data idx) ;;
        if py_neb val act then Log.unequal_values val act else ret tt
    end.

(** Lines 167-191: one turn of the loop of
    [__compare_with_nested_obj_prop_respect]. *)
Definition nested_obj_prop_item (item_path : string) (act_data : value)
  (idx : nat) (val : value) : M unit :=
  Log.setup_path item_path ("<array[" ++ str_of_nat idx ++ "]>") ;;
  match val with
  | VDict _ =>
      tp <- __get_target_prop_value val ;;
      let (target_prop, target_prop_val) := tp : string * value in
      act_data_similar_idx <-
        lift (__get_idx_of_similar_row target_prop target_prop_val act_data) ;;
      match act_data_similar_idx with
      | None => Log.missing_array_item target_prop_val (Some target_prop)
      | Some i =>
          act <- lift (getitem_idx act_data i) ;;
          path <- Log.get_curr_path ;;
          rec_dicts val path act
      end
  | VList _ =>
      act <- lift (getitem_idx act_data idx) ;;
      if is_list act
      then (path <- Log.get_curr_path ;; rec_lists val path act)
      else Log.incorrect_type (VList []) act
  | _ =>
      act <- lift (getitem_idx act_data idx) ;;
      if py_neb val act then Log.unequal_values val act else ret tt
  end.

(** [__compare_with_items_order_respect]; [items] is what
    [enumerate(exp_data)] yields. *)
Definition __compare_with_items_order_respect (item_path : string)
  (exp_data act_data : value) (items : list value) : M unit :=
  exp_data_len <- lift (py_len exp_data) ;;
  act_data_len <- lift (py_len act_data) ;;
  __check_array_lengths item_path exp_data_len act_data_len ;;
  for_enumerate (items_order_item item_path act_data act_data_len) 0 items.

(** [__compare_with_nested_obj_prop_respect]. *)
Definition __compare_with_nested_obj_prop_respect (item_path : string)
  (exp_data act_data : value) (items : list value) : M unit :=
  exp_data_len <- lift (py_len exp_data) ;;
  act_data_len <- lift (py_len act_data) ;;
  __check_array_lengths item_path exp_data_len act_data_len ;;
  for_enumerate (nested_obj_prop_item item_path act_data) 0 items.

(** The body of [_compare_lists]: [hasattr(self, "target_key_path")] selects
    the strategy. *)
Definition compare_lists_body (item_path : string)
  (exp_data act_data : value) (items : list value) : M unit :=
  self <- get ;;
  match target_key_path self with
  | Some _ =>
      __compare_with_nested_obj_prop_respect item_path exp_data act_data items
  | None =>
      __compare_with_items_order_respect item_path exp_data act_data items
  end.

End loop_bodies.

(** When the expected value is not a list its items are strings (keys or
    characters), so no turn of the loop reaches a recursive call. *)
Definition no_descent : value -> string -> value -> M unit :=
  fun _ _ _ => ret tt.

(** [_compare_dicts] and [_compare_lists], by recursion on the expected
    value. *)
Fixpoint _compare_dicts (item_path : string) (exp_data act_data : value)
  {struct exp_data} : M unit :=
  match exp_data with
  | VDict items =>
      for_items
        (compare_dicts_item
           (fun val path act => _compare_dicts path val act)
           (fun val path act => _compare_lists path val act)
           item_path act_data)
        items
  | _ => raise AttributeError       (* no method [items] *)
  end
with _compare_lists (item_path : string) (exp_data act_data : value)
  {struct exp_data} : M unit :=
  match exp_data with
  | VList items =>
      compare_lists_body
        (fun val path act => _compare_dicts path val act)
        (fun val path act => _compare_lists path val act)
        item_path exp_data act_data items
  | _ =>
      compare_lists_body no_descent no_descent item_path exp_data act_data
        (match py_iter exp_data with Ok items => items | Raise _ => [] end)
  end.

(** [__compare]: the [match] is on [self.left_data] whatever the direction. *)
Definition __compare (with_actual : bool) : M unit :=
  self <- get ;;
  let '(data1, data2, root_log) :=
    if with_actual then (left_data self, right_data self, "RIGHT")
    else (right_data self, left_data self, "LEFT") in
  match left_data self with
  | VDict _ => _compare_dicts root_log data1 data2
  | VList _ => _compare_lists root_log data1 data2
  | _ => raise RuntimeError
  end.

Definition compare_with_right : M unit :=
  Log.clear ;;
  __edit_target_prop_path_root "DATA" "RIGHT" ;;
  __compare true ;;
  __edit_target_prop_path_root "RIGHT" "DATA".

Definition compare_with_left : M unit :=
  Log.clear ;;
  __edit_target_prop_path_root "DATA" "LEFT" ;;
  __compare false ;;
  __edit_target_prop_path_root "LEFT" "DATA".

Definition full_compare : M unit :=
  Log.clear ;;
  __edit_target_prop_path_root "DATA" "RIGHT" ;;
  __compare true ;;
  __edit_target_prop_path_root "RIGHT" "LEFT" ;;
  __compare false ;;
  __edit_target_prop_path_root "LEFT" "DATA".

(** What the caller observes after a call: how it ended and the log. *)
Definition outcome (c : M unit) (self : JSONComparator)
  : result unit * list diff_entry :=
  let (r, self') := c self in (r, log (diff_log self')).

(* ===================================================================== *)
(** ** Vocabulary of the statements *)
(* ===================================================================== *)

(** The comparator with its recorder replaced: what every recording step
    does to [self]. *)
Definition with_log (path : string) (entries : list diff_entry)
  (self : JSONComparator) : JSONComparator :=
  set_diff_log (mkLog path entries) self.

(** *** Documents *)

Fixpoint distinct (keys : list string) : bool :=
  match keys with
  | [] => true
  | k :: r => negb (existsb (String.eqb k) r) && distinct r
  end.

(** A value that [json.load] builds from a JSON text: a dict holds every key
    once, and no number is NaN (JSON has no literal for it). *)
Fixpoint json_document (v : value) : bool :=
  match v with
  | VFloat FNan => false
  | VList l => forallb json_document l
  | VDict d =>
      distinct (map fst d) && forallb (fun kv => json_document (snd kv)) d
  | _ => true
  end.

(** The root of a document the comparator supports. *)
Definition object_or_array (v : value) : bool := is_dict v || is_list v.

(** A scalar: neither a dict nor a list. *)
Definition scalar (v : value) : bool := negb (is_dict v) && negb (is_list v).

(** The JSON type of a value. *)
Inductive json_type : Type :=
| TNull | TBoolean | TNumber | TString | TArray | TObject.

Definition type_of (v : value) : json_type :=
  match v with
  | VNone => TNull
  | VBool _ => TBoolean
  | VInt _ | VFloat _ => TNumber
  | VStr _ => TString
  | VList _ => TArray
  | VDict _ => TObject
  end.

(** A boolean beside the number that Python takes it for: 1 for [True],
    0 for [False]. *)
Definition bool_beside_its_number (v w : value) : bool :=
  match v, w with
  | VBool b, VInt z | VInt z, VBool b => Z.eqb z (int_of_bool b)
  | VBool b, VFloat f | VFloat f, VBool b => int_float_eqb (int_of_bool b) f
  | _, _ => false
  end.

(** *** Runs *)

(** A run that ends normally and leaves everything but the cursor as it
    was. *)
Definition quiet (c : M unit) : Prop :=
  forall self, target_key_path self = None ->
    exists p, c self = (Ok tt, with_log p (log (diff_log self)) self).

(** The comparators a run is considered on: a given ignore list, and the
    attribute [target_key_path] unset. *)
Definition configured (to_ignore : list string) (self : JSONComparator)
  : Prop :=
  properties_to_ignore self = to_ignore /\ target_key_path self = None.

(** [c] ends as [r] and appends [es], from any comparator whose cursor is at
    [path] ... *)
Definition appends_at (to_ignore : list string) (path : string) (c : M unit)
  (r : result unit) (es : list diff_entry) : Prop :=
  forall self,
    configured to_ignore self -> curr_path (diff_log self) = path ->
    exists p, c self = (r, with_log p (log (diff_log self) ++ es) self).

(** ... and from any comparator at all. *)
Definition appends (to_ignore : list string) (c : M unit) (r : result unit)
  (es : list diff_entry) : Prop :=
  forall self,
    configured to_ignore self ->
    exists p, c self = (r, with_log p (log (diff_log self) ++ es) self).

Definition framed_at (to_ignore : list string) (path : string) (c : M unit)
  : Prop :=
  exists r es, appends_at to_ignore path c r es.

Definition framed (to_ignore : list string) (c : M unit) : Prop :=
  exists r es, appends to_ignore c r es.

(** *** Texts *)

(** [s] holds no occurrence of the index pattern: no opening bracket is
    followed by a closing one that can be reached without crossing a
    parenthesis. *)
Fixpoint match_free (s : string) : bool :=
  match s with
  | EmptyString => true
  | String c r =>
      (negb (Ascii.eqb c "["%char) ||
       match last_close r with None => true | Some _ => false end)
      && match_free r
  end.

(** No parenthesis occurs in [s]. *)
Fixpoint paren_free (s : string) : bool :=
  match s with
  | EmptyString => true
  | String c r => negb (is_paren c) && paren_free r
  end.

(** The character [c] occurs in [w]. *)
Fixpoint occurs (c : ascii) (w : string) : bool :=
  match w with
  | EmptyString => false
  | String a r => Ascii.eqb c a || occurs c r
  end.

(** *** The keyed scan *)

(** The identifying value the scan sees in an object: [None] when the
    property is absent. *)
Definition identifying_value (prop : string) (obj : value) : value :=
  match obj with
  | VDict d => match lookup prop d with Some x => x | None => VNone end
  | _ => VNone
  end.

Definition lacks_property (prop : string) (obj : value) : bool :=
  match obj with
  | VDict d => match lookup prop d with Some _ => false | None => true end
  | _ => false
  end.

(** The object holds [null] under [prop], or does not have it. *)
Definition null_or_absent (prop : string) (obj : value) : bool :=
  match obj with
  | VDict d =>
      match lookup prop d with
      | None | Some VNone => true
      | Some _ => false
      end
  | _ => false
  end.

Definition similar (prop : string) (prop_val : value) (obj : value) : bool :=
  py_eqb (identifying_value prop obj) prop_val.

(** [i] is the first index of [objs] that holds a similar object. *)
Definition first_similar (prop : string) (prop_val : value)
  (objs : list value) (i : nat) : Prop :=
  (exists obj, nth_error objs i = Some obj /\
               similar prop prop_val obj = true) /\
  (forall j obj, j < i -> nth_error objs j = Some obj ->
                 similar prop prop_val obj = false).

(** *** What a run emits *)

(** The path an entry was recorded at. *)
Definition entry_path (e : diff_entry) : string :=
  match e with
  | MissingProperty p
  | IncorrectType p _ _
  | UnequalValues p _ _
  | MissingArrayItem p _ _
  | LackOfArrayItems p _ _
  | ExceedingArrayItems p _ _ => p
  end.

(** The entry lies below [root]: its path is [root], a dot, and more. *)
Definition rooted_at (root : string) (e : diff_entry) : Prop :=
  String.prefix (root ++ ".") (entry_path e) = true.

(** From every comparator that [cfg] admits, [c] changes nothing but the
    cursor and the end of the log, and how it ends ([r]) and what it appends
    ([es]) satisfy [Q]. *)
Definition emits (cfg : JSONComparator -> Prop) (c : M unit)
  (Q : result unit -> list diff_entry -> Prop) : Prop :=
  forall self, cfg self ->
    exists r p es,
      c self = (r, with_log p (log (diff_log self) ++ es) self) /\ Q r es.

(** The same, from the comparators whose cursor is at [path]. *)
Definition emits_at (cfg : JSONComparator -> Prop) (path : string)
  (c : M unit) (Q : result unit -> list diff_entry -> Prop) : Prop :=
  forall self, cfg self -> curr_path (diff_log self) = path ->
    exists r p es,
      c self = (r, with_log p (log (diff_log self) ++ es) self) /\ Q r es.

(** [cfg] does not look at the recorder. *)
Definition blind_to_log (cfg : JSONComparator -> Prop) : Prop :=
  forall p es self, cfg self -> cfg (with_log p es self).

(** Every comparator. *)
Definition any_comparator (self : JSONComparator) : Prop := True.

(** What an operation leaves alone: the two documents, the ignore list and
    the attribute that selects the strategy. *)
Definition same_inputs (self self' : JSONComparator) : Prop :=
  left_data self' = left_data self /\
  right_data self' = right_data self /\
  properties_to_ignore self' = properties_to_ignore self /\
  target_key_path self' = target_key_path self.

(** *** Conformance *)

(** [act] conforms to [exp]: an object holds every expected key, with a
    conforming value (it may hold further keys); an array has the length of
    the expected one and conforming items, position by position; anything
    else is equal ([==]) to the expected scalar. *)
Fixpoint conforms (exp act : value) {struct exp} : bool :=
  match exp with
  | VDict de =>
      match act with
      | VDict da =>
          (fix items (de : list (string * value)) : bool :=
             match de with
             | [] => true
             | (k, v) :: r =>
                 match lookup k da with
                 | Some a => conforms v a && items r
                 | None => false
                 end
             end) de
      | _ => false
      end
  | VList le =>
      match act with
      | VList la =>
          (fix go (le la : list value) {struct le} : bool :=
             match le, la with
             | [], [] => true
             | x :: xs, y :: ys => conforms x y && go xs ys
             | _, _ => false
             end) le la
      | _ => false
      end
  | _ => py_eqb exp act
  end.

(** Two roots of the same kind: both objects, or both arrays. *)
Definition same_root (a b : value) : bool :=
  (is_dict a && is_dict b) || (is_list a && is_list b).

(** A run settles the question [b]: when [b] holds it returns and appends
    nothing; when [b] fails, and no path is ignored, it appends something. *)
Definition settles (to_ignore : list string) (b : bool) (r : result unit)
  (es : list diff_entry) : Prop :=
  (b = true -> r = Ok tt /\ es = []) /\
  (b = false -> to_ignore = [] -> es <> []).

(** *** Subscripts in bounds *)

(** The positional walk of [exp] along [act] stays in bounds: wherever it
    takes an expected array along an actual array, the expected one is at
    most one item longer.  (Where a key is missing or the kinds differ, the
    walk does not descend.) *)
Fixpoint in_bounds (exp act : value) {struct exp} : bool :=
  match exp with
  | VDict de =>
      match act with
      | VDict da =>
          (fix items (de : list (string * value)) : bool :=
             match de with
             | [] => true
             | (k, v) :: r =>
                 match lookup k da with
                 | Some a => in_bounds v a && items r
                 | None => items r
                 end
             end) de
      | _ => true
      end
  | VList le =>
      match act with
      | VList la =>
          (fix go (le la : list value) {struct le} : bool :=
             match le with
             | [] => true
             | x :: xs =>
                 match la with
                 | y :: ys => in_bounds x y && go xs ys
                 | [] => match xs with [] => true | _ :: _ => false end
                 end
             end) le la
      | _ => true
      end
  | _ => true
  end.

(** A run ends normally if [b] holds; otherwise it ends with an IndexError,
    and the last entry it recorded is the one for the first missing array
    item. *)
Definition ends_as (b : bool) (r : result unit) (es : list diff_entry)
  : Prop :=
  if b then r = Ok tt
  else r = Raise IndexError /\
       exists es' p v, es = es' ++ [MissingArrayItem p v None].

(** *** Equal documents *)

(** Every object of the value holds each of its keys once, as the dicts that
    [json.load] builds do. *)
Fixpoint keys_once (v : value) : bool :=
  match v with
  | VList l => forallb keys_once l
  | VDict d =>
      distinct (map fst d) && forallb (fun kv => keys_once (snd kv)) d
  | _ => true
  end.

(** *** What the ignore list removes *)

(** [es] is [es0] without some of its [UnequalValues] entries, each of them
    at a path whose normalized form is on the ignore list. *)
Inductive thinned (to_ignore : list string)
  : list diff_entry -> list diff_entry -> Prop :=
| thinned_nil : thinned to_ignore [] []
| thinned_keep e es es0 :
    thinned to_ignore es es0 -> thinned to_ignore (e :: es) (e :: es0)
| thinned_drop path expected actual es es0 :
    In (normalize_path path) to_ignore ->
    thinned to_ignore es es0 ->
    thinned to_ignore es (UnequalValues path expected actual :: es0).

(** [c] run with the ignore list and run with an empty one: the two runs end
    the same way, and the first appends what the second appends, thinned. *)
Definition thins (to_ignore : list string) (c : M unit) : Prop :=
  exists r es es0,
    appends to_ignore c r es /\ appends [] c r es0 /\
    thinned to_ignore es es0.

Definition thins_at (to_ignore : list string) (path : string) (c : M unit)
  : Prop :=
  exists r es es0,
    appends_at to_ignore path c r es /\ appends_at [] path c r es0 /\
    thinned to_ignore es es0.

(** No number of the value is NaN. *)
Fixpoint nan_free (v : value) : bool :=
  match v with
  | VFloat FNan => false
  | VList l => forallb nan_free l
  | VDict d => forallb (fun kv => nan_free (snd kv)) d
  | _ => true
  end.

(** *** The two passes side by side *)

(** A path below RIGHT, moved below LEFT. *)
Definition to_left (path : string) : string :=
  if String.prefix "RIGHT" path
  then "LEFT" ++ str_drop (String.length "RIGHT") path
  else path.

(** The entry at another path. *)
Definition at_path (f : string -> string) (e : diff_entry) : diff_entry :=
  match e with
  | MissingProperty p => MissingProperty (f p)
  | IncorrectType p x y => IncorrectType (f p) x y
  | UnequalValues p x y => UnequalValues (f p) x y
  | MissingArrayItem p x t => MissingArrayItem (f p) x t
  | LackOfArrayItems p m n => LackOfArrayItems (f p) m n
  | ExceedingArrayItems p m n => ExceedingArrayItems (f p) m n
  end.

(** [c_left] and [c_right] end the same way, and [c_left] appends what
    [c_right] appends, moved below LEFT. *)
Definition mirrored (to_ignore : list string) (c_left c_right : M unit)
  : Prop :=
  exists r es,
    appends to_ignore c_right r es /\
    appends to_ignore c_left r (map (at_path to_left) es).

(** The same, with the cursors at [rest] below RIGHT and below LEFT. *)
Definition mirrored_at (to_ignore : list string) (rest : string)
  (c_left c_right : M unit) : Prop :=
  exists r es,
    appends_at to_ignore ("RIGHT" ++ rest) c_right r es /\
    appends_at to_ignore ("LEFT" ++ rest) c_left r (map (at_path to_left) es).

(** *** Entries that report a difference *)

(** What an entry says is the case: the two values of an unequal-values
    entry are unequal ([!=]) and the expected one is a scalar; the actual
    value of an incorrect-type entry is not of the kind whose empty value
    the entry shows; the two lengths of a length entry differ in the
    direction of its kind. *)
Definition truthful (e : diff_entry) : Prop :=
  match e with
  | UnequalValues _ expected actual =>
      py_neb expected actual = true /\ scalar expected = true
  | IncorrectType _ expected actual =>
      (expected = VDict [] /\ is_dict actual = false) \/
      (expected = VList [] /\ is_list actual = false)
  | LackOfArrayItems _ exp_len act_len => act_len < exp_len
  | ExceedingArrayItems _ exp_len act_len => exp_len < act_len
  | MissingProperty _ | MissingArrayItem _ _ _ => True
  end.

(** Two items of a container, as the comparison of the container takes
    them: the same object, or equal. *)
Definition same_or_equal (x y : value) : bool :=
  (is_nan x && is_nan y) || py_eqb x y.

(* ===================================================================== *)
(** ** Concrete documents *)
(* ===================================================================== *)

Module Examples.

Definition item (id : Z) (v : string) : value :=
  VDict [("id", VInt id); ("v", VStr v)].

(** [[{"id":1,"v":"a"},{"id":2,"v":"b"}]] *)
Definition expected_rows : value := VList [item 1 "a"; item 2 "b"].
(** [[{"id":2,"v":"b"},{"id":1,"v":"x"}]] and the same rows swapped *)
Definition actual_rows : value := VList [item 2 "b"; item 1 "x"].
Definition actual_rows_swapped : value := VList [item 1 "x"; item 2 "b"].

(** A comparator on which the attribute probed by [_compare_lists] has been
    set by hand, as nothing in the class does. *)
Definition with_target_key_path (self : JSONComparator) : JSONComparator :=
  mkComparator (diff_log self) (target_property self)
    (properties_to_ignore self) (left_data self) (right_data self) (Some "").

End Examples.
Import Examples.

Module Instances.

(** [{"a": [{"id": 1, "x": null}, [1.5, true]], "b": "s"}] *)
Definition nested_doc : value :=
  VDict [("a", VList [VDict [("id", VInt 1); ("x", VNone)];
                      VList [VFloat (FFinite 3 (-1)); VBool true]]);
         ("b", VStr "s")].

(** That document against itself, with a target property and an ignore
    list. *)
Definition nested_self : JSONComparator :=
  __init__ nested_doc nested_doc (Some "DATA.a.<array>.id") (Some ["DATA.b"]).

(** [{"a": 1, "b": 2}] against [{"a": 9, "b": 8}], ignoring [DATA.a]. *)
Definition ignoring_a : JSONComparator :=
  __init__ (VDict [("a", VInt 1); ("b", VInt 2)])
       (VDict [("a", VInt 9); ("b", VInt 8)]) None (Some ["DATA.a"]).


(** [[1]] against [[9]], ignoring the normalized path of the items. *)
Definition ignoring_items : JSONComparator :=
  __init__ (VList [VInt 1]) (VList [VInt 9]) None (Some ["DATA.<array>"]).

(** [{"a": 1}] against [{"a": "1"}]. *)
Definition one_against_text : JSONComparator :=
  __init__ (VDict [("a", VInt 1)]) (VDict [("a", VStr "1")]) None None.

(** [[{"id": 3}, {"v": 1}, {"id": null}]] *)
Definition rows : list value :=
  [VDict [("id", VInt 3)]; VDict [("v", VInt 1)]; VDict [("id", VNone)]].

(** [{"cats": [{"id": 4}, {"id": 2}]}] with the target property of the
    docstring of [__init__]. *)
Definition cats : JSONComparator :=
  let doc := VDict [("cats", VList [VDict [("id", VInt 4)];
                                    VDict [("id", VInt 2)]])] in
  __init__ doc doc (Some "DATA.cats.<array>.id") None.

(** [{"a": NaN}], which [json.load] accepts, against itself. *)
Definition not_a_number : JSONComparator :=
  __init__ (VDict [("a", VFloat FNan)]) (VDict [("a", VFloat FNan)]) None None.

End Instances.
Import Instances.

(** Documents for the further properties. *)
Module Cases.

(** [{"a": 1, "l": [true]}] *)
Definition small : value :=
  VDict [("a", VInt 1); ("l", VList [VBool true])].

(** [{"a": 1.0, "l": [1], "more": null}] *)
Definition large : value :=
  VDict [("a", VFloat (FFinite 1 0)); ("l", VList [VInt 1]); ("more", VNone)].

(** The smaller document on the left, without and with an ignore list. *)
Definition small_in_large : JSONComparator :=
  __init__ small large None None.

Definition small_in_large_ignoring : JSONComparator :=
  __init__ small large (Some "DATA.l.<array>.id") (Some ["DATA.more"]).

(** [[1, 2, 3]] against [[1]]. *)
Definition three_against_one : JSONComparator :=
  __init__ (VList [VInt 1; VInt 2; VInt 3]) (VList [VInt 1]) None None.

(** [{"a": 1, "b": [true]}] against [{"b": [1.0], "a": 1.0}]. *)
Definition reordered : JSONComparator :=
  __init__ (VDict [("a", VInt 1); ("b", VList [VBool true])])
    (VDict [("b", VList [VFloat (FFinite 1 0)]); ("a", VFloat (FFinite 1 0))])
    None None.

(** [{"a": 1, "b": 2}] against [{"a": 9, "b": 8}] with an empty ignore
    list. *)
Definition not_ignoring_a : JSONComparator :=
  __init__ (VDict [("a", VInt 1); ("b", VInt 2)])
    (VDict [("a", VInt 9); ("b", VInt 8)]) None None.

(** [{"a": [NaN]}] against itself. *)
Definition nan_inside : JSONComparator :=
  let doc := VDict [("a", VList [VFloat FNan])] in
  __init__ doc doc None None.

(** A comparator whose ignore list names keys that hold a root label. *)
Definition ignoring_copyright : JSONComparator :=
  __init__ (VDict [("COPYRIGHT", VInt 1)]) (VDict [("COPYRIGHT", VInt 2)])
    None (Some ["DATA.COPYRIGHT"; "DATA.LEFTOVERS"]).

(** The comparator of the docstring of [__init__] during
    [compare_with_right], in the first turn of the keyed loop over the
    array under [cats]. *)
Definition at_first_cat : JSONComparator :=
  with_log "RIGHT.cats.<array[0]>" []
    (set_target_property "RIGHT.cats.<array>.id" cats).

(** The two documents of [small_in_large], swapped. *)
Definition large_in_small : JSONComparator :=
  __init__ large small None None.

(** [{"a": [{"b": [{"c": c}], "c": d}]}]: the scalar [c] lies under an
    array nested in an item of an array, beside a scalar of the item. *)
Definition nested_arrays (c d : Z) : value :=
  VDict [("a", VList [VDict [("b", VList [VDict [("c", VInt c)]]);
                             ("c", VInt d)]])].

(** Two such documents that differ in both scalars, with the ignore list
    holding the path of the inner one, indices stripped and rooted at
    DATA ... *)
Definition listing_inner_path : JSONComparator :=
  __init__ (nested_arrays 1 5) (nested_arrays 2 6) None
    (Some ["DATA.a.<array>.b.<array>.c"]).

(** ... and with the ignore list holding the path of the other one. *)
Definition listing_other_path : JSONComparator :=
  __init__ (nested_arrays 1 5) (nested_arrays 2 6) None
    (Some ["DATA.a.<array>.c"]).

(** [{"a": 1}] against [{}] and [{"a": {}}] against [{"a": 9}], ignoring
    [DATA.a]. *)
Definition ignoring_missing_a : JSONComparator :=
  __init__ (VDict [("a", VInt 1)]) (VDict []) None (Some ["DATA.a"]).

Definition ignoring_mistyped_a : JSONComparator :=
  __init__ (VDict [("a", VDict [])]) (VDict [("a", VInt 9)]) None
    (Some ["DATA.a"]).

End Cases.

(* ##################################################################### *)
(** * Proofs *)
(* ##################################################################### *)

(* ===================================================================== *)
(** ** Basic facts about the monad and the recorder *)
(* ===================================================================== *)

Lemma with_log_with_log p q es fs self :
  with_log q fs (with_log p es self) = with_log q fs self.
Proof. reflexivity. Qed.

Lemma with_log_same self :
  with_log (curr_path (diff_log self)) (log (diff_log self)) self = self.
Proof. destruct self as [[p l] t i a b k]. reflexivity. Qed.

Lemma bind_ok {A B} (c : M A) (k : A -> M B) self a self' :
  c self = (Ok a, self') -> bind c k self = k a self'.
Proof. unfold bind. intros ->. reflexivity. Qed.

Lemma bind_raise {A B} (c : M A) (k : A -> M B) self e self' :
  c self = (Raise e, self') -> bind c k self = (Raise e, self').
Proof. unfold bind. intros ->. reflexivity. Qed.

Lemma setup_path_run item_path seg self :
  Log.setup_path item_path seg self =
  (Ok tt, with_log (item_path ++ "." ++ seg) (log (diff_log self)) self).
Proof. reflexivity. Qed.

Lemma record_run entry self :
  Log.record entry self =
  (Ok tt, with_log (curr_path (diff_log self))
            (log (diff_log self) ++ [entry (curr_path (diff_log self))]) self).
Proof. reflexivity. Qed.

(** The equations of the two recursive methods. *)
Lemma compare_dicts_nil item_path act_data :
  _compare_dicts item_path (VDict []) act_data = ret tt.
Proof. reflexivity. Qed.

Lemma compare_dicts_cons item_path key val rest act_data :
  _compare_dicts item_path (VDict ((key, val) :: rest)) act_data =
  (compare_dicts_item
     (fun val path act => _compare_dicts path val act)
     (fun val path act => _compare_lists path val act)
     item_path act_data key val ;;
   _compare_dicts item_path (VDict rest) act_data).
Proof. reflexivity. Qed.

Lemma compare_lists_list item_path items act_data :
  _compare_lists item_path (VList items) act_data =
  compare_lists_body
    (fun val path act => _compare_dicts path val act)
    (fun val path act => _compare_lists path val act)
    item_path (VList items) act_data items.
Proof. reflexivity. Qed.

Lemma for_enumerate_cons body idx val rest :
  for_enumerate body idx (val :: rest) =
  (body idx val ;; for_enumerate body (S idx) rest).
Proof. reflexivity. Qed.

(* ===================================================================== *)
(** ** JSON documents *)
(* ===================================================================== *)

Lemma lookup_distinct d key val :
  distinct (map fst d) = true -> In (key, val) d -> lookup key d = Some val.
Proof.
  induction d as [|[k v] r IH]; simpl; [tauto|].
  intros Hd [Heq|Hin].
  - inversion Heq; subst. now rewrite String.eqb_refl.
  - apply andb_prop in Hd as [Hk Hr].
    destruct (String.eqb key k) eqn:E; [|auto].
    apply String.eqb_eq in E; subst k.
    apply negb_true_iff in Hk.
    assert (existsb (String.eqb key) (map fst r) = true) as Hex.
    { apply existsb_exists. exists key. split; [|apply String.eqb_refl].
      change key with (fst (key, val)). now apply in_map. }
    congruence.
Qed.

Lemma dyadic_eqb_refl m e : dyadic_eqb m e m e = true.
Proof. unfold dyadic_eqb. apply Z.eqb_refl. Qed.

(** [v == v] for a scalar that is not NaN. *)
Lemma py_eqb_refl_scalar v :
  json_document v = true -> is_dict v = false -> is_list v = false ->
  py_eqb v v = true.
Proof.
  destruct v as [|b|z|f|s|l|d]; simpl; intros Hj Hd Hl; try discriminate.
  - reflexivity.
  - apply Bool.eqb_reflx.
  - apply Z.eqb_refl.
  - destruct f; simpl;
      [discriminate|apply Bool.eqb_reflx|apply dyadic_eqb_refl].
  - apply String.eqb_refl.
Qed.

(* ===================================================================== *)
(** ** Comparing a document with itself *)
(* ===================================================================== *)

Section self_compare.

Lemma quiet_ret : quiet (ret tt).
Proof.
  intros self _. exists (curr_path (diff_log self)).
  now rewrite with_log_same.
Qed.

Lemma quiet_bind c k : quiet c -> quiet k -> quiet (c ;; k).
Proof.
  intros Hc Hk self Hs. destruct (Hc self Hs) as [p Hp].
  rewrite (bind_ok _ _ _ _ _ Hp).
  destruct (Hk (with_log p (log (diff_log self)) self) Hs) as [q Hq].
  exists q. rewrite Hq. reflexivity.
Qed.

(** One turn of the loop of [_compare_dicts] on an item that the other
    side holds unchanged. *)
Lemma quiet_dicts_item rd rl item_path d key val :
  lookup key d = Some val ->
  json_document val = true ->
  (is_dict val = true -> forall path, quiet (rd val path val)) ->
  (is_list val = true -> forall path, quiet (rl val path val)) ->
  quiet (compare_dicts_item rd rl item_path (VDict d) key val).
Proof.
  intros Hl Hj Hd Hli self Hs. unfold compare_dicts_item.
  rewrite (bind_ok _ _ _ _ _ (setup_path_run _ _ _)).
  unfold bind at 1, lift at 1, contains_key. rewrite Hl. cbn [negb].
  assert (Hget : forall s : JSONComparator,
             lift (getitem_key (VDict d) key) s = (Ok val, s)).
  { intros s. unfold lift, getitem_key. now rewrite Hl. }
  set (self1 := with_log _ _ self).
  assert (Hs1 : target_key_path self1 = None) by exact Hs.
  destruct val as [|b|z|f|s|l|dv];
    rewrite (bind_ok _ _ _ _ _ (Hget self1));
    try (unfold py_neb; rewrite (py_eqb_refl_scalar _ Hj eq_refl eq_refl);
         cbn [negb]; exists (curr_path (diff_log self1)); reflexivity).
  - cbn [is_list]. unfold bind at 1, Log.get_curr_path, bind, get, ret.
    destruct (Hli eq_refl (curr_path (diff_log self1)) self1 Hs1) as [p Hp].
    exists p. rewrite Hp. reflexivity.
  - cbn [is_dict]. unfold bind at 1, Log.get_curr_path, bind, get, ret.
    destruct (Hd eq_refl (curr_path (diff_log self1)) self1 Hs1) as [p Hp].
    exists p. rewrite Hp. reflexivity.
Qed.

(** One turn of the positional loop at an index that holds the same item. *)
Lemma quiet_items_order_item rd rl item_path l idx val :
  nth_error l idx = Some val ->
  json_document val = true ->
  (is_dict val = true -> forall path, quiet (rd val path val)) ->
  (is_list val = true -> forall path, quiet (rl val path val)) ->
  quiet (items_order_item rd rl item_path (VList l) (List.length l) idx val).
Proof.
  intros Hn Hj Hd Hli self Hs. unfold items_order_item.
  rewrite (bind_ok _ _ _ _ _ (setup_path_run _ _ _)).
  assert (Hlt : idx < List.length l)
    by (apply nth_error_Some; congruence).
  replace (Nat.eqb idx (List.length l)) with false
    by (symmetry; apply Nat.eqb_neq; lia).
  assert (Hget : forall s : JSONComparator,
             lift (getitem_idx (VList l) idx) s = (Ok val, s)).
  { intros s. unfold lift, getitem_idx. now rewrite Hn. }
  set (self1 := with_log _ _ self).
  assert (Hs1 : target_key_path self1 = None) by exact Hs.
  destruct val as [|b|z|f|s|l'|dv];
    rewrite (bind_ok _ _ _ _ _ (Hget self1));
    try (unfold py_neb; rewrite (py_eqb_refl_scalar _ Hj eq_refl eq_refl);
         cbn [negb]; exists (curr_path (diff_log self1)); reflexivity).
  - cbn [is_list]. unfold bind at 1, Log.get_curr_path, bind, get, ret.
    destruct (Hli eq_refl (curr_path (diff_log self1)) self1 Hs1) as [p Hp].
    exists p. rewrite Hp. reflexivity.
  - cbn [is_dict]. unfold bind at 1, Log.get_curr_path, bind, get, ret.
    destruct (Hd eq_refl (curr_path (diff_log self1)) self1 Hs1) as [p Hp].
    exists p. rewrite Hp. reflexivity.
Qed.

(** The length check of two arrays of the same length records nothing. *)
Lemma quiet_check_array_lengths item_path n :
  quiet (__check_array_lengths item_path n n).
Proof.
  intros self Hs. unfold __check_array_lengths.
  rewrite (bind_ok _ _ _ _ _ (setup_path_run _ _ _)).
  rewrite Nat.ltb_irrefl. eexists. reflexivity.
Qed.

(** Both methods are quiet on a document compared with itself. *)
Lemma quiet_self v :
  json_document v = true ->
  (is_dict v = true -> forall path, quiet (_compare_dicts path v v)) /\
  (is_list v = true -> forall path, quiet (_compare_lists path v v)).
Proof.
  induction v as [| | | | |l IH|d IH] using value_nested_ind;
    intros Hj; split; try discriminate; intros _ path.
  - (* an array: the positional loop over a suffix of [l] *)
    rewrite compare_lists_list. intros self Hs.
    unfold compare_lists_body, bind at 1, get. rewrite Hs.
    revert self Hs. change (quiet
      (__compare_with_items_order_respect
         (fun val path act => _compare_dicts path val act)
         (fun val path act => _compare_lists path val act)
         path (VList l) (VList l) l)).
    unfold __compare_with_items_order_respect, py_len.
    intros self Hs. unfold bind at 1 2, lift at 1 2. revert self Hs.
    apply quiet_bind; [apply quiet_check_array_lengths|].
    assert (Hsuf : forall items idx,
               (forall i val, nth_error items i = Some val ->
                              nth_error l (idx + i) = Some val) ->
               quiet (for_enumerate
                        (items_order_item
                           (fun val path act => _compare_dicts path val act)
                           (fun val path act => _compare_lists path val act)
                           path (VList l) (List.length l)) idx items)).
    { induction items as [|val rest IHr]; intros idx Hsub;
        [apply quiet_ret|].
      rewrite for_enumerate_cons.
      assert (Hin : nth_error l idx = Some val).
      { rewrite <- (Hsub 0 val eq_refl). f_equal. lia. }
      assert (Hval : In val l) by (eapply nth_error_In; eauto).
      simpl in Hj. rewrite forallb_forall in Hj.
      rewrite Forall_forall in IH.
      apply quiet_bind.
      - apply quiet_items_order_item; auto.
        + intros Hd. now apply (IH val Hval (Hj val Hval)).
        + intros Hd. now apply (IH val Hval (Hj val Hval)).
      - apply IHr. intros i v Hi.
        replace (S idx + i) with (idx + S i) by lia. now apply Hsub. }
    apply Hsuf. intros i val Hi. exact Hi.
  - (* an object: the loop over a suffix of its items *)
    simpl in Hj. apply andb_prop in Hj as [Hkeys Hj].
    rewrite forallb_forall in Hj. rewrite Forall_forall in IH.
    assert (Hsuf : forall items, incl items d ->
               quiet (_compare_dicts path (VDict items) (VDict d))).
    { induction items as [|[key val] rest IHr]; intros Hsub;
        [rewrite compare_dicts_nil; apply quiet_ret|].
      rewrite compare_dicts_cons.
      assert (Hin : In (key, val) d) by (apply Hsub; now left).
      apply quiet_bind.
      - apply quiet_dicts_item.
        + now apply lookup_distinct.
        + exact (Hj _ Hin).
        + intros Hd. now apply (IH _ Hin (Hj _ Hin)).
        + intros Hd. now apply (IH _ Hin (Hj _ Hin)).
      - apply IHr. intros x Hx. apply Hsub. now right. }
    apply Hsuf. apply incl_refl.
Qed.

End self_compare.

Lemma clear_run self :
  Log.clear self = (Ok tt, with_log (curr_path (diff_log self)) [] self).
Proof. reflexivity. Qed.

Lemma edit_target_run from_ to self :
  __edit_target_prop_path_root from_ to self =
  (Ok tt, set_target_property (replace from_ to (target_property self)) self).
Proof. reflexivity. Qed.

(** A pass over a document and itself. *)
Lemma compare_self_quiet with_actual self :
  target_key_path self = None ->
  right_data self = left_data self ->
  json_document (left_data self) = true ->
  object_or_array (left_data self) = true ->
  exists p,
    __compare with_actual self = (Ok tt, with_log p (log (diff_log self)) self).
Proof.
  intros Hs Heq Hj Hroot. unfold __compare, bind at 1, get. rewrite Heq.
  destruct (quiet_self _ Hj) as [Hd Hl].
  destruct (left_data self) as [| | | | |l|d] eqn:E; try discriminate;
    destruct with_actual; (apply Hl || apply Hd); auto.
Qed.

(** C5.  For every JSON document whose root is an object or an array,
    comparing the document with itself ends normally with an empty log, in
    either single direction and with [full_compare], whatever target property
    and ignore list the comparator was built with. *)
Theorem C5_self_comparison_logs_nothing :
  forall (doc : value) (target : option string)
         (to_ignore : option (list string)),
    json_document doc = true ->
    object_or_array doc = true ->
    let self := __init__ doc doc target to_ignore in
    outcome compare_with_right self = (Ok tt, []) /\
    outcome compare_with_left self = (Ok tt, []) /\
    outcome full_compare self = (Ok tt, []).
Proof.
  intros doc target to_ignore Hj Hroot self.
  (* a pass from any state reached on the way leaves the log as it is *)
  assert (Hpass : forall b s (k : unit -> M unit),
             target_key_path s = None -> right_data s = left_data s ->
             left_data s = doc ->
             exists q,
               bind (__compare b) k s = k tt (with_log q (log (diff_log s)) s)).
  { intros b s k Hs Heq Hdoc.
    destruct (compare_self_quiet b s Hs Heq) as [q Hq];
      [now rewrite Hdoc..|].
    exists q. now rewrite (bind_ok _ _ _ _ _ Hq). }
  repeat split.
  - unfold outcome, compare_with_right.
    rewrite (bind_ok _ _ _ _ _ (clear_run _)).
    rewrite (bind_ok _ _ _ _ _ (edit_target_run _ _ _)).
    match goal with
    | |- context [bind (__compare ?b) ?k ?s] =>
        destruct (Hpass b s k eq_refl eq_refl eq_refl) as [q ->]
    end.
    reflexivity.
  - unfold outcome, compare_with_left.
    rewrite (bind_ok _ _ _ _ _ (clear_run _)).
    rewrite (bind_ok _ _ _ _ _ (edit_target_run _ _ _)).
    match goal with
    | |- context [bind (__compare ?b) ?k ?s] =>
        destruct (Hpass b s k eq_refl eq_refl eq_refl) as [q ->]
    end.
    reflexivity.
  - unfold outcome, full_compare.
    rewrite (bind_ok _ _ _ _ _ (clear_run _)).
    rewrite (bind_ok _ _ _ _ _ (edit_target_run _ _ _)).
    match goal with
    | |- context [bind (__compare ?b) ?k ?s] =>
        destruct (Hpass b s k eq_refl eq_refl eq_refl) as [q ->]
    end.
    rewrite (bind_ok _ _ _ _ _ (edit_target_run _ _ _)).
    match goal with
    | |- context [bind (__compare ?b) ?k ?s] =>
        destruct (Hpass b s k eq_refl eq_refl eq_refl) as [q' ->]
    end.
    reflexivity.
Qed.

(** C5 at a nested document. *)
Lemma C5_self_comparison_witness :
  json_document nested_doc = true /\
  object_or_array nested_doc = true /\
  outcome compare_with_right nested_self = (Ok tt, []) /\
  outcome compare_with_left nested_self = (Ok tt, []) /\
  outcome full_compare nested_self = (Ok tt, []).
Proof.
  split; [reflexivity|]. split; [reflexivity|].
  apply (C5_self_comparison_logs_nothing nested_doc
           (Some "DATA.a.<array>.id") (Some ["DATA.b"])); reflexivity.
Defined.

(** Outside JSON: Python's parser also accepts the literal NaN, which is not
    equal to itself, so a text that holds it is reported to differ from
    itself. *)
Lemma nan_differs_from_itself :
  json_document (left_data not_a_number) = false /\
  outcome compare_with_right not_a_number =
  (Ok tt, [UnequalValues "RIGHT.a" (VFloat FNan) (VFloat FNan)]).
Proof. split; reflexivity. Qed.

(* ===================================================================== *)
(** ** What a run appends to the log *)
(* ===================================================================== *)

(** While [target_key_path] is unset, a run of the engine is determined by
    the documents and the ignore list: it appends the same entries and ends
    the same way whatever the log, the cursor and the target property were
    before. *)
Section frame.
Variable to_ignore : list string.

Lemma configured_with_log p es self :
  configured to_ignore self -> configured to_ignore (with_log p es self).
Proof. intros H. exact H. Qed.

Lemma framed_of path c : framed to_ignore c -> framed_at to_ignore path c.
Proof.
  intros (r & es & H). exists r, es. intros self Hc _. now apply H.
Qed.

Lemma framed_ret : framed to_ignore (ret tt).
Proof.
  exists (Ok tt), []. intros self _. exists (curr_path (diff_log self)).
  rewrite app_nil_r, with_log_same. reflexivity.
Qed.

Lemma framed_raise e : framed to_ignore (raise e).
Proof.
  exists (Raise e), []. intros self _. exists (curr_path (diff_log self)).
  rewrite app_nil_r, with_log_same. reflexivity.
Qed.

Lemma framed_record path entry : framed_at to_ignore path (Log.record entry).
Proof.
  exists (Ok tt), [entry path]. intros self _ Hp. exists path.
  rewrite record_run, Hp. reflexivity.
Qed.

Lemma appends_bind c k r1 es1 r2 es2 :
  appends to_ignore c r1 es1 -> appends to_ignore k r2 es2 ->
  appends to_ignore (c ;; k)
    (match r1 with Ok _ => r2 | Raise e => Raise e end)
    (match r1 with Ok _ => es1 ++ es2 | Raise _ => es1 end).
Proof.
  intros Hc Hk self Hs. destruct (Hc self Hs) as [p Hp].
  destruct r1 as [[]|e].
  - rewrite (bind_ok _ _ _ _ _ Hp).
    destruct (Hk _ (configured_with_log p (log (diff_log self) ++ es1)
                      self Hs)) as [q Hq].
    exists q. rewrite Hq, app_assoc. reflexivity.
  - rewrite (bind_raise _ _ _ _ _ Hp). now exists p.
Qed.

Lemma framed_bind c k :
  framed to_ignore c -> framed to_ignore k -> framed to_ignore (c ;; k).
Proof.
  intros (r1 & es1 & H1) (r2 & es2 & H2).
  eexists. eexists. apply (appends_bind _ _ _ _ _ _ H1 H2).
Qed.

(** After [setup_path] the cursor is known. *)
Lemma framed_setup_path item_path seg k :
  framed_at to_ignore (item_path ++ "." ++ seg) k ->
  framed to_ignore (Log.setup_path item_path seg ;; k).
Proof.
  intros (r & es & H). exists r, es. intros self Hs.
  rewrite (bind_ok _ _ _ _ _ (setup_path_run _ _ _)).
  destruct (H (with_log (item_path ++ "." ++ seg) (log (diff_log self)) self)
              (configured_with_log _ _ self Hs) eq_refl) as [p Hp].
  exists p. rewrite Hp. reflexivity.
Qed.

(** A built-in that reads no attribute of [self]. *)
Lemma framed_lift {A} path (r0 : result A) (k : A -> M unit) :
  (forall a, r0 = Ok a -> framed_at to_ignore path (k a)) ->
  framed_at to_ignore path (x <- lift r0 ;; k x).
Proof.
  intros Hk. destruct r0 as [a|e].
  - exact (Hk a eq_refl).
  - exists (Raise e), []. intros self _ Hp. exists path.
    unfold bind, lift. rewrite app_nil_r, <- Hp, with_log_same. reflexivity.
Qed.

Lemma framed_lift_any {A} (r0 : result A) (k : A -> M unit) :
  (forall a, r0 = Ok a -> framed to_ignore (k a)) ->
  framed to_ignore (x <- lift r0 ;; k x).
Proof.
  intros Hk. destruct r0 as [a|e].
  - exact (Hk a eq_refl).
  - exact (framed_raise e).
Qed.

Lemma framed_get_curr_path path (k : string -> M unit) :
  framed_at to_ignore path (k path) ->
  framed_at to_ignore path (p <- Log.get_curr_path ;; k p).
Proof.
  intros (r & es & H). exists r, es. intros self Hs Hp.
  unfold bind at 1, Log.get_curr_path, bind, get, ret. rewrite Hp.
  now apply H.
Qed.

Lemma framed_key_to_ignore path (k : bool -> M unit) :
  framed_at to_ignore path
    (k (existsb (String.eqb (normalize_path path)) to_ignore)) ->
  framed_at to_ignore path (ignored <- __key_to_ignore ;; k ignored).
Proof.
  intros (r & es & H). exists r, es. intros self Hs Hp.
  unfold bind at 1, __key_to_ignore, bind, get, ret.
  rewrite Hp, (proj1 Hs). now apply H.
Qed.

(** The three kinds of turn that the engine takes while the keyed strategy
    is off. *)
Lemma framed_dicts_item rd rl item_path act_data key val :
  (forall path act, framed to_ignore (rd val path act)) ->
  (forall path act, framed to_ignore (rl val path act)) ->
  framed to_ignore (compare_dicts_item rd rl item_path act_data key val).
Proof.
  intros Hd Hl. unfold compare_dicts_item.
  apply framed_setup_path, framed_lift. intros present _.
  destruct present; cbn [negb]; [|apply framed_record].
  destruct val; apply framed_lift; intros act _;
    try (destruct (py_neb _ act);
         [apply framed_key_to_ignore;
          destruct (existsb _ to_ignore); cbn [negb];
          [apply framed_of, framed_ret|apply framed_record]
         |apply framed_of, framed_ret]).
  - destruct (is_list act); [|apply framed_record].
    apply framed_get_curr_path, framed_of, Hl.
  - destruct (is_dict act); [|apply framed_record].
    apply framed_get_curr_path, framed_of, Hd.
Qed.

Lemma framed_items_order_item rd rl item_path act_data act_len idx val :
  (forall path act, framed to_ignore (rd val path act)) ->
  (forall path act, framed to_ignore (rl val path act)) ->
  framed to_ignore (items_order_item rd rl item_path act_data act_len idx val).
Proof.
  intros Hd Hl. unfold items_order_item.
  apply framed_setup_path.
  destruct (Nat.eqb idx act_len); [apply framed_record|].
  destruct val; apply framed_lift; intros act _;
    try (destruct (py_neb _ act);
         [apply framed_record|apply framed_of, framed_ret]).
  - destruct (is_list act); [|apply framed_record].
    apply framed_get_curr_path, framed_of, Hl.
  - destruct (is_dict act); [|apply framed_record].
    apply framed_get_curr_path, framed_of, Hd.
Qed.

Lemma framed_check_array_lengths item_path exp_len act_len :
  framed to_ignore (__check_array_lengths item_path exp_len act_len).
Proof.
  unfold __check_array_lengths. apply framed_setup_path.
  destruct (Nat.ltb act_len exp_len); [apply framed_record|].
  destruct (Nat.ltb exp_len act_len);
    [apply framed_record|apply framed_of, framed_ret].
Qed.

Lemma framed_for_enumerate body items :
  (forall idx val, In val items -> framed to_ignore (body idx val)) ->
  forall idx, framed to_ignore (for_enumerate body idx items).
Proof.
  induction items as [|val rest IH]; intros Hb idx; [apply framed_ret|].
  rewrite for_enumerate_cons. apply framed_bind.
  - apply Hb. now left.
  - apply IH. intros i v Hv. apply Hb. now right.
Qed.

Lemma framed_compare_lists_body rd rl item_path exp_data act_data items :
  (forall val path act, In val items -> framed to_ignore (rd val path act)) ->
  (forall val path act, In val items -> framed to_ignore (rl val path act)) ->
  framed to_ignore (compare_lists_body rd rl item_path exp_data act_data items).
Proof.
  intros Hd Hl.
  assert (H : framed to_ignore
                (__compare_with_items_order_respect rd rl item_path
                   exp_data act_data items)).
  { unfold __compare_with_items_order_respect.
    apply framed_lift_any. intros exp_len _.
    apply framed_lift_any. intros act_len _.
    apply framed_bind; [apply framed_check_array_lengths|].
    apply framed_for_enumerate. intros idx val Hin.
    apply framed_items_order_item; intros; [now apply Hd|now apply Hl]. }
  destruct H as (r & es & H). exists r, es. intros self Hs.
  unfold compare_lists_body, bind, get. rewrite (proj2 Hs). now apply H.
Qed.

(** Both recursive methods, on any two values. *)
Lemma framed_compare exp_data :
  (forall path act, framed to_ignore (_compare_dicts path exp_data act)) /\
  (forall path act, framed to_ignore (_compare_lists path exp_data act)).
Proof.
  induction exp_data as [| | | | |l IH|d IH] using value_nested_ind;
    split; intros path act;
    try apply framed_raise;
    try (apply framed_compare_lists_body; intros; apply framed_ret).
  - rewrite compare_lists_list. rewrite Forall_forall in IH.
    apply framed_compare_lists_body; intros val p a Hin;
      now apply (IH val Hin).
  - induction d as [|[key val] rest IHr];
      [rewrite compare_dicts_nil; apply framed_ret|].
    rewrite compare_dicts_cons. inversion IH as [|? ? Hval Hrest]; subst.
    apply framed_bind; [|now apply IHr].
    apply framed_dicts_item; intros; now apply Hval.
Qed.

End frame.

(** A pass of [__compare] appends entries that depend on the two documents,
    the ignore list and the direction only. *)
Lemma compare_appends left_ right_ to_ignore with_actual :
  exists r es, forall self,
    left_data self = left_ -> right_data self = right_ ->
    configured to_ignore self ->
    exists p,
      __compare with_actual self =
      (r, with_log p (log (diff_log self) ++ es) self).
Proof.
  set (data1 := if with_actual then left_ else right_).
  set (data2 := if with_actual then right_ else left_).
  set (root_log := if with_actual then "RIGHT" else "LEFT").
  destruct (framed_compare to_ignore data1) as [Hd Hl].
  assert (Hrun : forall self,
             left_data self = left_ -> right_data self = right_ ->
             __compare with_actual self =
             match left_ with
             | VDict _ => _compare_dicts root_log data1 data2 self
             | VList _ => _compare_lists root_log data1 data2 self
             | _ => raise RuntimeError self
             end).
  { intros self <- <-. unfold __compare, bind, get, data1, data2, root_log.
    destruct with_actual; destruct (left_data self); reflexivity. }
  destruct left_ as [| | | | |l|d].
  1-5: (destruct (framed_raise to_ignore RuntimeError) as (r & es & H);
        exists r, es; intros self H1 H2 Hs; rewrite (Hrun self H1 H2);
        now apply H).
  - destruct (Hl root_log data2) as (r & es & H).
    exists r, es. intros self H1 H2 Hs. rewrite (Hrun self H1 H2).
    now apply H.
  - destruct (Hd root_log data2) as (r & es & H).
    exists r, es. intros self H1 H2 Hs. rewrite (Hrun self H1 H2).
    now apply H.
Qed.

(** The three public operations, as the caller observes them. *)
Lemma public_outcomes left_ right_ to_ignore :
  exists r1 es1 r2 es2, forall self,
    left_data self = left_ -> right_data self = right_ ->
    configured to_ignore self ->
    outcome compare_with_right self = (r1, es1) /\
    outcome compare_with_left self = (r2, es2) /\
    outcome full_compare self =
      match r1 with
      | Ok _ => (r2, es1 ++ es2)
      | Raise e => (Raise e, es1)
      end.
Proof.
  destruct (compare_appends left_ right_ to_ignore true) as (r1 & es1 & H1).
  destruct (compare_appends left_ right_ to_ignore false) as (r2 & es2 & H2).
  exists r1, es1, r2, es2. intros self Hl Hr Hs.
  assert (Hpass : forall b r es t p L,
             (forall s, left_data s = left_ -> right_data s = right_ ->
                        configured to_ignore s ->
                        exists q, __compare b s =
                                  (r, with_log q (log (diff_log s) ++ es) s)) ->
             exists q,
               __compare b (set_target_property t (with_log p L self)) =
               (r, with_log q (L ++ es) (set_target_property t self))).
  { intros b r es t p L H.
    destruct (H (set_target_property t (with_log p L self)) Hl Hr Hs)
      as [q Hq].
    exists q. rewrite Hq. reflexivity. }
  repeat split.
  - unfold outcome, compare_with_right.
    rewrite (bind_ok _ _ _ _ _ (clear_run _)).
    rewrite (bind_ok _ _ _ _ _ (edit_target_run _ _ _)).
    match goal with
    | |- context [bind (__compare true) _
                    (set_target_property ?t (with_log ?p ?L _))] =>
        destruct (Hpass true r1 es1 t p L H1) as [q Hq]
    end.
    destruct r1 as [[]|e].
    + rewrite (bind_ok _ _ _ _ _ Hq). reflexivity.
    + rewrite (bind_raise _ _ _ _ _ Hq). reflexivity.
  - unfold outcome, compare_with_left.
    rewrite (bind_ok _ _ _ _ _ (clear_run _)).
    rewrite (bind_ok _ _ _ _ _ (edit_target_run _ _ _)).
    match goal with
    | |- context [bind (__compare false) _
                    (set_target_property ?t (with_log ?p ?L _))] =>
        destruct (Hpass false r2 es2 t p L H2) as [q Hq]
    end.
    destruct r2 as [[]|e].
    + rewrite (bind_ok _ _ _ _ _ Hq). reflexivity.
    + rewrite (bind_raise _ _ _ _ _ Hq). reflexivity.
  - unfold outcome, full_compare.
    rewrite (bind_ok _ _ _ _ _ (clear_run _)).
    rewrite (bind_ok _ _ _ _ _ (edit_target_run _ _ _)).
    match goal with
    | |- context [bind (__compare true) _
                    (set_target_property ?t (with_log ?p ?L _))] =>
        destruct (Hpass true r1 es1 t p L H1) as [q Hq]
    end.
    destruct r1 as [[]|e].
    + rewrite (bind_ok _ _ _ _ _ Hq).
      rewrite (bind_ok _ _ _ _ _ (edit_target_run _ _ _)).
      destruct (Hpass false r2 es2
                  (replace "RIGHT" "LEFT"
                     (replace "DATA" "RIGHT" (target_property self)))
                  q es1 H2) as [q' Hq'].
      destruct r2 as [[]|e].
      * rewrite (bind_ok _ _ _ _ _ Hq'). reflexivity.
      * rewrite (bind_raise _ _ _ _ _ Hq'). reflexivity.
    + rewrite (bind_raise _ _ _ _ _ Hq). reflexivity.
Qed.




(* ===================================================================== *)
(** ** Single turns of the loops *)
(* ===================================================================== *)

Lemma existsb_eqb_In (s : string) (l : list string) :
  existsb (String.eqb s) l = true <-> In s l.
Proof.
  rewrite existsb_exists. split.
  - intros (x & Hx & E). apply String.eqb_eq in E. now subst.
  - intros H. exists s. split; [exact H|apply String.eqb_refl].
Qed.

Section dict_turn.
Variables (self : JSONComparator) (item_path key : string).
Variables (val : value) (d rest : list (string * value)).

Local Abbreviation key_path := (item_path ++ "." ++ key)%string.
Local Abbreviation run :=
  (_compare_dicts item_path (VDict ((key, val) :: rest)) (VDict d) self).
Local Abbreviation continue_with es :=
  (_compare_dicts item_path (VDict rest) (VDict d)
     (with_log key_path (log (diff_log self) ++ es) self)).

(** The key is absent on the other side. *)
Lemma dict_turn_missing :
  lookup key d = None -> run = continue_with [MissingProperty key_path].
Proof.
  intros Hl. rewrite compare_dicts_cons.
  unfold bind at 1, compare_dicts_item.
  rewrite (bind_ok _ _ _ _ _ (setup_path_run _ _ _)).
  unfold bind at 1, lift, contains_key. rewrite Hl. reflexivity.
Qed.

(** A dict is expected, something else is found. *)
Lemma dict_turn_not_dict act :
  lookup key d = Some act -> is_dict val = true -> is_dict act = false ->
  run = continue_with [IncorrectType key_path (VDict []) act].
Proof.
  intros Hl Hv Ha. rewrite compare_dicts_cons.
  unfold bind at 1, compare_dicts_item.
  rewrite (bind_ok _ _ _ _ _ (setup_path_run _ _ _)).
  unfold bind at 1, lift, contains_key. rewrite Hl.
  destruct val; try discriminate. cbn [negb].
  unfold bind at 1, getitem_key. rewrite Hl, Ha. reflexivity.
Qed.

(** A list is expected, something else is found. *)
Lemma dict_turn_not_list act :
  lookup key d = Some act -> is_list val = true -> is_list act = false ->
  run = continue_with [IncorrectType key_path (VList []) act].
Proof.
  intros Hl Hv Ha. rewrite compare_dicts_cons.
  unfold bind at 1, compare_dicts_item.
  rewrite (bind_ok _ _ _ _ _ (setup_path_run _ _ _)).
  unfold bind at 1, lift, contains_key. rewrite Hl.
  destruct val; try discriminate. cbn [negb].
  unfold bind at 1, getitem_key. rewrite Hl, Ha. reflexivity.
Qed.

(** A scalar is expected: the turn as a function of the two tests. *)
Lemma dict_turn_scalar act :
  lookup key d = Some act -> scalar val = true ->
  run =
  continue_with
    (if py_neb val act &&
        negb (existsb (String.eqb (normalize_path key_path))
                (properties_to_ignore self))
     then [UnequalValues key_path val act] else []).
Proof.
  intros Hl Hv. rewrite compare_dicts_cons.
  unfold bind at 1, compare_dicts_item.
  rewrite (bind_ok _ _ _ _ _ (setup_path_run _ _ _)).
  unfold bind at 1, lift, contains_key. rewrite Hl. cbn [negb].
  assert (E : forall s : JSONComparator,
             with_log key_path (log (diff_log s) ++ []) s =
             with_log key_path (log (diff_log s)) s)
    by (intros s; now rewrite app_nil_r).
  destruct val; try discriminate;
    unfold bind at 1, getitem_key; rewrite Hl;
    (destruct (py_neb _ act); cbn [andb];
     [unfold bind at 1, __key_to_ignore, bind, get, ret;
      cbn [curr_path diff_log with_log set_diff_log properties_to_ignore];
      destruct (existsb _ (properties_to_ignore self)); cbn [negb];
      [rewrite E|]; reflexivity
     |rewrite E; reflexivity]).
Qed.

End dict_turn.

Section order_turn.
Variables rd rl : value -> string -> value -> M unit.
Variables (self : JSONComparator) (item_path : string).
Variables (l : list value) (idx : nat) (val : value).

Local Abbreviation idx_path :=
  (item_path ++ "." ++ "<array>[" ++ str_of_nat idx ++ "]")%string.
Local Abbreviation turn :=
  (items_order_item rd rl item_path (VList l) (List.length l) idx val self).

(** The first index past the end of the other array. *)
Lemma order_turn_at_end :
  idx = List.length l ->
  turn = (Ok tt, with_log idx_path
                   (log (diff_log self) ++ [MissingArrayItem idx_path val None])
                   self).
Proof.
  intros E. unfold items_order_item.
  rewrite (bind_ok _ _ _ _ _ (setup_path_run _ _ _)).
  rewrite (proj2 (Nat.eqb_eq _ _) E). reflexivity.
Qed.

(** Any later index: the subscript is evaluated and is out of range. *)
Lemma order_turn_past_end :
  List.length l < idx ->
  turn = (Raise IndexError, with_log idx_path (log (diff_log self)) self).
Proof.
  intros Hlt. unfold items_order_item.
  rewrite (bind_ok _ _ _ _ _ (setup_path_run _ _ _)).
  replace (Nat.eqb idx (List.length l)) with false
    by (symmetry; apply Nat.eqb_neq; lia).
  assert (Hn : nth_error l idx = None) by (apply nth_error_None; lia).
  destruct val; unfold bind, lift, getitem_idx; rewrite Hn; reflexivity.
Qed.

(** A scalar at an index that the other array has: the ignore list is not
    consulted. *)
Lemma order_turn_scalar act :
  nth_error l idx = Some act -> scalar val = true ->
  turn = (Ok tt, with_log idx_path
                   (log (diff_log self) ++
                    (if py_neb val act then [UnequalValues idx_path val act]
                     else [])) self).
Proof.
  intros Hn Hv. unfold items_order_item.
  rewrite (bind_ok _ _ _ _ _ (setup_path_run _ _ _)).
  assert (Hlt : idx < List.length l) by (apply nth_error_Some; congruence).
  replace (Nat.eqb idx (List.length l)) with false
    by (symmetry; apply Nat.eqb_neq; lia).
  destruct val; try discriminate;
    unfold bind at 1, lift, getitem_idx; rewrite Hn;
    (destruct (py_neb _ act); [reflexivity|now rewrite app_nil_r]).
Qed.

End order_turn.

(* ===================================================================== *)
(** ** The index-stripping substitution *)
(* ===================================================================== *)

Section strip.

(** Nothing is deleted from a text without a match. *)
Lemma sub_from_match_free s : match_free s = true -> sub_from 0 s = s.
Proof.
  induction s as [|c r IH]; simpl; [reflexivity|].
  intros H. apply andb_prop in H as [Hc Hr].
  destruct (Ascii.eqb c "["%char); simpl in Hc.
  - destruct (last_close r); [discriminate|]. now rewrite IH.
  - now rewrite IH.
Qed.

(** Deleting matches further right does not give an opening bracket a
    closing one. *)
Lemma last_close_sub_from r :
  last_close r = None -> last_close (sub_from 0 r) = None.
Proof.
  induction r as [|c r IH]; simpl; [reflexivity|].
  destruct (is_paren c) eqn:Hp.
  - intros _. destruct (Ascii.eqb c "["%char) eqn:Hb.
    + apply Ascii.eqb_eq in Hb. subst c. discriminate.
    + simpl. now rewrite Hp.
  - destruct (last_close r) eqn:Hr; [discriminate|].
    destruct (Ascii.eqb c "]"%char) eqn:Hc; [discriminate|]. intros _.
    destruct (Ascii.eqb c "["%char); simpl; now rewrite Hp, IH, ?Hc.
Qed.

(** What the substitution returns holds no match. *)
Lemma match_free_sub_from s : forall skip, match_free (sub_from skip s) = true.
Proof.
  induction s as [|c r IH]; intros skip; simpl; [reflexivity|].
  destruct skip as [|k]; [|apply IH].
  destruct (Ascii.eqb c "["%char) eqn:Hb.
  - destruct (last_close r) eqn:Hr; [apply IH|].
    simpl. rewrite Hb, (last_close_sub_from _ Hr), IH. reflexivity.
  - simpl. rewrite Hb, IH. reflexivity.
Qed.

Lemma strip_indices_idempotent path :
  strip_indices (strip_indices path) = strip_indices path.
Proof.
  unfold strip_indices. apply sub_from_match_free, match_free_sub_from.
Qed.

(** The match at an opening bracket that is followed by the index [m], a
    closing bracket and a rest [v] without a reachable closing bracket. *)
Lemma last_close_index m v :
  paren_free m = true -> last_close v = None ->
  last_close (m ++ String "]" v) = Some (String.length m).
Proof.
  intros Hm Hv. induction m as [|c m IH]; simpl.
  - now rewrite Hv.
  - simpl in Hm. apply andb_prop in Hm as [Hc Hm].
    apply negb_true_iff in Hc. now rewrite Hc, (IH Hm).
Qed.

Lemma sub_from_skip_index m v :
  sub_from (S (String.length m)) (m ++ String "]" v) = sub_from 0 v.
Proof. induction m as [|c m IH]; simpl; [reflexivity|exact IH]. Qed.

(** A path with one indexed segment: the bracketed index is deleted, what
    stands before and after it is kept. *)
Lemma strip_indices_one_segment u m v :
  occurs "[" u = false -> paren_free m = true ->
  last_close v = None -> match_free v = true ->
  strip_indices (u ++ String "[" (m ++ String "]" v)) = (u ++ v)%string.
Proof.
  intros Hu Hm Hv Hfree. unfold strip_indices.
  induction u as [|c u IH]; cbn [append sub_from].
  - rewrite Ascii.eqb_refl, (last_close_index m v Hm Hv), sub_from_skip_index.
    now apply sub_from_match_free.
  - cbn [occurs] in Hu. apply orb_false_elim in Hu as [Hc Hu].
    rewrite Ascii.eqb_sym in Hc. rewrite Hc. f_equal. now apply IH.
Qed.

(** [RIGHT.a.<array>[12].b] *)
Lemma strip_indices_one_segment_witness :
  occurs "[" "RIGHT.a.<array>" = false /\ paren_free "12" = true /\
  last_close ".b" = None /\ match_free ".b" = true /\
  strip_indices "RIGHT.a.<array>[12].b" = "RIGHT.a.<array>.b".
Proof.
  repeat (split; [reflexivity|]).
  apply (strip_indices_one_segment "RIGHT.a.<array>" "12" ".b");
    reflexivity.
Defined.

End strip.

(** C8.  The index-stripping substitution is idempotent on every path, but it
    does not keep what lies outside the bracketed segments: the star of the
    pattern is greedy, so on a path with two indexed segments one match runs
    from the first opening bracket to the last closing one and the property
    names in between are deleted with it. *)
Theorem C8_strip_indices_greedy :
  (forall path, strip_indices (strip_indices path) = strip_indices path) /\
  strip_indices "RIGHT.a.<array>[0].b.<array>[1].c" = "RIGHT.a.<array>.c" /\
  normalize_path "RIGHT.a.<array>[0].b.<array>[1].c" = "DATA.a.<array>.c" /\
  strip_indices "RIGHT.a.<array>[0].b" = "RIGHT.a.<array>.b".
Proof.
  split; [exact strip_indices_idempotent|].
  repeat split; reflexivity.
Qed.

(* ===================================================================== *)
(** ** The strategy for arrays *)
(* ===================================================================== *)

(** C1.  With the target property configured for the array, the comparator
    still compares the two arrays of the example position by position: the
    log holds four unequalValues entries instead of one, and swapping the
    rows of the actual array changes it.  The keyed strategy would give the
    single entry, but [__init__] never sets the attribute that selects it. *)
Theorem C1_keyed_strategy_never_selected :
  outcome compare_with_right
    (__init__ expected_rows actual_rows (Some "DATA.<array>.id") None) =
  (Ok tt,
   [UnequalValues "RIGHT.<array>[0].id" (VInt 1) (VInt 2);
    UnequalValues "RIGHT.<array>[0].v" (VStr "a") (VStr "b");
    UnequalValues "RIGHT.<array>[1].id" (VInt 2) (VInt 1);
    UnequalValues "RIGHT.<array>[1].v" (VStr "b") (VStr "x")]) /\
  outcome compare_with_right
    (__init__ expected_rows actual_rows_swapped (Some "DATA.<array>.id") None) =
  (Ok tt, [UnequalValues "RIGHT.<array>[0].v" (VStr "a") (VStr "x")]) /\
  (forall left_ right_ target to_ignore,
      target_key_path (__init__ left_ right_ target to_ignore) = None) /\
  (forall left_ right_ target to_ignore item_path items act_data,
      let self := __init__ left_ right_ target to_ignore in
      _compare_lists item_path (VList items) act_data self =
      __compare_with_items_order_respect
        (fun val path act => _compare_dicts path val act)
        (fun val path act => _compare_lists path val act)
        item_path (VList items) act_data items self) /\
  outcome compare_with_right
    (with_target_key_path
       (__init__ expected_rows actual_rows (Some "DATA.<array>.id") None)) =
  (Ok tt, [UnequalValues "RIGHT.<array[0]>.v" (VStr "a") (VStr "x")]).
Proof.
  split; [vm_compute; reflexivity|].
  split; [vm_compute; reflexivity|].
  split; [reflexivity|].
  split; [|vm_compute; reflexivity].
  intros left_ right_ target to_ignore item_path items act_data self.
  rewrite compare_lists_list. reflexivity.
Qed.

(* ===================================================================== *)
(** ** The positional loop past the end of the actual array *)
(* ===================================================================== *)

Lemma check_array_lengths_returns item_path exp_len act_len self :
  exists self', __check_array_lengths item_path exp_len act_len self
                = (Ok tt, self').
Proof.
  unfold __check_array_lengths.
  rewrite (bind_ok _ _ _ _ _ (setup_path_run _ _ _)).
  destruct (Nat.ltb act_len exp_len);
    [unfold Log.lack_of_array_items; rewrite record_run; now eexists|].
  destruct (Nat.ltb exp_len act_len);
    [unfold Log.exceeding_array_items; rewrite record_run|]; now eexists.
Qed.

(** Once the loop is to pass the second index after the end, it raises. *)
Lemma items_order_loop_raises rd rl item_path l items :
  forall idx self,
    idx <= S (List.length l) ->
    S (List.length l) < idx + List.length items ->
    exists e self',
      for_enumerate (items_order_item rd rl item_path (VList l) (List.length l))
        idx items self = (Raise e, self').
Proof.
  induction items as [|val rest IH]; intros idx self Hle Hlt; simpl in Hlt;
    [lia|].
  rewrite for_enumerate_cons.
  destruct (Nat.eq_dec idx (S (List.length l))) as [E|E].
  - exists IndexError. eexists. apply bind_raise.
    apply order_turn_past_end. lia.
  - destruct (items_order_item rd rl item_path (VList l) (List.length l)
                idx val self) as [[[]|e] self1] eqn:Hturn.
    + rewrite (bind_ok _ _ _ _ _ Hturn). apply IH; lia.
    + exists e, self1. now apply bind_raise.
Qed.

(** An expected array at least two items longer than the actual one: the
    comparison does not return. *)
Lemma compare_lists_two_short_raises item_path exp act self :
  target_key_path self = None ->
  List.length act + 2 <= List.length exp ->
  exists e self',
    _compare_lists item_path (VList exp) (VList act) self = (Raise e, self').
Proof.
  intros Hs Hlen. rewrite compare_lists_list.
  unfold compare_lists_body, bind at 1, get. rewrite Hs.
  unfold __compare_with_items_order_respect, py_len, bind at 1 2, lift at 1 2.
  destruct (check_array_lengths_returns item_path (List.length exp)
              (List.length act) self) as [self1 H1].
  rewrite (bind_ok _ _ _ _ _ H1).
  apply items_order_loop_raises; lia.
Qed.

(** The comparison of [[1,2,3]] with [[1]] does not return. *)
Lemma two_short_raises_witness :
  List.length [VInt 1] + 2 <= List.length [VInt 1; VInt 2; VInt 3] /\
  exists e self',
    _compare_lists "RIGHT" (VList [VInt 1; VInt 2; VInt 3]) (VList [VInt 1])
      (__init__ (VList [VInt 1; VInt 2; VInt 3]) (VList [VInt 1]) None None)
    = (Raise e, self').
Proof.
  split; [simpl; lia|].
  apply (compare_lists_two_short_raises "RIGHT" [VInt 1; VInt 2; VInt 3]
           [VInt 1]); [reflexivity|simpl; lia].
Defined.

(** C2.  An expected array of length 3 against an actual array of length 1:
    the length entry and the entry for index 1 are recorded, then the turn
    for index 2 subscripts the actual array and the comparison ends with an
    IndexError; only the first index past the end is tested for. *)
Theorem C2_second_missing_item_raises :
  outcome compare_with_right
    (__init__ (VList [VInt 1; VInt 2; VInt 3]) (VList [VInt 1]) None None) =
  (Raise IndexError,
   [LackOfArrayItems "RIGHT.<array>" 3 1;
    MissingArrayItem "RIGHT.<array>[1]" (VInt 2) None]) /\
  outcome compare_with_right
    (__init__ (VList [VInt 1; VInt 2]) (VList [VInt 1]) None None) =
  (Ok tt,
   [LackOfArrayItems "RIGHT.<array>" 2 1;
    MissingArrayItem "RIGHT.<array>[1]" (VInt 2) None]).
Proof. split; vm_compute; reflexivity. Qed.

(* ===================================================================== *)
(** ** The dispatch on the root *)
(* ===================================================================== *)

(** C3.  The dispatch is on the root of the left document in both
    directions.  When the right document is the expected one: an expected
    object against an actual array is walked as an array (its keys are taken
    for items); an expected object against an actual scalar root is refused;
    an expected scalar root against an actual object enters the object
    comparison and fails there with another error. *)
Theorem C3_dispatch_on_left_root :
  (forall with_actual self,
      __compare with_actual self =
      let data1 := if with_actual then left_data self else right_data self in
      let data2 := if with_actual then right_data self else left_data self in
      let root_log := if with_actual then "RIGHT" else "LEFT" in
      match left_data self with
      | VDict _ => _compare_dicts root_log data1 data2 self
      | VList _ => _compare_lists root_log data1 data2 self
      | _ => (Raise RuntimeError, self)
      end) /\
  outcome compare_with_left
    (__init__ (VList [VInt 1]) (VDict [("a", VInt 1)]) None None) =
  (Ok tt, [UnequalValues "LEFT.<array>[0]" (VStr "a") (VInt 1)]) /\
  outcome compare_with_left
    (__init__ (VInt 5) (VDict [("a", VInt 1)]) None None) =
  (Raise RuntimeError, []) /\
  outcome compare_with_left
    (__init__ (VDict [("a", VInt 1)]) (VInt 5) None None) =
  (Raise AttributeError, []).
Proof.
  split; [|repeat split; vm_compute; reflexivity].
  intros with_actual self. unfold __compare, bind, get.
  destruct with_actual; destruct (left_data self); reflexivity.
Qed.

(* ===================================================================== *)
(** ** Rewriting the root label of the target property *)
(* ===================================================================== *)

Section replace_twice.
Local Open Scope string_scope.

Lemma replace_from_skip old new k :
  forall s, replace_from old new k s = replace_from old new 0 (str_drop k s).
Proof.
  induction k as [|k IH]; intros [|c r]; simpl; try reflexivity. apply IH.
Qed.

Lemma prefix_app p s : String.prefix p (p ++ s) = true.
Proof.
  induction p as [|c p IH]; simpl.
  - now destruct s.
  - destruct (ascii_dec c c); [exact IH|congruence].
Qed.

Lemma str_drop_app p s : str_drop (String.length p) (p ++ s) = s.
Proof. induction p as [|c p IH]; simpl; [now destruct s|exact IH]. Qed.

Lemma prefix_split p : forall s,
  String.prefix p s = true -> s = p ++ str_drop (String.length p) s.
Proof.
  induction p as [|c p IH]; intros s H; simpl.
  - now destruct s.
  - destruct s as [|a r]; simpl in H; [discriminate|].
    destruct (ascii_dec c a); [|discriminate]. subst. f_equal. now apply IH.
Qed.

Lemma length_app p s :
  String.length (p ++ s) = String.length p + String.length s.
Proof. induction p as [|c p IH]; simpl; [reflexivity|now rewrite IH]. Qed.

(** A text that does not hold [p] has no suffix that holds it. *)
Lemma str_contains_suffix p q s :
  str_contains p (q ++ s) = false -> str_contains p s = false.
Proof.
  induction q as [|x q IH]; intros H; [exact H|].
  apply IH. simpl in H. now apply orb_false_elim in H.
Qed.

Variables (a0 b0 : ascii) (A' B' C : string).
Local Abbreviation A := (String a0 A').
Local Abbreviation B := (String b0 B').
Hypothesis first_of_B_once : occurs b0 B' = false.

(** At an occurrence of a non-empty [old]. *)
Lemma replace_at_prefix o old' new c r :
  let old := String o old' in
  String.prefix old (String c r) = true ->
  replace old new (String c r) =
  new ++ replace old new (str_drop (String.length old) (String c r)).
Proof.
  intros old H. unfold replace. cbn [replace_from]. rewrite H.
  f_equal. rewrite replace_from_skip. f_equal.
  simpl. now rewrite Nat.sub_0_r.
Qed.

Lemma replace_at_occurrence o old' new s :
  let old := String o old' in
  replace old new (old ++ s) = new ++ replace old new s.
Proof.
  intros old.
  etransitivity;
    [exact (replace_at_prefix o old' new o (old' ++ s) (prefix_app old s))|].
  f_equal. f_equal. exact (str_drop_app old s).
Qed.

Lemma replace_off_prefix old new c r :
  String.prefix old (String c r) = false ->
  replace old new (String c r) = String c (replace old new r).
Proof. intros H. unfold replace. cbn [replace_from]. now rewrite H. Qed.

(** A word without the first character of [B] that begins the rewritten
    text began the text already. *)
Lemma prefix_of_replaced w :
  occurs b0 w = false ->
  forall r, String.prefix w (replace A B r) = true -> String.prefix w r = true.
Proof.
  induction w as [|x w IH]; intros Hw r H.
  - now destruct r.
  - simpl in Hw. apply orb_false_elim in Hw as [Hx Hw].
    destruct r as [|c r]; [exact H|].
    destruct (String.prefix A (String c r)) eqn:HA.
    + rewrite (replace_at_prefix _ _ _ _ _ HA) in H. simpl in H.
      destruct (ascii_dec x b0) as [E|]; [|discriminate].
      rewrite E, Ascii.eqb_refl in Hx. discriminate.
    + rewrite (replace_off_prefix _ _ _ _ HA) in H. simpl in H |- *.
      destruct (ascii_dec x c); [|discriminate]. now apply IH.
Qed.

(** Replacing [A] by [B] and then [B] by [C] replaces [A] by [C], in a text
    that does not hold [B]. *)
Lemma replace_replace s :
  str_contains B s = false ->
  replace B C (replace A B s) = replace A C s.
Proof.
  remember (String.length s) as n eqn:Hn.
  revert s Hn. induction n as [n IH] using lt_wf_ind. intros s Hn Hs.
  destruct s as [|c r]; [reflexivity|].
  destruct (String.prefix A (String c r)) eqn:HA.
  - rewrite !(replace_at_prefix _ _ _ _ _ HA).
    set (rest := str_drop (String.length A) (String c r)).
    assert (Hrest : str_contains B rest = false).
    { pose proof (prefix_split _ _ HA) as E. fold rest in E.
      rewrite E in Hs. now apply str_contains_suffix in Hs. }
    assert (Hlen : String.length rest < n).
    { pose proof (f_equal String.length (prefix_split _ _ HA)) as E.
      fold rest in E. rewrite length_app in E.
      subst n. rewrite E. simpl. lia. }
    rewrite (replace_at_occurrence b0 B' C (replace A B rest)
             : replace B C (B ++ replace A B rest) = _).
    f_equal. now apply (IH _ Hlen).
  - rewrite !(replace_off_prefix _ _ _ _ HA).
    assert (Hr : str_contains B r = false)
      by (simpl in Hs; now apply orb_false_elim in Hs).
    assert (HB : String.prefix B (String c (replace A B r)) = false).
    { destruct (String.prefix B (String c (replace A B r))) eqn:E;
        [|reflexivity].
      simpl in E. destruct (ascii_dec b0 c) as [<-|]; [|discriminate].
      apply (prefix_of_replaced _ first_of_B_once) in E.
      simpl in Hs. apply orb_false_elim in Hs as [Hs _].
      destruct (ascii_dec b0 b0); congruence. }
    rewrite (replace_off_prefix _ _ _ _ HB). f_equal.
    apply (IH (String.length r)); [subst n; simpl; lia|reflexivity|exact Hr].
Qed.

(** Replacing [A] by itself changes nothing. *)
Lemma replace_same s : replace A A s = s.
Proof.
  remember (String.length s) as n eqn:Hn.
  revert s Hn. induction n as [n IH] using lt_wf_ind. intros s Hn.
  destruct s as [|c r]; [reflexivity|].
  destruct (String.prefix A (String c r)) eqn:HA.
  - rewrite (replace_at_prefix _ _ _ _ _ HA).
    rewrite (prefix_split _ _ HA) at 2. f_equal.
    apply (IH (String.length (str_drop (String.length A) (String c r))));
      [|reflexivity].
    pose proof (f_equal String.length (prefix_split _ _ HA)) as E.
    rewrite length_app in E. subst n. rewrite E. simpl. lia.
  - rewrite (replace_off_prefix _ _ _ _ HA). f_equal.
    apply (IH (String.length r)); [subst n; simpl; lia|reflexivity].
Qed.

End replace_twice.

(** The two rewritings of an operation undo each other on a target
    property that does not hold the labels it passes through. *)
Lemma rewrite_right_restores t :
  str_contains "RIGHT" t = false ->
  replace "RIGHT" "DATA" (replace "DATA" "RIGHT" t) = t.
Proof.
  intros H.
  etransitivity;
    [exact (replace_replace "D" "R" "ATA" "IGHT" "DATA" eq_refl t H)|].
  exact (replace_same "D" "ATA" t).
Qed.

Lemma rewrite_left_restores t :
  str_contains "LEFT" t = false ->
  replace "LEFT" "DATA" (replace "DATA" "LEFT" t) = t.
Proof.
  intros H.
  etransitivity;
    [exact (replace_replace "D" "L" "ATA" "EFT" "DATA" eq_refl t H)|].
  exact (replace_same "D" "ATA" t).
Qed.

Lemma rewrite_both_restores t :
  str_contains "RIGHT" t = false -> str_contains "LEFT" t = false ->
  replace "LEFT" "DATA"
    (replace "RIGHT" "LEFT" (replace "DATA" "RIGHT" t)) = t.
Proof.
  intros Hr Hl.
  rewrite (replace_replace "D" "R" "ATA" "IGHT" "LEFT" eq_refl t Hr
           : replace "RIGHT" "LEFT" (replace "DATA" "RIGHT" t) = _).
  now apply rewrite_left_restores.
Qed.

(** A pass leaves the target property alone. *)
Lemma compare_keeps_target with_actual self :
  target_key_path self = None ->
  exists r p es, __compare with_actual self = (r, with_log p es self).
Proof.
  intros Hs.
  destruct (compare_appends (left_data self) (right_data self)
              (properties_to_ignore self) with_actual) as (r & es & H).
  destruct (H self eq_refl eq_refl (conj eq_refl Hs)) as [p Hp].
  exists r, p. eexists. exact Hp.
Qed.

(** When no label occurs in the configured target property, an operation
    that returns has restored it. *)
Lemma target_property_restored self :
  target_key_path self = None ->
  (str_contains "RIGHT" (target_property self) = false ->
   fst (compare_with_right self) = Ok tt ->
   target_property (snd (compare_with_right self)) = target_property self) /\
  (str_contains "LEFT" (target_property self) = false ->
   fst (compare_with_left self) = Ok tt ->
   target_property (snd (compare_with_left self)) = target_property self) /\
  (str_contains "RIGHT" (target_property self) = false ->
   str_contains "LEFT" (target_property self) = false ->
   fst (full_compare self) = Ok tt ->
   target_property (snd (full_compare self)) = target_property self).
Proof.
  intros Hs.
  assert (Hpass : forall b s (k : unit -> M unit),
             fst (bind (__compare b) k s) = Ok tt ->
             target_key_path s = None ->
             exists p es,
               bind (__compare b) k s = k tt (with_log p es s)).
  { intros b s k Hok Hk.
    destruct (compare_keeps_target b s Hk) as (r & p & es & Hp).
    destruct r as [[]|e].
    - exists p, es. now apply bind_ok.
    - rewrite (bind_raise _ _ _ _ _ Hp) in Hok. discriminate. }
  split; [|split].
  - intros Hr. unfold compare_with_right.
    rewrite (bind_ok _ _ _ _ _ (clear_run _)).
    rewrite (bind_ok _ _ _ _ _ (edit_target_run _ _ _)).
    intros Hok. destruct (Hpass _ _ _ Hok Hs) as (p & es & ->).
    rewrite edit_target_run. cbn [snd target_property with_log set_diff_log
                                    set_target_property diff_log].
    now apply rewrite_right_restores.
  - intros Hl. unfold compare_with_left.
    rewrite (bind_ok _ _ _ _ _ (clear_run _)).
    rewrite (bind_ok _ _ _ _ _ (edit_target_run _ _ _)).
    intros Hok. destruct (Hpass _ _ _ Hok Hs) as (p & es & ->).
    rewrite edit_target_run. cbn [snd target_property with_log set_diff_log
                                    set_target_property diff_log].
    now apply rewrite_left_restores.
  - intros Hr Hl. unfold full_compare.
    rewrite (bind_ok _ _ _ _ _ (clear_run _)).
    rewrite (bind_ok _ _ _ _ _ (edit_target_run _ _ _)).
    intros Hok. destruct (Hpass _ _ _ Hok Hs) as (p & es & E).
    rewrite E in Hok |- *. clear E.
    rewrite (bind_ok _ _ _ _ _ (edit_target_run _ _ _)) in Hok |- *.
    destruct (Hpass _ _ _ Hok Hs) as (p' & es' & ->).
    rewrite edit_target_run. cbn [snd target_property with_log set_diff_log
                                    set_target_property diff_log].
    now apply rewrite_both_restores.
Qed.

(** The target property of the docstring is restored. *)
Lemma target_property_restored_witness :
  str_contains "RIGHT" (target_property cats) = false /\
  str_contains "LEFT" (target_property cats) = false /\
  target_property (snd (compare_with_right cats)) = "DATA.cats.<array>.id" /\
  target_property (snd (compare_with_left cats)) = "DATA.cats.<array>.id" /\
  target_property (snd (full_compare cats)) = "DATA.cats.<array>.id".
Proof.
  split; [reflexivity|]. split; [reflexivity|].
  destruct (target_property_restored cats eq_refl) as (Hr & Hl & Hf).
  split; [exact (Hr eq_refl eq_refl)|].
  split; [exact (Hl eq_refl eq_refl)|exact (Hf eq_refl eq_refl eq_refl)].
Defined.

(** C7.  The rewriting replaces every occurrence of the label, not the root
    only: a target property that names a key RIGHT (or LEFT) comes back
    changed from an operation that returns normally. *)
Theorem C7_target_property_not_restored :
  let doc := VDict [("RIGHT", VList [VDict [("id", VInt 1)]])] in
  let doc' := VDict [("LEFT", VList [VDict [("id", VInt 1)]])] in
  let after c self := (fst (c self), target_property (snd (c self))) in
  target_property (__init__ doc doc (Some "DATA.RIGHT.<array>.id") None) =
    "DATA.RIGHT.<array>.id" /\
  after compare_with_right
    (__init__ doc doc (Some "DATA.RIGHT.<array>.id") None)
    = (Ok tt, "DATA.DATA.<array>.id") /\
  after full_compare (__init__ doc doc (Some "DATA.RIGHT.<array>.id") None)
    = (Ok tt, "DATA.DATA.<array>.id") /\
  after compare_with_left
    (__init__ doc' doc' (Some "DATA.LEFT.<array>.id") None)
    = (Ok tt, "DATA.DATA.<array>.id") /\
  after compare_with_right (__init__ doc doc (Some "DATA.cats.<array>.id") None)
    = (Ok tt, "DATA.cats.<array>.id").
Proof. repeat split; vm_compute; reflexivity. Qed.

(* ===================================================================== *)
(** ** Equality of scalar leaves *)
(* ===================================================================== *)

Lemma py_neb_different_types v w :
  scalar v = true -> scalar w = true -> type_of v <> type_of w ->
  py_neb v w = negb (bool_beside_its_number v w).
Proof.
  unfold py_neb.
  destruct v, w; simpl; intros Hv Hw Ht;
    try discriminate; try congruence; try reflexivity.
  now rewrite Z.eqb_sym.
Qed.

(** C9 (as stated) fails: [true] and [1] are scalar leaves of different JSON
    types, no path is ignored, and nothing is recorded for them, under an
    object key or at an array index. *)
Lemma C9_true_equals_one :
  scalar (VBool true) = true /\ scalar (VInt 1) = true /\
  type_of (VBool true) <> type_of (VInt 1) /\
  outcome compare_with_right
    (__init__ (VDict [("a", VBool true)]) (VDict [("a", VInt 1)]) None None) =
  (Ok tt, []) /\
  outcome compare_with_right
    (__init__ (VList [VBool true]) (VList [VInt 1]) None None) = (Ok tt, []).
Proof.
  repeat split; try reflexivity. discriminate.
Qed.

(** C9 (amended).  Scalar leaves are compared with Python's [!=].  Two
    scalar leaves of different JSON types are unequal, and an unequalValues
    entry is recorded for them (in the object loop unless the path is
    ignored, in the positional loop always), except a boolean beside the
    number 1 (for true) or 0 (for false): these are equal and nothing is
    recorded.  A number and a string are always unequal. *)
Theorem C9_scalars_of_different_types :
  forall v w : value,
    scalar v = true -> scalar w = true -> type_of v <> type_of w ->
    py_neb v w = negb (bool_beside_its_number v w) /\
    (type_of v = TString \/ type_of w = TString \/
     type_of v = TNull \/ type_of w = TNull -> py_neb v w = true) /\
    (forall self item_path key d rest,
        let path := (item_path ++ "." ++ key)%string in
        lookup key d = Some w ->
        _compare_dicts item_path (VDict ((key, v) :: rest)) (VDict d) self =
        _compare_dicts item_path (VDict rest) (VDict d)
          (with_log path
             (log (diff_log self) ++
              (if negb (bool_beside_its_number v w) &&
                  negb (existsb (String.eqb (normalize_path path))
                          (properties_to_ignore self))
               then [UnequalValues path v w] else [])) self)) /\
    (forall rd rl self item_path l idx,
        let path :=
          (item_path ++ "." ++ "<array>[" ++ str_of_nat idx ++ "]")%string in
        nth_error l idx = Some w ->
        items_order_item rd rl item_path (VList l) (List.length l) idx v self
        = (Ok tt,
           with_log path
             (log (diff_log self) ++
              (if negb (bool_beside_its_number v w)
               then [UnequalValues path v w] else [])) self)).
Proof.
  intros v w Hv Hw Ht.
  pose proof (py_neb_different_types v w Hv Hw Ht) as Hne.
  split; [exact Hne|]. split; [|split].
  - rewrite Hne. destruct v, w; simpl in *; try reflexivity;
      intros [H|[H|[H|H]]]; discriminate.
  - intros self item_path key d rest path Hl.
    pose proof (dict_turn_scalar self item_path key v d rest w Hl Hv) as H.
    cbv zeta in H. rewrite Hne in H. exact H.
  - intros rd rl self item_path l idx path Hn.
    pose proof (order_turn_scalar rd rl self item_path l idx v w Hn Hv) as H.
    cbv zeta in H. rewrite Hne in H. exact H.
Qed.

(** C9 (amended) at a number and the numerically equal string. *)
Lemma C9_number_and_string_witness :
  scalar (VInt 1) = true /\ scalar (VStr "1") = true /\
  type_of (VInt 1) <> type_of (VStr "1") /\
  py_neb (VInt 1) (VStr "1") = true /\
  _compare_dicts "RIGHT" (VDict [("a", VInt 1)]) (VDict [("a", VStr "1")])
    one_against_text =
  _compare_dicts "RIGHT" (VDict []) (VDict [("a", VStr "1")])
    (with_log "RIGHT.a"
       (log (diff_log one_against_text) ++
        [UnequalValues "RIGHT.a" (VInt 1) (VStr "1")]) one_against_text) /\
  outcome compare_with_right one_against_text =
  (Ok tt, [UnequalValues "RIGHT.a" (VInt 1) (VStr "1")]).
Proof.
  assert (Ht : type_of (VInt 1) <> type_of (VStr "1")) by discriminate.
  split; [reflexivity|]. split; [reflexivity|]. split; [exact Ht|].
  split.
  { apply (C9_scalars_of_different_types (VInt 1) (VStr "1") eq_refl eq_refl
             Ht).
    right. left. reflexivity. }
  split; [|reflexivity].
  apply (C9_scalars_of_different_types (VInt 1) (VStr "1") eq_refl eq_refl
           Ht).
  reflexivity.
Defined.

(* ===================================================================== *)
(** ** The scan of the keyed strategy *)
(* ===================================================================== *)

Section keyed_scan.
Variables (prop : string) (prop_val : value).

Lemma py_eqb_None x : py_eqb VNone x = true <-> x = VNone.
Proof. destruct x; simpl; split; congruence. Qed.

Lemma dict_get_object obj :
  is_dict obj = true -> dict_get obj prop = Ok (identifying_value prop obj).
Proof. destruct obj; try discriminate. reflexivity. Qed.

(** The scan over objects, counting from [k]. *)
Lemma scan_objects objs :
  Forall (fun obj => is_dict obj = true) objs ->
  forall k,
    (exists i, scan_similar_row prop prop_val k objs = Ok (Some (k + i)) /\
               first_similar prop prop_val objs i) \/
    (scan_similar_row prop prop_val k objs = Ok None /\
     forall obj, In obj objs -> similar prop prop_val obj = false).
Proof.
  induction 1 as [|obj rest Hobj Hrest IH]; intros k; simpl.
  - right. split; [reflexivity|]. intros obj [].
  - rewrite (dict_get_object obj Hobj).
    destruct (py_eqb (identifying_value prop obj) prop_val) eqn:E.
    + left. exists 0. rewrite Nat.add_0_r. split; [reflexivity|]. split.
      * exists obj. now split.
      * intros j o Hj. lia.
    + destruct (IH (S k)) as [(i & Hscan & (o & Hn & Hs) & Hfirst)|[Hscan Hno]].
      * left. exists (S i). rewrite Nat.add_succ_r. split; [exact Hscan|].
        split; [exists o; now split|].
        intros [|j] o' Hj Hn'; simpl in Hn'.
        -- inversion Hn'; subst. exact E.
        -- apply (Hfirst j); [lia|exact Hn'].
      * right. split; [exact Hscan|].
        intros o [<-|Hin]; [exact E|now apply Hno].
Qed.

Lemma first_similar_unique objs i j :
  first_similar prop prop_val objs i -> first_similar prop prop_val objs j ->
  i = j.
Proof.
  intros [(oi & Hi & Si) Fi] [(oj & Hj & Sj) Fj].
  destruct (Nat.lt_trichotomy i j) as [Hlt|[Heq|Hgt]]; [|exact Heq|].
  - specialize (Fj i oi Hlt Hi). congruence.
  - specialize (Fi j oj Hgt Hj). congruence.
Qed.

End keyed_scan.

Lemma similar_None prop obj :
  is_dict obj = true -> similar prop VNone obj = null_or_absent prop obj.
Proof.
  destruct obj as [| | | | | |d]; try discriminate. intros _.
  unfold similar, identifying_value, null_or_absent.
  destruct (lookup prop d) as [[]|]; reflexivity.
Qed.

(** One turn of the keyed loop on an expected object whose row is found. *)
Lemma keyed_turn_found rd rl self item_path idx dv objs prop prop_val i obj :
  let path :=
    (item_path ++ "." ++ "<array[" ++ str_of_nat idx ++ "]>")%string in
  replace "." "" (removeprefix (strip_indices path) (target_property self))
    = prop ->
  lookup prop dv = Some prop_val ->
  __get_idx_of_similar_row prop prop_val (VList objs) = Ok (Some i) ->
  nth_error objs i = Some obj ->
  nested_obj_prop_item rd rl item_path (VList objs) idx (VDict dv) self =
  rd (VDict dv) path obj (with_log path (log (diff_log self)) self).
Proof.
  intros path Hkey Hl Hscan Hn. unfold nested_obj_prop_item.
  rewrite (bind_ok _ _ _ _ _ (setup_path_run _ _ _)). fold path.
  unfold bind at 1, __get_target_prop_value, bind at 1, get.
  cbn [curr_path diff_log with_log set_diff_log target_property].
  fold path. rewrite Hkey.
  unfold bind at 1, lift at 1, getitem_key. rewrite Hl.
  unfold ret. unfold bind at 1, lift at 1. rewrite Hscan.
  unfold bind at 1, lift at 1, getitem_idx. rewrite Hn.
  reflexivity.
Qed.

(** C10.  In the keyed strategy an actual object that lacks the identifying
    property raises nothing: the scan reads its identifying value as null, so
    it passes over the object unless the expected identifying value is null.
    Over an array of objects the scan returns the first object whose value
    equals the expected one, which, for an expected null, is the first object
    that lacks the property or holds null; the expected object is then
    compared with that object. *)
Theorem C10_keyed_scan_reads_missing_as_null :
  forall (prop : string) (prop_val : value),
    (* the turn of the scan at an object without the property *)
    (forall obj rest k,
        lacks_property prop obj = true ->
        identifying_value prop obj = VNone /\
        (similar prop prop_val obj = true <-> prop_val = VNone) /\
        scan_similar_row prop prop_val k (obj :: rest) =
        match prop_val with
        | VNone => Ok (Some k)
        | _ => scan_similar_row prop prop_val (S k) rest
        end) /\
    (* the scan over an array of objects *)
    (forall objs : list value,
        Forall (fun obj => is_dict obj = true) objs ->
        (exists r,
            __get_idx_of_similar_row prop prop_val (VList objs) = Ok r /\
            match r with
            | Some i => first_similar prop prop_val objs i
            | None =>
                forall obj, In obj objs -> similar prop prop_val obj = false
            end) /\
        (forall i,
            prop_val = VNone ->
            (exists obj, nth_error objs i = Some obj /\
                         null_or_absent prop obj = true) ->
            (forall j obj, j < i -> nth_error objs j = Some obj ->
                           null_or_absent prop obj = false) ->
            __get_idx_of_similar_row prop prop_val (VList objs)
            = Ok (Some i)) /\
        (forall rd rl self item_path idx dv i obj,
            let path :=
              (item_path ++ "." ++ "<array[" ++ str_of_nat idx ++ "]>")%string
            in
            replace "." ""
              (removeprefix (strip_indices path) (target_property self))
              = prop ->
            lookup prop dv = Some prop_val ->
            first_similar prop prop_val objs i ->
            nth_error objs i = Some obj ->
            nested_obj_prop_item rd rl item_path (VList objs) idx (VDict dv)
              self
            = rd (VDict dv) path obj
                (with_log path (log (diff_log self)) self))).
Proof.
  intros prop prop_val. split.
  { intros obj rest k Hlack. destruct obj as [| | | | | |d]; try discriminate.
    unfold similar, identifying_value. simpl in Hlack |- *.
    destruct (lookup prop d); [discriminate|].
    split; [reflexivity|]. split; [apply py_eqb_None|].
    destruct prop_val; reflexivity. }
  intros objs Hobjs.
  assert (Hscan : forall i, first_similar prop prop_val objs i ->
            __get_idx_of_similar_row prop prop_val (VList objs) = Ok (Some i)).
  { intros i Hi. unfold __get_idx_of_similar_row, py_iter.
    destruct (scan_objects prop prop_val objs Hobjs 0)
      as [(i' & Hs & Hi')|[_ Hno]].
    - now rewrite Hs, (first_similar_unique _ _ _ _ _ Hi Hi').
    - destruct Hi as [(obj & Hn & Hsim) _].
      apply nth_error_In in Hn. rewrite (Hno obj Hn) in Hsim. discriminate. }
  split; [|split].
  - unfold __get_idx_of_similar_row, py_iter.
    destruct (scan_objects prop prop_val objs Hobjs 0)
      as [(i & Hs & Hi)|[Hs Hno]]; rewrite Hs; eexists; split;
      try reflexivity; assumption.
  - intros i -> (obj & Hn & Hnull) Hfirst. apply Hscan. split.
    + exists obj. split; [exact Hn|].
      rewrite similar_None; [exact Hnull|].
      rewrite Forall_forall in Hobjs. apply Hobjs.
      now apply nth_error_In in Hn.
    + intros j o Hj Hnj. rewrite similar_None; [now apply (Hfirst j)|].
      rewrite Forall_forall in Hobjs. apply Hobjs.
      now apply nth_error_In in Hnj.
  - intros rd rl self item_path idx dv i obj path Hkey Hl Hi Hn.
    apply (keyed_turn_found rd rl self item_path idx dv objs prop prop_val i);
      auto.
Qed.

(** C10 at an array whose second object lacks the property and whose third
    holds null. *)
Lemma C10_keyed_scan_witness :
  Forall (fun obj => is_dict obj = true) rows /\
  __get_idx_of_similar_row "id" VNone (VList rows) = Ok (Some 1) /\
  __get_idx_of_similar_row "id" (VInt 7) (VList rows) = Ok None /\
  scan_similar_row "id" (VInt 7) 1 (VDict [("v", VInt 1)] :: [VInt 0]) =
  scan_similar_row "id" (VInt 7) 2 [VInt 0].
Proof.
  assert (Hrows : Forall (fun obj => is_dict obj = true) rows)
    by (repeat constructor).
  split; [exact Hrows|]. split; [|split; [reflexivity|]].
  - apply (proj2 (C10_keyed_scan_reads_missing_as_null "id" VNone) rows Hrows).
    + reflexivity.
    + exists (VDict [("v", VInt 1)]). split; reflexivity.
    + intros [|j] obj Hj Hn; [|lia]. inversion Hn. reflexivity.
  - apply (proj1 (C10_keyed_scan_reads_missing_as_null "id" (VInt 7))
             (VDict [("v", VInt 1)]) [VInt 0] 1 eq_refl).
Defined.

(* ##################################################################### *)
(** * Further properties of the engine *)
(* ##################################################################### *)

(* ===================================================================== *)
(** ** A calculus for what a run emits *)
(* ===================================================================== *)

Section emits_rules.
Variable cfg : JSONComparator -> Prop.
Hypothesis cfg_blind : blind_to_log cfg.

Lemma emits_of path c Q : emits cfg c Q -> emits_at cfg path c Q.
Proof. intros H self Hc _. now apply H. Qed.

Lemma emits_weaken c (Q Q' : result unit -> list diff_entry -> Prop) :
  (forall r es, Q r es -> Q' r es) -> emits cfg c Q -> emits cfg c Q'.
Proof.
  intros HQ H self Hc. destruct (H self Hc) as (r & p & es & E & HQr).
  exists r, p, es. split; [exact E|now apply HQ].
Qed.

Lemma emits_at_weaken path c (Q Q' : result unit -> list diff_entry -> Prop) :
  (forall r es, Q r es -> Q' r es) ->
  emits_at cfg path c Q -> emits_at cfg path c Q'.
Proof.
  intros HQ H self Hc Hp. destruct (H self Hc Hp) as (r & p & es & E & HQr).
  exists r, p, es. split; [exact E|now apply HQ].
Qed.

Lemma emits_ret (Q : result unit -> list diff_entry -> Prop) :
  Q (Ok tt) [] -> emits cfg (ret tt) Q.
Proof.
  intros HQ self _. exists (Ok tt), (curr_path (diff_log self)), [].
  now rewrite app_nil_r, with_log_same.
Qed.

Lemma emits_raise e (Q : result unit -> list diff_entry -> Prop) :
  Q (Raise e) [] -> emits cfg (raise e) Q.
Proof.
  intros HQ self _. exists (Raise e), (curr_path (diff_log self)), [].
  now rewrite app_nil_r, with_log_same.
Qed.

Lemma emits_record path entry (Q : result unit -> list diff_entry -> Prop) :
  Q (Ok tt) [entry path] -> emits_at cfg path (Log.record entry) Q.
Proof.
  intros HQ self _ Hp. exists (Ok tt), path, [entry path].
  now rewrite record_run, Hp.
Qed.

(** Sequencing: what [k] emits comes after what [c] emitted, when [c]
    returned. *)
Lemma emits_bind c k (Q1 Q : result unit -> list diff_entry -> Prop) :
  emits cfg c Q1 ->
  (forall e es1, Q1 (Raise e) es1 -> Q (Raise e) es1) ->
  (forall es1, Q1 (Ok tt) es1 ->
               emits cfg k (fun r es2 => Q r (es1 ++ es2))) ->
  emits cfg (c ;; k) Q.
Proof.
  intros Hc Hraise Hk self Hs.
  destruct (Hc self Hs) as (r1 & p & es1 & E & H1).
  destruct r1 as [[]|e].
  - rewrite (bind_ok _ _ _ _ _ E).
    destruct (Hk es1 H1 _ (cfg_blind p (log (diff_log self) ++ es1) self Hs))
      as (r & q & es2 & E2 & H2).
    exists r, q, (es1 ++ es2). split; [|exact H2].
    rewrite E2, app_assoc. reflexivity.
  - rewrite (bind_raise _ _ _ _ _ E). exists (Raise e), p, es1.
    split; [reflexivity|now apply Hraise].
Qed.

Lemma emits_setup_path item_path seg k Q :
  emits_at cfg (item_path ++ "." ++ seg) k Q ->
  emits cfg (Log.setup_path item_path seg ;; k) Q.
Proof.
  intros H self Hs.
  rewrite (bind_ok _ _ _ _ _ (setup_path_run _ _ _)).
  destruct (H (with_log (item_path ++ "." ++ seg) (log (diff_log self)) self)
              (cfg_blind _ _ self Hs) eq_refl) as (r & p & es & E & HQ).
  exists r, p, es. split; [exact E|exact HQ].
Qed.

Lemma emits_lift {A} path (r0 : result A) (k : A -> M unit)
  (Q : result unit -> list diff_entry -> Prop) :
  (forall e, r0 = Raise e -> Q (Raise e) []) ->
  (forall a, r0 = Ok a -> emits_at cfg path (k a) Q) ->
  emits_at cfg path (x <- lift r0 ;; k x) Q.
Proof.
  intros He Hk. destruct r0 as [a|e].
  - exact (Hk a eq_refl).
  - intros self _ Hp. exists (Raise e), path, [].
    split; [|now apply He].
    unfold bind, lift. now rewrite app_nil_r, <- Hp, with_log_same.
Qed.

Lemma emits_lift_any {A} (r0 : result A) (k : A -> M unit)
  (Q : result unit -> list diff_entry -> Prop) :
  (forall e, r0 = Raise e -> Q (Raise e) []) ->
  (forall a, r0 = Ok a -> emits cfg (k a) Q) ->
  emits cfg (x <- lift r0 ;; k x) Q.
Proof.
  intros He Hk. destruct r0 as [a|e].
  - exact (Hk a eq_refl).
  - apply emits_raise. now apply He.
Qed.

Lemma emits_get_curr_path path (k : string -> M unit) Q :
  emits_at cfg path (k path) Q ->
  emits_at cfg path (p <- Log.get_curr_path ;; k p) Q.
Proof.
  intros H self Hs Hp.
  unfold bind at 1, Log.get_curr_path, bind, get, ret. rewrite Hp.
  now apply H.
Qed.

(** The ignore test, when nothing is known of the list. *)
Lemma emits_key_to_ignore_any path (k : bool -> M unit) Q :
  (forall b, emits_at cfg path (k b) Q) ->
  emits_at cfg path (ignored <- __key_to_ignore ;; k ignored) Q.
Proof.
  intros H self Hs Hp.
  unfold bind at 1, __key_to_ignore, bind, get, ret. now apply H.
Qed.

(** The ignore test, when the list is known. *)
Lemma emits_key_to_ignore to_ignore path (k : bool -> M unit) Q :
  (forall self, cfg self -> properties_to_ignore self = to_ignore) ->
  emits_at cfg path
    (k (existsb (String.eqb (normalize_path path)) to_ignore)) Q ->
  emits_at cfg path (ignored <- __key_to_ignore ;; k ignored) Q.
Proof.
  intros Hig H self Hs Hp.
  unfold bind at 1, __key_to_ignore, bind, get, ret.
  rewrite Hp, (Hig self Hs). now apply H.
Qed.

Lemma emits_get_target_prop_value path object_
  (k : string * value -> M unit) (Q : result unit -> list diff_entry -> Prop) :
  (forall e, Q (Raise e) []) ->
  (forall x, emits_at cfg path (k x) Q) ->
  emits_at cfg path (x <- __get_target_prop_value object_ ;; k x) Q.
Proof.
  intros He Hk self Hs Hp.
  unfold bind at 1, __get_target_prop_value, bind at 1, get.
  unfold bind at 1, lift.
  destruct (getitem_key object_ _) as [a|e].
  - unfold ret. now apply Hk.
  - exists (Raise e), path, []. split; [|apply He].
    now rewrite app_nil_r, <- Hp, with_log_same.
Qed.

(** The strategy is read off [self]. *)
Lemma emits_compare_lists_body rd rl item_path exp_data act_data items Q :
  emits cfg (__compare_with_items_order_respect rd rl item_path exp_data
               act_data items) Q ->
  emits cfg (__compare_with_nested_obj_prop_respect rd rl item_path exp_data
               act_data items) Q ->
  emits cfg (compare_lists_body rd rl item_path exp_data act_data items) Q.
Proof.
  intros Hpos Hkey self Hs. unfold compare_lists_body, bind, get.
  destruct (target_key_path self); [now apply Hkey|now apply Hpos].
Qed.

End emits_rules.

(* ===================================================================== *)
(** ** What the engine never touches, and where it records *)
(* ===================================================================== *)

Section rooted.
Local Open Scope string_scope.

Lemma append_assoc (a b c : string) : (a ++ b) ++ c = a ++ (b ++ c).
Proof. induction a as [|x a IH]; simpl; [reflexivity|now rewrite IH]. Qed.

Lemma prefix_trans a : forall b c,
  String.prefix a b = true -> String.prefix b c = true ->
  String.prefix a c = true.
Proof.
  induction a as [|x a IH]; intros b c Hab Hbc; [now destruct c|].
  destruct b as [|y b]; [discriminate|].
  destruct c as [|z c]; [discriminate|].
  simpl in *.
  destruct (ascii_dec x y); [subst y|discriminate].
  destruct (ascii_dec x z); [|discriminate]. now apply (IH b c).
Qed.

(** What is recorded at a cursor below [root] lies below [root]. *)
Lemma rooted_here root seg e :
  entry_path e = root ++ "." ++ seg -> rooted_at root e.
Proof.
  intros E. unfold rooted_at. rewrite E, <- append_assoc. apply prefix_app.
Qed.

(** What lies below a child of [root] lies below [root]. *)
Lemma rooted_child root seg e :
  rooted_at (root ++ "." ++ seg) e -> rooted_at root e.
Proof.
  unfold rooted_at. intros H.
  apply (prefix_trans _ ((root ++ "." ++ seg) ++ ".")); [|exact H].
  rewrite <- append_assoc, append_assoc. apply prefix_app.
Qed.

End rooted.

Section rooted_runs.
Variable cfg : JSONComparator -> Prop.
Hypothesis cfg_blind : blind_to_log cfg.

(** Whatever a run below [root] emits lies below [root]. *)
Local Abbreviation below root :=
  (fun (_ : result unit) (es : list diff_entry) => Forall (rooted_at root) es).

Lemma below_seq root c k :
  emits cfg c (below root) -> emits cfg k (below root) ->
  emits cfg (c ;; k) (below root).
Proof.
  intros Hc Hk. apply (emits_bind cfg cfg_blind c k (below root)).
  - exact Hc.
  - auto.
  - intros es1 H1. apply (emits_weaken cfg k (below root)); [|exact Hk].
    intros r es2 H2. apply Forall_app. now split.
Qed.

Lemma below_record root seg entry :
  (forall p, entry_path (entry p) = p) ->
  emits_at cfg (root ++ "." ++ seg) (Log.record entry) (below root).
Proof.
  intros Hp. apply emits_record. constructor; [|constructor].
  apply (rooted_here root seg). apply Hp.
Qed.

Lemma below_child root seg c :
  emits cfg c (below (root ++ "." ++ seg)) ->
  emits_at cfg (root ++ "." ++ seg) c (below root).
Proof.
  intros H. apply emits_of, (emits_weaken cfg c (below (root ++ "." ++ seg)));
    [|exact H].
  intros r es Hes. eapply Forall_impl; [|exact Hes].
  intros e. apply rooted_child.
Qed.

Lemma below_done root path : emits_at cfg path (ret tt) (below root).
Proof. apply emits_of, emits_ret. constructor. Qed.

Ltac below_leaf :=
  first [ apply below_record; reflexivity
        | apply below_done
        | apply below_child; auto ].

Lemma below_dicts_item rd rl item_path act_data key val :
  (forall path act, emits cfg (rd val path act) (below path)) ->
  (forall path act, emits cfg (rl val path act) (below path)) ->
  emits cfg (compare_dicts_item rd rl item_path act_data key val)
    (below item_path).
Proof.
  intros Hd Hl. unfold compare_dicts_item.
  apply emits_setup_path, emits_lift; [exact cfg_blind|constructor|].
  intros present _. destruct present; cbn [negb]; [|below_leaf].
  destruct val; (apply emits_lift; [constructor|]); intros act _;
    try (destruct (py_neb _ act); [|below_leaf];
         apply emits_key_to_ignore_any; intros []; cbn [negb]; below_leaf).
  - destruct (is_list act); [|below_leaf].
    apply emits_get_curr_path. below_leaf.
  - destruct (is_dict act); [|below_leaf].
    apply emits_get_curr_path. below_leaf.
Qed.

Lemma below_items_order_item rd rl item_path act_data act_len idx val :
  (forall path act, emits cfg (rd val path act) (below path)) ->
  (forall path act, emits cfg (rl val path act) (below path)) ->
  emits cfg (items_order_item rd rl item_path act_data act_len idx val)
    (below item_path).
Proof.
  intros Hd Hl. unfold items_order_item.
  apply emits_setup_path; [exact cfg_blind|].
  destruct (Nat.eqb idx act_len); [below_leaf|].
  destruct val; (apply emits_lift; [constructor|]); intros act _;
    try (destruct (py_neb _ act); below_leaf).
  - destruct (is_list act); [|below_leaf].
    apply emits_get_curr_path. below_leaf.
  - destruct (is_dict act); [|below_leaf].
    apply emits_get_curr_path. below_leaf.
Qed.

Lemma below_nested_obj_prop_item rd rl item_path act_data idx val :
  (forall path act, emits cfg (rd val path act) (below path)) ->
  (forall path act, emits cfg (rl val path act) (below path)) ->
  emits cfg (nested_obj_prop_item rd rl item_path act_data idx val)
    (below item_path).
Proof.
  intros Hd Hl. unfold nested_obj_prop_item.
  apply emits_setup_path; [exact cfg_blind|].
  destruct val;
    try (apply emits_lift; [constructor|]; intros act _;
         destruct (py_neb _ act); below_leaf).
  - apply emits_lift; [constructor|]. intros act _.
    destruct (is_list act); [|below_leaf].
    apply emits_get_curr_path. below_leaf.
  - apply emits_get_target_prop_value; [constructor|].
    intros [target_prop target_prop_val].
    apply emits_lift; [constructor|]. intros [i|] _; [|below_leaf].
    apply emits_lift; [constructor|]. intros act _.
    apply emits_get_curr_path. below_leaf.
Qed.

Lemma below_check_array_lengths item_path exp_len act_len :
  emits cfg (__check_array_lengths item_path exp_len act_len)
    (below item_path).
Proof.
  unfold __check_array_lengths. apply emits_setup_path; [exact cfg_blind|].
  destruct (Nat.ltb act_len exp_len); [below_leaf|].
  destruct (Nat.ltb exp_len act_len); below_leaf.
Qed.

Lemma below_for_enumerate root body items :
  (forall idx val, In val items -> emits cfg (body idx val) (below root)) ->
  forall idx, emits cfg (for_enumerate body idx items) (below root).
Proof.
  induction items as [|val rest IH]; intros Hb idx;
    [apply emits_ret; constructor|].
  rewrite for_enumerate_cons. apply below_seq.
  - apply Hb. now left.
  - apply IH. intros i v Hv. apply Hb. now right.
Qed.

Lemma below_compare_lists_body rd rl item_path exp_data act_data items :
  (forall val path act, In val items ->
                        emits cfg (rd val path act) (below path)) ->
  (forall val path act, In val items ->
                        emits cfg (rl val path act) (below path)) ->
  emits cfg (compare_lists_body rd rl item_path exp_data act_data items)
    (below item_path).
Proof.
  intros Hd Hl. apply emits_compare_lists_body.
  - unfold __compare_with_items_order_respect.
    apply emits_lift_any; [constructor|]. intros exp_len _.
    apply emits_lift_any; [constructor|]. intros act_len _.
    apply below_seq; [apply below_check_array_lengths|].
    apply below_for_enumerate. intros idx val Hin.
    apply below_items_order_item; intros; [now apply Hd|now apply Hl].
  - unfold __compare_with_nested_obj_prop_respect.
    apply emits_lift_any; [constructor|]. intros exp_len _.
    apply emits_lift_any; [constructor|]. intros act_len _.
    apply below_seq; [apply below_check_array_lengths|].
    apply below_for_enumerate. intros idx val Hin.
    apply below_nested_obj_prop_item; intros; [now apply Hd|now apply Hl].
Qed.

(** Both recursive methods, in either strategy. *)
Lemma below_compare exp_data :
  (forall path act, emits cfg (_compare_dicts path exp_data act) (below path))
  /\
  (forall path act, emits cfg (_compare_lists path exp_data act) (below path)).
Proof.
  induction exp_data as [| | | | |l IH|d IH] using value_nested_ind;
    split; intros path act;
    try (apply emits_raise; constructor);
    try (apply below_compare_lists_body; intros; apply emits_ret;
         constructor).
  - rewrite compare_lists_list. rewrite Forall_forall in IH.
    apply below_compare_lists_body; intros val p a Hin;
      now apply (IH val Hin).
  - induction d as [|[key val] rest IHr];
      [rewrite compare_dicts_nil; apply emits_ret; constructor|].
    rewrite compare_dicts_cons. inversion IH as [|? ? Hval Hrest]; subst.
    apply below_seq; [|now apply IHr].
    apply below_dicts_item; intros; now apply Hval.
Qed.

End rooted_runs.

Lemma any_comparator_blind : blind_to_log any_comparator.
Proof. intros p es self _. exact I. Qed.

(** The engine, in either strategy and on any two values, changes nothing of
    the comparator but the cursor and the end of the log, and every entry it
    appends has a path that extends the path it was called with. *)
Theorem engine_appends_below_its_path :
  forall (exp_data act_data : value) (item_path : string)
         (self : JSONComparator),
    (exists r p es,
        _compare_dicts item_path exp_data act_data self =
        (r, with_log p (log (diff_log self) ++ es) self) /\
        Forall (rooted_at item_path) es) /\
    (exists r p es,
        _compare_lists item_path exp_data act_data self =
        (r, with_log p (log (diff_log self) ++ es) self) /\
        Forall (rooted_at item_path) es).
Proof.
  intros exp_data act_data item_path self.
  destruct (below_compare any_comparator any_comparator_blind exp_data)
    as [Hd Hl].
  split; [apply (Hd item_path act_data self I)
         |apply (Hl item_path act_data self I)].
Qed.

(** A pass records below the label of its direction. *)
Lemma compare_below_root with_actual self :
  exists r p es,
    __compare with_actual self =
    (r, with_log p (log (diff_log self) ++ es) self) /\
    Forall (rooted_at (if with_actual then "RIGHT" else "LEFT")) es.
Proof.
  destruct (below_compare any_comparator any_comparator_blind
              (if with_actual then left_data self else right_data self))
    as [Hd Hl].
  unfold __compare, bind, get.
  destruct (left_data self) eqn:E; destruct with_actual;
    try (exists (Raise RuntimeError), (curr_path (diff_log self)), [];
         split; [|constructor];
         now rewrite app_nil_r, with_log_same);
    first [apply (Hd _ _ self I)|apply (Hl _ _ self I)].
Qed.

(** Whatever the comparator holds and however the operation ends, a public
    operation leaves the two documents, the ignore list and the strategy
    attribute as they were, and the log it leaves holds only paths below
    RIGHT (after [compare_with_right]), below LEFT (after
    [compare_with_left]), or the former followed by the latter (after
    [full_compare]). *)
Theorem public_operations_keep_inputs :
  forall self : JSONComparator,
    (same_inputs self (snd (compare_with_right self)) /\
     Forall (rooted_at "RIGHT")
       (log (diff_log (snd (compare_with_right self))))) /\
    (same_inputs self (snd (compare_with_left self)) /\
     Forall (rooted_at "LEFT")
       (log (diff_log (snd (compare_with_left self))))) /\
    (same_inputs self (snd (full_compare self)) /\
     exists es1 es2,
       log (diff_log (snd (full_compare self))) = es1 ++ es2 /\
       Forall (rooted_at "RIGHT") es1 /\ Forall (rooted_at "LEFT") es2).
Proof.
  intros self.
  assert (Hpass : forall (b : bool) s (k : unit -> M unit),
             exists (r : result unit) p es,
               Forall (rooted_at (if b then "RIGHT" else "LEFT")) es /\
               bind (__compare b) k s =
               match r with
               | Ok _ => k tt (with_log p (log (diff_log s) ++ es) s)
               | Raise e =>
                   (Raise e, with_log p (log (diff_log s) ++ es) s)
               end).
  { intros b s k. destruct (compare_below_root b s) as (r & p & es & E & H).
    exists r, p, es. split; [exact H|].
    destruct r as [[]|e];
      [now rewrite (bind_ok _ _ _ _ _ E)
      |now rewrite (bind_raise _ _ _ _ _ E)]. }
  split; [|split].
  - unfold compare_with_right.
    rewrite (bind_ok _ _ _ _ _ (clear_run _)).
    rewrite (bind_ok _ _ _ _ _ (edit_target_run _ _ _)).
    match goal with
    | |- context [bind (__compare ?b) ?k ?s] =>
        destruct (Hpass b s k) as (r & p & es & Hes & ->)
    end.
    destruct r as [[]|e]; (split; [repeat split|exact Hes]).
  - unfold compare_with_left.
    rewrite (bind_ok _ _ _ _ _ (clear_run _)).
    rewrite (bind_ok _ _ _ _ _ (edit_target_run _ _ _)).
    match goal with
    | |- context [bind (__compare ?b) ?k ?s] =>
        destruct (Hpass b s k) as (r & p & es & Hes & ->)
    end.
    destruct r as [[]|e]; (split; [repeat split|exact Hes]).
  - unfold full_compare.
    rewrite (bind_ok _ _ _ _ _ (clear_run _)).
    rewrite (bind_ok _ _ _ _ _ (edit_target_run _ _ _)).
    match goal with
    | |- context [bind (__compare ?b) ?k ?s] =>
        destruct (Hpass b s k) as (r & p & es & Hes & ->)
    end.
    destruct r as [[]|e].
    + rewrite (bind_ok _ _ _ _ _ (edit_target_run _ _ _)).
      match goal with
      | |- context [bind (__compare ?b) ?k ?s] =>
          destruct (Hpass b s k) as (r' & p' & es' & Hes' & ->)
      end.
      destruct r' as [[]|e']; (split; [repeat split|]);
        exists es, es'; repeat split; assumption.
    + split; [repeat split|]. exists es, [].
      split; [now rewrite app_nil_r|]. split; [exact Hes|constructor].
Qed.

(** The target property is never read: comparators built on the same
    documents and ignore list with different target properties end the same
    way and leave the same log, in each of the three operations. *)
Theorem target_property_has_no_effect :
  forall (left_ right_ : value) (target target' : option string)
         (to_ignore : option (list string)),
    let self := __init__ left_ right_ target to_ignore in
    let self' := __init__ left_ right_ target' to_ignore in
    outcome compare_with_right self = outcome compare_with_right self' /\
    outcome compare_with_left self = outcome compare_with_left self' /\
    outcome full_compare self = outcome full_compare self'.
Proof.
  intros left_ right_ target target' to_ignore self self'.
  destruct (public_outcomes left_ right_ (properties_to_ignore self))
    as (r1 & es1 & r2 & es2 & H).
  destruct (H self eq_refl eq_refl (conj eq_refl eq_refl)) as (Hr & Hl & Hf).
  destruct (H self' eq_refl eq_refl (conj eq_refl eq_refl))
    as (Hr' & Hl' & Hf').
  rewrite Hr, Hl, Hf, Hr', Hl', Hf'. repeat split.
Qed.

(* ===================================================================== *)
(** ** An empty log means conformance *)
(* ===================================================================== *)

Lemma conforms_dict_cons k v r da :
  conforms (VDict ((k, v) :: r)) (VDict da) =
  match lookup k da with
  | Some a => conforms v a && conforms (VDict r) (VDict da)
  | None => false
  end.
Proof. reflexivity. Qed.

Lemma conforms_list_cons x xs y ys :
  conforms (VList (x :: xs)) (VList (y :: ys)) =
  conforms x y && conforms (VList xs) (VList ys).
Proof. reflexivity. Qed.

Lemma conforms_list_length le : forall la,
  conforms (VList le) (VList la) = true -> List.length le = List.length la.
Proof.
  induction le as [|x xs IH]; intros [|y ys] H; try discriminate;
    [reflexivity|].
  rewrite conforms_list_cons in H. apply andb_prop in H as [_ H].
  simpl. f_equal. now apply IH.
Qed.

Lemma conforms_scalar v a :
  scalar v = true -> conforms v a = py_eqb v a.
Proof. destruct v; try discriminate; reflexivity. Qed.

Lemma skipn_cons_nth {A} (y : A) ys : forall idx l,
  skipn idx l = y :: ys -> nth_error l idx = Some y /\ skipn (S idx) l = ys.
Proof.
  induction idx as [|idx IH]; intros [|x l] H; simpl in H; try discriminate.
  - inversion H. split; reflexivity.
  - now apply IH.
Qed.

Section settling.
Variable to_ignore : list string.

Local Abbreviation cfg := (configured to_ignore).
Local Abbreviation settled b := (settles to_ignore b).
Local Abbreviation anyhow :=
  (fun (_ : result unit) (_ : list diff_entry) => True).

Lemma configured_blind : blind_to_log cfg.
Proof. intros p es self H. exact H. Qed.

Lemma framed_emits c : framed to_ignore c -> emits cfg c anyhow.
Proof.
  intros (r & es & H) self Hs. destruct (H self Hs) as [p E].
  exists r, p, es. now split.
Qed.

Lemma settled_true : settled true (Ok tt) [].
Proof. split; [now split|discriminate]. Qed.

Lemma settled_false r e : settled false r [e].
Proof. split; [discriminate|]. intros _ _. discriminate. Qed.

(** Two questions in sequence: the second run is only looked at when the
    first question holds. *)
Lemma settled_seq b1 b2 c k :
  emits cfg c (settled b1) ->
  (b1 = true -> emits cfg k (settled b2)) ->
  emits cfg k anyhow ->
  emits cfg (c ;; k) (settled (b1 && b2)).
Proof.
  intros Hc Hk Hany.
  apply (emits_bind cfg configured_blind c k (settled b1)); [exact Hc| |].
  - intros e es1 [H1 H2]. destruct b1; cbn [andb].
    + destruct (H1 eq_refl) as [E _]. discriminate.
    + split; [discriminate|exact H2].
  - intros es1 [H1 H2]. destruct b1; cbn [andb].
    + destruct (H1 eq_refl) as [_ ->].
      apply (emits_weaken cfg k (settled b2)); [|now apply Hk].
      intros r es H. exact H.
    + apply (emits_weaken cfg k anyhow); [|exact Hany].
      intros r es2 _. split; [discriminate|].
      intros _ Hig Happ. apply app_eq_nil in Happ as [E _].
      now apply (H2 eq_refl Hig).
Qed.

(** One turn of the object loop. *)
Lemma settled_dicts_item rd rl item_path da key val :
  (is_dict val = true -> forall path a, is_dict a = true ->
     emits cfg (rd val path a) (settled (conforms val a))) ->
  (is_list val = true -> forall path a, is_list a = true ->
     emits cfg (rl val path a) (settled (conforms val a))) ->
  emits cfg (compare_dicts_item rd rl item_path (VDict da) key val)
    (settled match lookup key da with
             | Some a => conforms val a
             | None => false
             end).
Proof.
  intros Hd Hl. unfold compare_dicts_item, contains_key, getitem_key.
  apply emits_setup_path; [exact configured_blind|].
  destruct (lookup key da) as [a|] eqn:L.
  2:{ apply emits_lift; [discriminate|]. intros present E.
      inversion E; subst present. cbn [negb].
      apply emits_record, settled_false. }
  apply emits_lift; [discriminate|]. intros present E.
  inversion E; subst present. cbn [negb]. clear E.
  assert (Hscalar : scalar val = true ->
            emits_at cfg (item_path ++ "." ++ key)
              (if py_neb val a
               then (ignored <- __key_to_ignore ;;
                     if negb ignored then Log.unequal_values val a
                     else ret tt)
               else ret tt)
              (settled (conforms val a))).
  { intros Hv. rewrite (conforms_scalar val a Hv). unfold py_neb.
    destruct (py_eqb val a); cbn [negb];
      [apply emits_of, emits_ret, settled_true|].
    apply (emits_key_to_ignore cfg to_ignore); [now intros self [H _]|].
    destruct (existsb _ to_ignore) eqn:Hex; cbn [negb];
      [|apply emits_record, settled_false].
    apply emits_of, emits_ret. split; [discriminate|].
    intros _ ->. discriminate. }
  destruct val;
    try (apply emits_lift; [discriminate|]; intros act E;
         inversion E; subst act; now apply Hscalar).
  - apply emits_lift; [discriminate|]. intros act E.
    inversion E; subst act. destruct (is_list a) eqn:Ha.
    + apply emits_get_curr_path, emits_of. now apply Hl.
    + replace (conforms (VList l) a) with false
        by (destruct a; try reflexivity; discriminate).
      apply emits_record, settled_false.
  - apply emits_lift; [discriminate|]. intros act E.
    inversion E; subst act. destruct (is_dict a) eqn:Ha.
    + apply emits_get_curr_path, emits_of. now apply Hd.
    + replace (conforms (VDict d) a) with false
        by (destruct a; try reflexivity; discriminate).
      apply emits_record, settled_false.
Qed.

(** One turn of the positional loop at an index that the actual array has. *)
Lemma settled_items_order_item rd rl item_path la idx val a :
  nth_error la idx = Some a ->
  (is_dict val = true -> forall path a, is_dict a = true ->
     emits cfg (rd val path a) (settled (conforms val a))) ->
  (is_list val = true -> forall path a, is_list a = true ->
     emits cfg (rl val path a) (settled (conforms val a))) ->
  emits cfg
    (items_order_item rd rl item_path (VList la) (List.length la) idx val)
    (settled (conforms val a)).
Proof.
  intros Hn Hd Hl. unfold items_order_item, getitem_idx. rewrite Hn.
  apply emits_setup_path; [exact configured_blind|].
  assert (Hlt : idx < List.length la) by (apply nth_error_Some; congruence).
  replace (Nat.eqb idx (List.length la)) with false
    by (symmetry; apply Nat.eqb_neq; lia).
  assert (Hscalar : scalar val = true ->
            emits_at cfg
              (item_path ++ "." ++ "<array>[" ++ str_of_nat idx ++ "]")
              (if py_neb val a then Log.unequal_values val a else ret tt)
              (settled (conforms val a))).
  { intros Hv. rewrite (conforms_scalar val a Hv). unfold py_neb.
    destruct (py_eqb val a); cbn [negb];
      [apply emits_of, emits_ret, settled_true
      |apply emits_record, settled_false]. }
  destruct val;
    try (apply emits_lift; [discriminate|]; intros act E;
         inversion E; subst act; now apply Hscalar).
  - apply emits_lift; [discriminate|]. intros act E.
    inversion E; subst act. destruct (is_list a) eqn:Ha.
    + apply emits_get_curr_path, emits_of. now apply Hl.
    + replace (conforms (VList l) a) with false
        by (destruct a; try reflexivity; discriminate).
      apply emits_record, settled_false.
  - apply emits_lift; [discriminate|]. intros act E.
    inversion E; subst act. destruct (is_dict a) eqn:Ha.
    + apply emits_get_curr_path, emits_of. now apply Hd.
    + replace (conforms (VDict d) a) with false
        by (destruct a; try reflexivity; discriminate).
      apply emits_record, settled_false.
Qed.

(** The length check settles whether the lengths agree. *)
Lemma settled_check_array_lengths item_path exp_len act_len :
  emits cfg (__check_array_lengths item_path exp_len act_len)
    (settled (Nat.eqb exp_len act_len)).
Proof.
  unfold __check_array_lengths.
  apply emits_setup_path; [exact configured_blind|].
  destruct (Nat.ltb act_len exp_len) eqn:H1.
  - apply Nat.ltb_lt in H1.
    replace (Nat.eqb exp_len act_len) with false
      by (symmetry; apply Nat.eqb_neq; lia).
    apply emits_record, settled_false.
  - destruct (Nat.ltb exp_len act_len) eqn:H2.
    + apply Nat.ltb_lt in H2.
      replace (Nat.eqb exp_len act_len) with false
        by (symmetry; apply Nat.eqb_neq; lia).
      apply emits_record, settled_false.
    + apply Nat.ltb_ge in H1, H2.
      replace (Nat.eqb exp_len act_len) with true
        by (symmetry; apply Nat.eqb_eq; lia).
      apply emits_of, emits_ret, settled_true.
Qed.

(** The positional loop over the rest of two arrays of the same length. *)
Lemma settled_items_order_loop rd rl item_path la items :
  Forall (fun val =>
            (is_dict val = true -> forall path a, is_dict a = true ->
               emits cfg (rd val path a) (settled (conforms val a))) /\
            (is_list val = true -> forall path a, is_list a = true ->
               emits cfg (rl val path a) (settled (conforms val a))) /\
            (forall path a, framed to_ignore (rd val path a)) /\
            (forall path a, framed to_ignore (rl val path a))) items ->
  forall idx ys,
    skipn idx la = ys -> List.length items = List.length ys ->
    emits cfg
      (for_enumerate
         (items_order_item rd rl item_path (VList la) (List.length la))
         idx items)
      (settled (conforms (VList items) (VList ys))).
Proof.
  induction 1 as [|val rest (Hd & Hl & Fd & Fl) Hrest IH];
    intros idx [|y ys] Hskip Hlen; try discriminate.
  - apply emits_ret, settled_true.
  - rewrite for_enumerate_cons, conforms_list_cons.
    destruct (skipn_cons_nth y ys idx la Hskip) as [Hn Hskip'].
    apply settled_seq.
    + now apply settled_items_order_item.
    + intros _. apply IH; [exact Hskip'|]. simpl in Hlen. lia.
    + apply framed_emits, framed_for_enumerate. intros i v Hv.
      rewrite Forall_forall in Hrest.
      destruct (Hrest v Hv) as (_ & _ & Fd' & Fl').
      now apply framed_items_order_item.
Qed.

(** Both recursive methods settle conformance, while the keyed strategy is
    off. *)
Lemma settled_compare exp_data :
  (is_dict exp_data = true -> forall path a, is_dict a = true ->
     emits cfg (_compare_dicts path exp_data a)
       (settled (conforms exp_data a))) /\
  (is_list exp_data = true -> forall path a, is_list a = true ->
     emits cfg (_compare_lists path exp_data a)
       (settled (conforms exp_data a))).
Proof.
  induction exp_data as [| | | | |l IH|d IH] using value_nested_ind;
    split; try discriminate; intros _ path a Ha;
    destruct a as [| | | | |la|da]; try discriminate.
  - (* arrays *)
    rewrite compare_lists_list. intros self Hs. revert self Hs.
    assert (Hitems : Forall (fun val =>
              (is_dict val = true -> forall path a, is_dict a = true ->
                 emits cfg (_compare_dicts path val a)
                   (settled (conforms val a))) /\
              (is_list val = true -> forall path a, is_list a = true ->
                 emits cfg (_compare_lists path val a)
                   (settled (conforms val a))) /\
              (forall path a, framed to_ignore (_compare_dicts path val a)) /\
              (forall path a, framed to_ignore (_compare_lists path val a)))
              l).
    { rewrite Forall_forall in IH |- *. intros val Hin.
      destruct (IH val Hin) as [Hd Hl].
      destruct (framed_compare to_ignore val) as [Fd Fl]. auto. }
    assert (Hpos : emits cfg
              (__compare_with_items_order_respect
                 (fun val path act => _compare_dicts path val act)
                 (fun val path act => _compare_lists path val act)
                 path (VList l) (VList la) l)
              (settled (conforms (VList l) (VList la)))).
    { unfold __compare_with_items_order_respect, py_len.
      apply emits_lift_any; [discriminate|]. intros exp_len E.
      inversion E; subst exp_len. clear E.
      apply emits_lift_any; [discriminate|]. intros act_len E.
      inversion E; subst act_len. clear E.
      replace (conforms (VList l) (VList la))
        with (Nat.eqb (List.length l) (List.length la) &&
              conforms (VList l) (VList la)).
      2:{ destruct (conforms (VList l) (VList la)) eqn:C;
            [|apply andb_false_r].
          apply conforms_list_length in C. rewrite C, Nat.eqb_refl.
          reflexivity. }
      apply settled_seq.
      - apply settled_check_array_lengths.
      - intros Hlen. apply Nat.eqb_eq in Hlen.
        now apply (settled_items_order_loop _ _ path la l Hitems 0 la).
      - apply framed_emits, framed_for_enumerate. intros i v Hv.
        rewrite Forall_forall in Hitems.
        destruct (Hitems v Hv) as (_ & _ & Fd & Fl).
        now apply framed_items_order_item. }
    intros self Hs. unfold compare_lists_body, bind at 1, get.
    rewrite (proj2 Hs). now apply Hpos.
  - (* objects *)
    induction d as [|[key val] rest IHr];
      [rewrite compare_dicts_nil; apply emits_ret, settled_true|].
    rewrite compare_dicts_cons, conforms_dict_cons.
    inversion IH as [|? ? Hval Hrest]; subst.
    replace (match lookup key da with
             | Some a => conforms val a && conforms (VDict rest) (VDict da)
             | None => false
             end)
      with (match lookup key da with
            | Some a => conforms val a
            | None => false
            end && conforms (VDict rest) (VDict da))
      by (now destruct (lookup key da)).
    apply settled_seq.
    + apply settled_dicts_item; intros Hk p a Ha'; now apply Hval.
    + intros _. now apply IHr.
    + apply framed_emits. now apply (framed_compare to_ignore (VDict rest)).
Qed.

End settling.

(** A pass over two documents of the same root settles conformance of the
    actual document to the expected one. *)
Lemma pass_settles to_ignore with_actual self :
  configured to_ignore self ->
  same_root (left_data self) (right_data self) = true ->
  exists r p es,
    __compare with_actual self =
    (r, with_log p (log (diff_log self) ++ es) self) /\
    settles to_ignore
      (if with_actual then conforms (left_data self) (right_data self)
       else conforms (right_data self) (left_data self)) r es.
Proof.
  intros Hs Hroot. unfold __compare, bind, get.
  destruct (left_data self) as [| | | | |ll|dl] eqn:El;
    destruct (right_data self) as [| | | | |lr|dr] eqn:Er;
    try discriminate; destruct with_actual.
  - apply (proj2 (settled_compare to_ignore (VList ll)) eq_refl
             "RIGHT" (VList lr) eq_refl self Hs).
  - apply (proj2 (settled_compare to_ignore (VList lr)) eq_refl
             "LEFT" (VList ll) eq_refl self Hs).
  - apply (proj1 (settled_compare to_ignore (VDict dl)) eq_refl
             "RIGHT" (VDict dr) eq_refl self Hs).
  - apply (proj1 (settled_compare to_ignore (VDict dr)) eq_refl
             "LEFT" (VDict dl) eq_refl self Hs).
Qed.

(** The outcomes of the three public operations, from the outcomes of the two
    passes. *)
Lemma outcomes_of_passes self r1 es1 r2 es2 :
  (forall t p L, exists q,
     __compare true (set_target_property t (with_log p L self)) =
     (r1, with_log q (L ++ es1) (set_target_property t self))) ->
  (forall t p L, exists q,
     __compare false (set_target_property t (with_log p L self)) =
     (r2, with_log q (L ++ es2) (set_target_property t self))) ->
  outcome compare_with_right self = (r1, es1) /\
  outcome compare_with_left self = (r2, es2) /\
  outcome full_compare self =
    match r1 with
    | Ok _ => (r2, es1 ++ es2)
    | Raise e => (Raise e, es1)
    end.
Proof.
  intros H1 H2. repeat split.
  - unfold outcome, compare_with_right.
    rewrite (bind_ok _ _ _ _ _ (clear_run _)).
    rewrite (bind_ok _ _ _ _ _ (edit_target_run _ _ _)).
    match goal with
    | |- context [bind (__compare true) _
                    (set_target_property ?t (with_log ?p ?L _))] =>
        destruct (H1 t p L) as [q Hq]
    end.
    destruct r1 as [[]|e].
    + rewrite (bind_ok _ _ _ _ _ Hq). reflexivity.
    + rewrite (bind_raise _ _ _ _ _ Hq). reflexivity.
  - unfold outcome, compare_with_left.
    rewrite (bind_ok _ _ _ _ _ (clear_run _)).
    rewrite (bind_ok _ _ _ _ _ (edit_target_run _ _ _)).
    match goal with
    | |- context [bind (__compare false) _
                    (set_target_property ?t (with_log ?p ?L _))] =>
        destruct (H2 t p L) as [q Hq]
    end.
    destruct r2 as [[]|e].
    + rewrite (bind_ok _ _ _ _ _ Hq). reflexivity.
    + rewrite (bind_raise _ _ _ _ _ Hq). reflexivity.
  - unfold outcome, full_compare.
    rewrite (bind_ok _ _ _ _ _ (clear_run _)).
    rewrite (bind_ok _ _ _ _ _ (edit_target_run _ _ _)).
    match goal with
    | |- context [bind (__compare true) _
                    (set_target_property ?t (with_log ?p ?L _))] =>
        destruct (H1 t p L) as [q Hq]
    end.
    destruct r1 as [[]|e].
    + rewrite (bind_ok _ _ _ _ _ Hq).
      rewrite (bind_ok _ _ _ _ _ (edit_target_run _ _ _)).
      destruct (H2 (replace "RIGHT" "LEFT"
                      (replace "DATA" "RIGHT" (target_property self)))
                  q es1) as [q' Hq'].
      destruct r2 as [[]|e].
      * rewrite (bind_ok _ _ _ _ _ Hq'). reflexivity.
      * rewrite (bind_raise _ _ _ _ _ Hq'). reflexivity.
    + rewrite (bind_raise _ _ _ _ _ Hq). reflexivity.
Qed.

(** A property [Q] that every run of a pass has is a property of the one
    outcome of the pass, which then gives the outcomes of the public
    operations. *)
Lemma public_outcomes_with to_ignore self
  (Q1 Q2 : result unit -> list diff_entry -> Prop) :
  configured to_ignore self ->
  (exists r p es,
     __compare true self = (r, with_log p (log (diff_log self) ++ es) self) /\
     Q1 r es) ->
  (exists r p es,
     __compare false self = (r, with_log p (log (diff_log self) ++ es) self) /\
     Q2 r es) ->
  exists r1 es1 r2 es2,
    Q1 r1 es1 /\ Q2 r2 es2 /\
    outcome compare_with_right self = (r1, es1) /\
    outcome compare_with_left self = (r2, es2) /\
    outcome full_compare self =
      match r1 with
      | Ok _ => (r2, es1 ++ es2)
      | Raise e => (Raise e, es1)
      end.
Proof.
  intros Hs (r & p & es & Hrun & HQ) (r' & p' & es' & Hrun' & HQ').
  destruct (compare_appends (left_data self) (right_data self) to_ignore true)
    as (r1 & es1 & H1).
  destruct (compare_appends (left_data self) (right_data self) to_ignore false)
    as (r2 & es2 & H2).
  assert (Hsame : forall (b : bool) r es p r0 es0,
            __compare b self =
              (r, with_log p (log (diff_log self) ++ es) self) ->
            (exists q, __compare b self =
               (r0, with_log q (log (diff_log self) ++ es0) self)) ->
            r0 = r /\ es0 = es).
  { intros b ra esa pa rb esb Ha [q Hb]. rewrite Ha in Hb.
    inversion Hb as [[Hr Hp Hl]]. split; [reflexivity|].
    symmetry. now apply app_inv_head in Hl. }
  destruct (Hsame true _ _ _ _ _ Hrun (H1 self eq_refl eq_refl Hs))
    as [-> ->].
  destruct (Hsame false _ _ _ _ _ Hrun' (H2 self eq_refl eq_refl Hs))
    as [-> ->].
  exists r, es, r', es'. split; [exact HQ|]. split; [exact HQ'|].
  apply outcomes_of_passes.
  - intros t q L.
    destruct (H1 (set_target_property t (with_log q L self))
                eq_refl eq_refl Hs) as [q' Hq'].
    exists q'. rewrite Hq'. reflexivity.
  - intros t q L.
    destruct (H2 (set_target_property t (with_log q L self))
                eq_refl eq_refl Hs) as [q' Hq'].
    exists q'. rewrite Hq'. reflexivity.
Qed.

(** The verdicts of the public operations on two documents of the same
    root. *)
Lemma public_verdicts to_ignore self :
  configured to_ignore self ->
  same_root (left_data self) (right_data self) = true ->
  exists r1 es1 r2 es2,
    settles to_ignore (conforms (left_data self) (right_data self)) r1 es1 /\
    settles to_ignore (conforms (right_data self) (left_data self)) r2 es2 /\
    outcome compare_with_right self = (r1, es1) /\
    outcome compare_with_left self = (r2, es2) /\
    outcome full_compare self =
      match r1 with
      | Ok _ => (r2, es1 ++ es2)
      | Raise e => (Raise e, es1)
      end.
Proof.
  intros Hs Hroot.
  apply (public_outcomes_with to_ignore self
           (settles to_ignore (conforms (left_data self) (right_data self)))
           (settles to_ignore (conforms (right_data self) (left_data self)))
           Hs).
  - exact (pass_settles to_ignore true self Hs Hroot).
  - exact (pass_settles to_ignore false self Hs Hroot).
Qed.

Lemma conforms_same_root exp act :
  object_or_array exp = true -> conforms exp act = true ->
  same_root exp act = true.
Proof.
  destruct exp; try discriminate; destruct act; try discriminate;
    reflexivity.
Qed.

Lemma same_root_sym a b : same_root a b = same_root b a.
Proof.
  unfold same_root.
  rewrite (andb_comm (is_dict a)), (andb_comm (is_list a)). reflexivity.
Qed.

Lemma same_root_left a b :
  same_root a b = true -> object_or_array a = true.
Proof. destruct a; try discriminate; reflexivity. Qed.

(** Whatever the ignore list: when the left document is an object or an
    array and the right document conforms to it, [compare_with_right] returns
    and leaves an empty log; when the left document conforms to the right
    one, so does [compare_with_left]; when each conforms to the other, so
    does [full_compare]. *)
Theorem conforming_documents_log_nothing to_ignore self :
  configured to_ignore self ->
  object_or_array (left_data self) = true ->
  (conforms (left_data self) (right_data self) = true ->
   outcome compare_with_right self = (Ok tt, [])) /\
  (conforms (right_data self) (left_data self) = true ->
   outcome compare_with_left self = (Ok tt, [])) /\
  (conforms (left_data self) (right_data self) = true ->
   conforms (right_data self) (left_data self) = true ->
   outcome full_compare self = (Ok tt, [])).
Proof.
  intros Hs Hleft.
  assert (Hany : same_root (left_data self) (right_data self) = true ->
            (conforms (left_data self) (right_data self) = true ->
             outcome compare_with_right self = (Ok tt, [])) /\
            (conforms (right_data self) (left_data self) = true ->
             outcome compare_with_left self = (Ok tt, [])) /\
            (conforms (left_data self) (right_data self) = true ->
             conforms (right_data self) (left_data self) = true ->
             outcome full_compare self = (Ok tt, []))).
  { intros Hroot.
    destruct (public_verdicts to_ignore self Hs Hroot)
      as (r1 & es1 & r2 & es2 & [T1 _] & [T2 _] & -> & -> & ->).
    repeat split.
    - intros C. now destruct (T1 C) as [-> ->].
    - intros C. now destruct (T2 C) as [-> ->].
    - intros C C'. destruct (T1 C) as [-> ->].
      now destruct (T2 C') as [-> ->]. }
  assert (Hroot' : conforms (right_data self) (left_data self) = true ->
            same_root (left_data self) (right_data self) = true).
  { destruct (left_data self); try discriminate;
      destruct (right_data self); try discriminate; reflexivity. }
  repeat split.
  - intros C. now apply Hany; [apply conforms_same_root|].
  - intros C. now apply Hany; [apply Hroot'|].
  - intros C C'. now apply Hany; [apply conforms_same_root| |].
Qed.

(** With an empty ignore list and two documents of the same root, an
    operation returns with an empty log exactly when the actual document
    conforms to the expected one: the right to the left for
    [compare_with_right], the left to the right for [compare_with_left], each
    to the other for [full_compare]. *)
Theorem empty_log_means_conformance self :
  configured [] self ->
  same_root (left_data self) (right_data self) = true ->
  (outcome compare_with_right self = (Ok tt, []) <->
   conforms (left_data self) (right_data self) = true) /\
  (outcome compare_with_left self = (Ok tt, []) <->
   conforms (right_data self) (left_data self) = true) /\
  (outcome full_compare self = (Ok tt, []) <->
   conforms (left_data self) (right_data self) = true /\
   conforms (right_data self) (left_data self) = true).
Proof.
  intros Hs Hroot.
  destruct (public_verdicts [] self Hs Hroot)
    as (r1 & es1 & r2 & es2 & [T1 F1] & [T2 F2] & -> & -> & ->).
  assert (V : forall b r (es : list diff_entry),
            (b = true -> r = Ok tt /\ es = []) ->
            (b = false -> @nil string = [] -> es <> []) ->
            es = [] -> b = true).
  { intros [|] r es _ F E; [reflexivity|]. now destruct (F eq_refl eq_refl). }
  split; [|split]; split.
  - intros E. inversion E; subst. now apply (V _ (Ok tt) []).
  - intros C. now destruct (T1 C) as [-> ->].
  - intros E. inversion E; subst. now apply (V _ (Ok tt) []).
  - intros C. now destruct (T2 C) as [-> ->].
  - intros E. destruct r1 as [[]|e]; [|discriminate].
    inversion E as [[Hr He]]. apply app_eq_nil in He as [-> ->].
    split; now apply (V _ (Ok tt) []).
  - intros [C C']. destruct (T1 C) as [-> ->].
    now destruct (T2 C') as [-> ->].
Qed.

(** [{"a": 1, "l": [true]}] conforms to [{"a": 1.0, "l": [1], "more": null}]:
    [compare_with_right] leaves an empty log, with an ignore list that names
    another key. *)
Lemma conforming_documents_witness :
  configured ["DATA.more"] Cases.small_in_large_ignoring /\
  object_or_array (left_data Cases.small_in_large_ignoring) = true /\
  conforms Cases.small Cases.large = true /\
  outcome compare_with_right Cases.small_in_large_ignoring = (Ok tt, []).
Proof.
  split; [split; reflexivity|]. split; [reflexivity|].
  split; [reflexivity|].
  apply (conforming_documents_log_nothing ["DATA.more"]
           Cases.small_in_large_ignoring); [split| |]; reflexivity.
Defined.

(** The same two documents without an ignore list: the pass with the smaller
    document as expected is quiet, the opposite pass is not. *)
Lemma empty_log_witness :
  configured [] Cases.small_in_large /\
  same_root Cases.small Cases.large = true /\
  outcome compare_with_right Cases.small_in_large = (Ok tt, []) /\
  outcome compare_with_left Cases.small_in_large <> (Ok tt, []).
Proof.
  split; [split; reflexivity|]. split; [reflexivity|].
  assert (H := empty_log_means_conformance Cases.small_in_large
                 (conj eq_refl eq_refl) eq_refl).
  split.
  - now apply (proj1 H).
  - intros E. apply (proj1 (proj2 H)) in E. discriminate E.
Defined.

(* ===================================================================== *)
(** ** How a comparison ends *)
(* ===================================================================== *)

Lemma in_bounds_dict_cons k v r da :
  in_bounds (VDict ((k, v) :: r)) (VDict da) =
  match lookup k da with
  | Some a => in_bounds v a && in_bounds (VDict r) (VDict da)
  | None => in_bounds (VDict r) (VDict da)
  end.
Proof. reflexivity. Qed.

Lemma in_bounds_list_cons x xs y ys :
  in_bounds (VList (x :: xs)) (VList (y :: ys)) =
  in_bounds x y && in_bounds (VList xs) (VList ys).
Proof. reflexivity. Qed.

Lemma in_bounds_scalar v a : scalar v = true -> in_bounds v a = true.
Proof. destruct v; try discriminate; reflexivity. Qed.

Section ending.

Variable to_ignore : list string.

Local Abbreviation cfg := (configured to_ignore).

Lemma ends_seq c k b1 b2 :
  emits cfg c (ends_as b1) ->
  (b1 = true -> emits cfg k (ends_as b2)) ->
  emits cfg (c ;; k) (ends_as (b1 && b2)).
Proof.
  intros Hc Hk.
  apply (emits_bind cfg (configured_blind to_ignore) c k (ends_as b1));
    [exact Hc| |].
  - intros e es1 H. destruct b1; [discriminate H|exact H].
  - intros es1 H. destruct b1; [|now destruct H].
    apply (emits_weaken cfg k (ends_as b2)); [|now apply Hk].
    intros r es. cbn [andb]. destruct b2; [trivial|].
    intros (-> & es' & p & v & ->). split; [reflexivity|].
    exists (es1 ++ es'), p, v. now rewrite app_assoc.
Qed.

(** A step that records and returns does not change how the run ends. *)
Lemma ends_record path entry :
  emits_at cfg path (Log.record entry) (ends_as true).
Proof. now apply emits_record. Qed.

(** One turn of the object loop. *)
Lemma ends_dicts_item rd rl item_path da key val :
  (is_dict val = true -> forall path a, is_dict a = true ->
     emits cfg (rd val path a) (ends_as (in_bounds val a))) ->
  (is_list val = true -> forall path a, is_list a = true ->
     emits cfg (rl val path a) (ends_as (in_bounds val a))) ->
  emits cfg (compare_dicts_item rd rl item_path (VDict da) key val)
    (ends_as match lookup key da with
             | Some a => in_bounds val a
             | None => true
             end).
Proof.
  intros Hd Hl. unfold compare_dicts_item, contains_key, getitem_key.
  apply emits_setup_path; [exact (configured_blind to_ignore)|].
  destruct (lookup key da) as [a|] eqn:L.
  2:{ apply emits_lift; [discriminate|]. intros present E.
      inversion E; subst present. cbn [negb]. apply ends_record. }
  apply emits_lift; [discriminate|]. intros present E.
  inversion E; subst present. cbn [negb]. clear E.
  assert (Hscalar : scalar val = true ->
            emits_at cfg (item_path ++ "." ++ key)
              (if py_neb val a
               then (ignored <- __key_to_ignore ;;
                     if negb ignored then Log.unequal_values val a
                     else ret tt)
               else ret tt)
              (ends_as (in_bounds val a))).
  { intros Hv. rewrite (in_bounds_scalar val a Hv).
    destruct (py_neb val a); [|now apply emits_of, emits_ret].
    apply emits_key_to_ignore_any. intros [|]; cbn [negb];
      [now apply emits_of, emits_ret|apply ends_record]. }
  destruct val;
    try (apply emits_lift; [discriminate|]; intros act E;
         inversion E; subst act; now apply Hscalar).
  - apply emits_lift; [discriminate|]. intros act E.
    inversion E; subst act. destruct (is_list a) eqn:Ha.
    + apply emits_get_curr_path, emits_of. now apply Hl.
    + replace (in_bounds (VList l) a) with true
        by (destruct a; try reflexivity; discriminate).
      apply ends_record.
  - apply emits_lift; [discriminate|]. intros act E.
    inversion E; subst act. destruct (is_dict a) eqn:Ha.
    + apply emits_get_curr_path, emits_of. now apply Hd.
    + replace (in_bounds (VDict d) a) with true
        by (destruct a; try reflexivity; discriminate).
      apply ends_record.
Qed.

(** One turn of the positional loop at an index that the actual array has. *)
Lemma ends_items_order_item rd rl item_path la idx val a :
  nth_error la idx = Some a ->
  (is_dict val = true -> forall path a, is_dict a = true ->
     emits cfg (rd val path a) (ends_as (in_bounds val a))) ->
  (is_list val = true -> forall path a, is_list a = true ->
     emits cfg (rl val path a) (ends_as (in_bounds val a))) ->
  emits cfg
    (items_order_item rd rl item_path (VList la) (List.length la) idx val)
    (ends_as (in_bounds val a)).
Proof.
  intros Hn Hd Hl. unfold items_order_item, getitem_idx. rewrite Hn.
  apply emits_setup_path; [exact (configured_blind to_ignore)|].
  assert (Hlt : idx < List.length la) by (apply nth_error_Some; congruence).
  replace (Nat.eqb idx (List.length la)) with false
    by (symmetry; apply Nat.eqb_neq; lia).
  assert (Hscalar : scalar val = true ->
            emits_at cfg
              (item_path ++ "." ++ "<array>[" ++ str_of_nat idx ++ "]")
              (if py_neb val a then Log.unequal_values val a else ret tt)
              (ends_as (in_bounds val a))).
  { intros Hv. rewrite (in_bounds_scalar val a Hv).
    destruct (py_neb val a);
      [apply ends_record|now apply emits_of, emits_ret]. }
  destruct val;
    try (apply emits_lift; [discriminate|]; intros act E;
         inversion E; subst act; now apply Hscalar).
  - apply emits_lift; [discriminate|]. intros act E.
    inversion E; subst act. destruct (is_list a) eqn:Ha.
    + apply emits_get_curr_path, emits_of. now apply Hl.
    + replace (in_bounds (VList l) a) with true
        by (destruct a; try reflexivity; discriminate).
      apply ends_record.
  - apply emits_lift; [discriminate|]. intros act E.
    inversion E; subst act. destruct (is_dict a) eqn:Ha.
    + apply emits_get_curr_path, emits_of. now apply Hd.
    + replace (in_bounds (VDict d) a) with true
        by (destruct a; try reflexivity; discriminate).
      apply ends_record.
Qed.

(** The turn at the first index past the actual array records the missing
    item and returns. *)
Lemma ends_at_end rd rl item_path la val :
  emits cfg
    (items_order_item rd rl item_path (VList la) (List.length la)
       (List.length la) val)
    (fun r es => r = Ok tt /\ exists p, es = [MissingArrayItem p val None]).
Proof.
  unfold items_order_item.
  apply emits_setup_path; [exact (configured_blind to_ignore)|].
  rewrite Nat.eqb_refl. apply emits_record. split; [reflexivity|].
  now eexists.
Qed.

(** The turn at any later index subscripts the actual array and raises. *)
Lemma ends_past_end rd rl item_path la idx val :
  List.length la < idx ->
  emits cfg
    (items_order_item rd rl item_path (VList la) (List.length la) idx val)
    (fun r es => r = Raise IndexError /\ es = []).
Proof.
  intros Hlt. unfold items_order_item, getitem_idx.
  apply emits_setup_path; [exact (configured_blind to_ignore)|].
  replace (Nat.eqb idx (List.length la)) with false
    by (symmetry; apply Nat.eqb_neq; lia).
  assert (Hn : nth_error la idx = None) by (apply nth_error_None; lia).
  rewrite Hn.
  destruct val;
    (apply emits_lift; [intros e E; now inversion E|discriminate]).
Qed.

(** The positional loop from an index of the actual array on. *)
Lemma ends_items_order_loop rd rl item_path la items :
  Forall (fun val =>
            (is_dict val = true -> forall path a, is_dict a = true ->
               emits cfg (rd val path a) (ends_as (in_bounds val a))) /\
            (is_list val = true -> forall path a, is_list a = true ->
               emits cfg (rl val path a) (ends_as (in_bounds val a)))) items ->
  forall idx ys,
    idx <= List.length la -> skipn idx la = ys ->
    emits cfg
      (for_enumerate
         (items_order_item rd rl item_path (VList la) (List.length la))
         idx items)
      (ends_as (in_bounds (VList items) (VList ys))).
Proof.
  induction 1 as [|val rest [Hd Hl] Hrest IH]; intros idx ys Hle Hskip.
  - now apply emits_ret.
  - rewrite for_enumerate_cons. destruct ys as [|y ys].
    + assert (idx = List.length la) as ->.
      { apply (f_equal (@List.length value)) in Hskip.
        rewrite length_skipn in Hskip. simpl in Hskip. lia. }
      apply (emits_bind cfg (configured_blind to_ignore) _ _
               (fun r es => r = Ok tt /\
                            exists p, es = [MissingArrayItem p val None]));
        [apply ends_at_end|now intros e es1 [? _]|].
      intros es1 [_ [p ->]]. destruct rest as [|val' rest'].
      * now apply emits_ret.
      * rewrite for_enumerate_cons.
        apply (emits_bind cfg (configured_blind to_ignore) _ _
                 (fun r es => r = Raise IndexError /\ es = []));
          [apply ends_past_end; lia| |now intros es2 [? _]].
        intros e es2 [E ->]. inversion E; subst e.
        split; [reflexivity|]. now exists [], p, val.
    + rewrite in_bounds_list_cons.
      destruct (skipn_cons_nth y ys idx la Hskip) as [Hn Hskip'].
      assert (Hlt : idx < List.length la)
        by (apply nth_error_Some; congruence).
      apply ends_seq.
      * now apply ends_items_order_item.
      * intros _. apply IH; [lia|exact Hskip'].
Qed.

(** Both recursive methods end as the bounds say, while the keyed strategy
    is off. *)
Lemma ends_compare exp_data :
  (is_dict exp_data = true -> forall path a, is_dict a = true ->
     emits cfg (_compare_dicts path exp_data a)
       (ends_as (in_bounds exp_data a))) /\
  (is_list exp_data = true -> forall path a, is_list a = true ->
     emits cfg (_compare_lists path exp_data a)
       (ends_as (in_bounds exp_data a))).
Proof.
  induction exp_data as [| | | | |l IH|d IH] using value_nested_ind;
    split; try discriminate; intros _ path a Ha;
    destruct a as [| | | | |la|da]; try discriminate.
  - rewrite compare_lists_list.
    assert (Hitems : Forall (fun val =>
              (is_dict val = true -> forall path a, is_dict a = true ->
                 emits cfg (_compare_dicts path val a)
                   (ends_as (in_bounds val a))) /\
              (is_list val = true -> forall path a, is_list a = true ->
                 emits cfg (_compare_lists path val a)
                   (ends_as (in_bounds val a)))) l).
    { rewrite Forall_forall in IH |- *. intros val Hin.
      exact (IH val Hin). }
    intros self Hs. unfold compare_lists_body, bind at 1, get.
    rewrite (proj2 Hs). revert self Hs.
    unfold __compare_with_items_order_respect, py_len.
    apply emits_lift_any; [discriminate|]. intros exp_len E.
    inversion E; subst exp_len. clear E.
    apply emits_lift_any; [discriminate|]. intros act_len E.
    inversion E; subst act_len. clear E.
    apply (ends_seq _ _ true).
    + unfold __check_array_lengths.
      apply emits_setup_path; [exact (configured_blind to_ignore)|].
      destruct (Nat.ltb _ _); [apply ends_record|].
      destruct (Nat.ltb _ _); [apply ends_record|].
      now apply emits_of, emits_ret.
    + intros _.
      apply (ends_items_order_loop _ _ path la l Hitems 0 la);
        [lia|reflexivity].
  - induction d as [|[key val] rest IHr];
      [rewrite compare_dicts_nil; now apply emits_ret|].
    rewrite compare_dicts_cons, in_bounds_dict_cons.
    inversion IH as [|? ? Hval Hrest]; subst.
    replace (match lookup key da with
             | Some a => in_bounds val a && in_bounds (VDict rest) (VDict da)
             | None => in_bounds (VDict rest) (VDict da)
             end)
      with (match lookup key da with
            | Some a => in_bounds val a
            | None => true
            end && in_bounds (VDict rest) (VDict da))
      by (now destruct (lookup key da)).
    apply ends_seq.
    + apply ends_dicts_item; intros Hk p a Ha'; now apply Hval.
    + intros _. now apply IHr.
Qed.

End ending.

(** A pass over two documents of the same root ends as the bounds say. *)
Lemma pass_ends to_ignore with_actual self :
  configured to_ignore self ->
  same_root (left_data self) (right_data self) = true ->
  exists r p es,
    __compare with_actual self =
    (r, with_log p (log (diff_log self) ++ es) self) /\
    ends_as
      (if with_actual then in_bounds (left_data self) (right_data self)
       else in_bounds (right_data self) (left_data self)) r es.
Proof.
  intros Hs Hroot. unfold __compare, bind, get.
  destruct (left_data self) as [| | | | |ll|dl] eqn:El;
    destruct (right_data self) as [| | | | |lr|dr] eqn:Er;
    try discriminate; destruct with_actual.
  - apply (proj2 (ends_compare to_ignore (VList ll)) eq_refl
             "RIGHT" (VList lr) eq_refl self Hs).
  - apply (proj2 (ends_compare to_ignore (VList lr)) eq_refl
             "LEFT" (VList ll) eq_refl self Hs).
  - apply (proj1 (ends_compare to_ignore (VDict dl)) eq_refl
             "RIGHT" (VDict dr) eq_refl self Hs).
  - apply (proj1 (ends_compare to_ignore (VDict dr)) eq_refl
             "LEFT" (VDict dl) eq_refl self Hs).
Qed.

(** On two documents that are both objects or both arrays, and whatever the
    ignore list, an operation either returns or ends with an IndexError.  It
    returns exactly when the walk stays in bounds: no expected array that is
    taken along an actual array is two or more items longer.  When it
    raises, the last entry of the log is the one for the first missing
    item.  [full_compare] returns when both passes do. *)
Theorem operations_end_by_bounds to_ignore self :
  configured to_ignore self ->
  same_root (left_data self) (right_data self) = true ->
  let ends b o := ends_as b (fst o) (snd o) in
  ends (in_bounds (left_data self) (right_data self))
    (outcome compare_with_right self) /\
  ends (in_bounds (right_data self) (left_data self))
    (outcome compare_with_left self) /\
  ends (in_bounds (left_data self) (right_data self) &&
        in_bounds (right_data self) (left_data self))
    (outcome full_compare self).
Proof.
  intros Hs Hroot ends. subst ends.
  destruct (public_outcomes_with to_ignore self _ _ Hs
              (pass_ends to_ignore true self Hs Hroot)
              (pass_ends to_ignore false self Hs Hroot))
    as (r1 & es1 & r2 & es2 & E1 & E2 & -> & -> & ->).
  split; [exact E1|]. split; [exact E2|].
  destruct (in_bounds (left_data self) (right_data self)).
  - cbn in E1. subst r1. cbn [andb fst snd].
    destruct (in_bounds (right_data self) (left_data self)); [exact E2|].
    destruct E2 as (-> & es' & p & v & ->). split; [reflexivity|].
    exists (es1 ++ es'), p, v. cbn. now rewrite app_assoc.
  - destruct E1 as (-> & H). split; [reflexivity|exact H].
Qed.

(** [[1, 2, 3]] against [[1]]: the pass with the longer array as expected
    ends with an IndexError after the entry for index 1, the opposite pass
    returns. *)
Lemma operations_end_witness :
  configured [] Cases.three_against_one /\
  same_root (left_data Cases.three_against_one)
    (right_data Cases.three_against_one) = true /\
  fst (outcome compare_with_right Cases.three_against_one) =
    Raise IndexError /\
  (exists es' p v,
     snd (outcome compare_with_right Cases.three_against_one) =
     es' ++ [MissingArrayItem p v None]) /\
  fst (outcome compare_with_left Cases.three_against_one) = Ok tt.
Proof.
  split; [split; reflexivity|]. split; [reflexivity|].
  assert (H := operations_end_by_bounds [] Cases.three_against_one
                 (conj eq_refl eq_refl) eq_refl).
  destruct H as (H1 & H2 & _).
  split; [exact (proj1 H1)|]. split; [exact (proj2 H1)|exact H2].
Defined.

(* ===================================================================== *)
(** ** Conformance both ways is equality *)
(* ===================================================================== *)

Lemma lookup_In key d val : lookup key d = Some val -> In (key, val) d.
Proof.
  induction d as [|[k v] r IH]; simpl; [discriminate|].
  destruct (String.eqb key k) eqn:E; [|auto].
  apply String.eqb_eq in E. subst k. intros H. inversion H. now left.
Qed.

Lemma distinct_NoDup keys : distinct keys = true -> NoDup keys.
Proof.
  induction keys as [|k r IH]; simpl; [constructor|].
  intros H. apply andb_prop in H as [Hk Hr]. constructor; [|auto].
  intros Hin. apply negb_true_iff in Hk.
  rewrite (proj2 (existsb_eqb_In k r) Hin) in Hk. discriminate.
Qed.

Lemma dyadic_eqb_sym m1 e1 m2 e2 :
  dyadic_eqb m1 e1 m2 e2 = dyadic_eqb m2 e2 m1 e1.
Proof. unfold dyadic_eqb. now rewrite Z.min_comm, Z.eqb_sym. Qed.

Lemma eqb_bool_sym (x y : bool) : Bool.eqb x y = Bool.eqb y x.
Proof. now destruct x, y. Qed.

(** [==] is symmetric on scalars. *)
Lemma py_eqb_sym_scalar a b :
  scalar a = true -> scalar b = true -> py_eqb a b = py_eqb b a.
Proof.
  destruct a as [|x|x|x|x| |]; try discriminate;
    destruct b as [|y|y|y|y| |]; try discriminate; intros _ _; simpl;
    try reflexivity;
    try apply eqb_bool_sym; try apply Z.eqb_sym; try apply String.eqb_sym.
  destruct x, y; simpl; try reflexivity;
    [apply eqb_bool_sym|apply dyadic_eqb_sym].
Qed.

Lemma conforms_dict_iff da db :
  conforms (VDict da) (VDict db) = true <->
  Forall (fun kv => exists w, lookup (fst kv) db = Some w /\
                              conforms (snd kv) w = true) da.
Proof.
  induction da as [|[k v] r IH].
  - split; [constructor|reflexivity].
  - rewrite conforms_dict_cons. split.
    + destruct (lookup k db) as [w|] eqn:L; [|discriminate].
      intros H. apply andb_prop in H as [Hv Hr]. constructor.
      * exists w. now split.
      * now apply IH.
    + intros H. inversion H as [|? ? (w & L & Hv) Hr]; subst.
      cbn [fst snd] in L, Hv. rewrite L, Hv. now apply IH.
Qed.

Lemma py_eqb_dict_iff da db :
  py_eqb (VDict da) (VDict db) = true <->
  List.length da = List.length db /\
  Forall (fun kv => exists w, lookup (fst kv) db = Some w /\
                              same_or_equal (snd kv) w = true) da.
Proof.
  cbn [py_eqb]. rewrite andb_true_iff, Nat.eqb_eq.
  apply and_iff_compat_l.
  induction da as [|[k v] r IH].
  - split; [constructor|reflexivity].
  - split.
    + destruct (lookup k db) as [w|] eqn:L; [|discriminate].
      intros H. apply andb_prop in H as [Hv Hr]. constructor.
      * exists w. now split.
      * now apply IH.
    + intros H. inversion H as [|? ? (w & L & Hv) Hr]; subst.
      cbn [fst snd] in L, Hv. rewrite L. unfold same_or_equal in Hv.
      rewrite Hv. now apply IH.
Qed.

Lemma conforms_list_iff la lb :
  conforms (VList la) (VList lb) = true <->
  Forall2 (fun x y => conforms x y = true) la lb.
Proof.
  revert lb. induction la as [|x xs IH]; intros [|y ys];
    try (split; [discriminate|intros H; inversion H]).
  - split; [constructor|reflexivity].
  - rewrite conforms_list_cons, andb_true_iff, IH. split.
    + intros [Hx Hr]. now constructor.
    + intros H. now inversion H.
Qed.

Lemma py_eqb_list_iff la lb :
  py_eqb (VList la) (VList lb) = true <->
  Forall2 (fun x y => same_or_equal x y = true) la lb.
Proof.
  revert lb. induction la as [|x xs IH]; intros [|y ys];
    try (split; [discriminate|intros H; inversion H]).
  - split; [constructor|reflexivity].
  - change (py_eqb (VList (x :: xs)) (VList (y :: ys)))
      with (same_or_equal x y && py_eqb (VList xs) (VList ys)).
    rewrite andb_true_iff, IH. split.
    + intros [Hx Hr]. now constructor.
    + intros H. now inversion H.
Qed.

(** Away from NaN, being the same object adds nothing to [==]. *)
Lemma same_or_equal_nan_free x y :
  nan_free x = true -> same_or_equal x y = py_eqb x y.
Proof.
  unfold same_or_equal. intros H.
  destruct x as [| | |[| |]| | |]; try reflexivity. discriminate H.
Qed.

Lemma keys_once_lookup d key val :
  keys_once (VDict d) = true -> lookup key d = Some val ->
  keys_once val = true.
Proof.
  intros H L. cbn [keys_once] in H. apply andb_prop in H as [_ H].
  rewrite forallb_forall in H. exact (H _ (lookup_In _ _ _ L)).
Qed.

(** The keys of [da] are keys of [db]. *)
Lemma keys_incl da db (P : value -> value -> Prop) :
  Forall (fun kv => exists w, lookup (fst kv) db = Some w /\
                              P (snd kv) w) da ->
  incl (map fst da) (map fst db).
Proof.
  intros H k Hin. apply in_map_iff in Hin as ([k' v] & <- & Hin).
  rewrite Forall_forall in H. destruct (H _ Hin) as (w & L & _).
  apply lookup_In in L. now apply (in_map fst) in L.
Qed.

(** One direction of an object comparison, turned round: when the keys of
    [db] are keys of [da] too. *)
Lemma dict_turned (P Q : value -> value -> Prop) da db :
  distinct (map fst da) = true -> distinct (map fst db) = true ->
  incl (map fst db) (map fst da) ->
  Forall (fun kv => exists w, lookup (fst kv) db = Some w /\
                              P (snd kv) w) da ->
  (forall k v w, In (k, v) da -> lookup k db = Some w -> P v w -> Q w v) ->
  Forall (fun kv => exists v, lookup (fst kv) da = Some v /\
                              Q (snd kv) v) db.
Proof.
  intros Da Db Hincl H HPQ. rewrite Forall_forall in H |- *.
  intros [k w] Hin. cbn [fst snd].
  assert (Hk : In k (map fst da))
    by (apply Hincl; apply (in_map fst) in Hin; exact Hin).
  apply in_map_iff in Hk as ([k' v] & E & Hv). cbn [fst] in E. subst k'.
  exists v. split; [apply lookup_distinct; assumption|].
  destruct (H _ Hv) as (w' & L & HP). cbn [fst snd] in L, HP.
  rewrite (lookup_distinct db k w Db Hin) in L. inversion L; subst w'.
  apply (HPQ k v w Hv); [apply lookup_distinct; assumption|exact HP].
Qed.

(** Two pointwise relations between lists, one each way, against a third. *)
Lemma Forall2_both {A} (P Q R : A -> A -> Prop) la lb :
  (forall x y, In x la -> In y lb -> (P x y /\ Q y x <-> R x y)) ->
  (Forall2 P la lb /\ Forall2 Q lb la <-> Forall2 R la lb).
Proof.
  revert lb. induction la as [|x xs IH]; intros [|y ys] H.
  - split; [constructor|split; constructor].
  - split; [intros [H1 _]; inversion H1|intros H1; inversion H1].
  - split; [intros [H1 _]; inversion H1|intros H1; inversion H1].
  - assert (Hr : Forall2 P xs ys /\ Forall2 Q ys xs <-> Forall2 R xs ys).
    { apply IH. intros x' y' Hx Hy. apply H; now right. }
    assert (Hh := H x y (or_introl eq_refl) (or_introl eq_refl)).
    split.
    + intros [H1 H2]. inversion H1; subst. inversion H2; subst.
      constructor; [apply Hh|apply Hr]; now split.
    + intros H1. inversion H1 as [|? ? ? ? Hxy Hrest]; subst.
      apply Hh in Hxy as [? ?]. apply Hr in Hrest as [? ?].
      split; now constructor.
Qed.

(** For documents whose objects hold each key once, the first of them
    without NaN, the two conform to each other exactly when they are equal
    ([==]). *)
Lemma conforms_both_ways a :
  forall b, keys_once a = true -> keys_once b = true -> nan_free a = true ->
    (conforms a b = true /\ conforms b a = true <-> py_eqb a b = true).
Proof.
  induction a as [|x|x|x|x|la IH|da IH] using value_nested_ind;
    intros b Ka Kb Na;
    try (match goal with
         | |- conforms ?a b = true /\ _ <-> _ =>
             assert (Ha : scalar a = true) by reflexivity;
             rewrite (conforms_scalar a b Ha);
             destruct (scalar b) eqn:Hb;
             [rewrite (conforms_scalar b a Hb),
                <- (py_eqb_sym_scalar a b Ha Hb); tauto
             |destruct b; try discriminate;
              (split; [now intros [H _]|discriminate])]
         end).
  - (* arrays *)
    destruct b as [| | | | |lb|];
      try (split; [now intros [H _]|discriminate]).
    rewrite !conforms_list_iff, py_eqb_list_iff.
    cbn [keys_once nan_free] in Ka, Kb, Na.
    rewrite forallb_forall in Ka, Kb, Na.
    rewrite Forall_forall in IH.
    apply Forall2_both. intros x y Hx Hy.
    rewrite (same_or_equal_nan_free x y (Na x Hx)).
    apply (IH x Hx y); [now apply Ka|now apply Kb|now apply Na].
  - (* objects *)
    destruct b as [| | | | | |db];
      try (split; [now intros [H _]|discriminate]).
    rewrite !conforms_dict_iff, py_eqb_dict_iff.
    assert (Da : distinct (map fst da) = true)
      by (cbn [keys_once] in Ka; now apply andb_prop in Ka as [? _]).
    assert (Db : distinct (map fst db) = true)
      by (cbn [keys_once] in Kb; now apply andb_prop in Kb as [? _]).
    assert (Kv : forall k v, In (k, v) da -> keys_once v = true).
    { intros k v Hin. cbn [keys_once] in Ka.
      apply andb_prop in Ka as [_ Ka]. rewrite forallb_forall in Ka.
      exact (Ka _ Hin). }
    assert (Nv : forall k v, In (k, v) da -> nan_free v = true).
    { intros k v Hin. cbn [nan_free] in Na.
      rewrite forallb_forall in Na. exact (Na _ Hin). }
    rewrite Forall_forall in IH.
    assert (Hiff : forall k v w, In (k, v) da -> lookup k db = Some w ->
              (conforms v w = true /\ conforms w v = true <->
               same_or_equal v w = true)).
    { intros k v w Hin L.
      rewrite (same_or_equal_nan_free v w (Nv k v Hin)).
      apply (IH _ Hin); cbn [snd];
        [now apply (Kv k)|now apply (keys_once_lookup db k)
        |now apply (Nv k)]. }
    split.
    + intros [H H'].
      assert (I1 := keys_incl _ _ (fun v w => conforms v w = true) H).
      assert (I2 := keys_incl _ _ (fun v w => conforms v w = true) H').
      split.
      * apply Nat.le_antisymm.
        -- rewrite <- (length_map fst da), <- (length_map fst db).
           apply NoDup_incl_length; [now apply distinct_NoDup|exact I1].
        -- rewrite <- (length_map fst da), <- (length_map fst db).
           apply NoDup_incl_length; [now apply distinct_NoDup|exact I2].
      * assert (Hback := dict_turned (fun v w => conforms v w = true)
                           (fun v w => conforms w v = true)
                           db da Db Da I1 H' (fun _ _ _ _ _ h => h)).
        rewrite Forall_forall in H, Hback |- *.
        intros [k v] Hin. destruct (H _ Hin) as (w & L & C).
        exists w. split; [exact L|]. cbn [fst snd] in *.
        apply (Hiff k v w Hin L). split; [exact C|].
        destruct (Hback _ Hin) as (w' & L' & C'). cbn [fst snd] in *.
        rewrite L in L'. inversion L'; subst w'. exact C'.
    + intros [Hlen H].
      assert (I1 := keys_incl _ _ (fun v w => same_or_equal v w = true) H).
      assert (I2 : incl (map fst db) (map fst da)).
      { apply NoDup_length_incl; [now apply distinct_NoDup| |exact I1].
        rewrite !length_map. lia. }
      split.
      * rewrite Forall_forall in H |- *.
        intros [k v] Hin. destruct (H _ Hin) as (w & L & E).
        exists w. split; [exact L|]. cbn [fst snd] in *.
        now apply (Hiff k v w Hin L).
      * apply (dict_turned (fun v w => same_or_equal v w = true)
                 (fun w v => conforms w v = true) da db Da Db I2 H).
        intros k v w Hin L E. now apply (Hiff k v w Hin L).
Qed.

(** With an empty ignore list, on two documents that are both objects or
    both arrays and whose objects hold each key once, the left one without
    NaN, [full_compare] returns with an empty log exactly when the two
    documents are equal ([==]).  (A document that holds NaN is equal to
    itself, as the same NaN object is in both, and is not quiet.) *)
Theorem full_compare_quiet_iff_equal self :
  configured [] self ->
  same_root (left_data self) (right_data self) = true ->
  keys_once (left_data self) = true ->
  keys_once (right_data self) = true ->
  nan_free (left_data self) = true ->
  (outcome full_compare self = (Ok tt, []) <->
   py_eqb (left_data self) (right_data self) = true).
Proof.
  intros Hs Hroot Kl Kr Nl.
  rewrite <- (conforms_both_ways _ _ Kl Kr Nl).
  destruct (public_verdicts [] self Hs Hroot)
    as (r1 & es1 & r2 & es2 & [T1 F1] & [T2 F2] & _ & _ & ->).
  split.
  - intros E. destruct r1 as [[]|e]; [|discriminate].
    inversion E as [[Hr He]]. apply app_eq_nil in He as [-> ->].
    split.
    + destruct (conforms (left_data self) (right_data self));
        [reflexivity|now destruct (F1 eq_refl eq_refl)].
    + destruct (conforms (right_data self) (left_data self));
        [reflexivity|now destruct (F2 eq_refl eq_refl)].
  - intros [C C']. destruct (T1 C) as [-> ->].
    now destruct (T2 C') as [-> ->].
Qed.

(** [{"a": 1, "b": [true]}] and [{"b": [1.0], "a": 1.0}] are equal:
    [full_compare] logs nothing. *)
Lemma full_compare_equal_witness :
  configured [] Cases.reordered /\
  nan_free (left_data Cases.reordered) = true /\
  py_eqb (left_data Cases.reordered) (right_data Cases.reordered) = true /\
  outcome full_compare Cases.reordered = (Ok tt, []).
Proof.
  split; [split; reflexivity|]. split; [reflexivity|].
  split; [reflexivity|].
  apply (full_compare_quiet_iff_equal Cases.reordered);
    [split| | | | |]; reflexivity.
Defined.

(* ===================================================================== *)
(** ** What the ignore list removes *)
(* ===================================================================== *)

Lemma thinned_refl to_ignore es : thinned to_ignore es es.
Proof. induction es; now constructor. Qed.

Lemma thinned_app to_ignore es es0 fs fs0 :
  thinned to_ignore es es0 -> thinned to_ignore fs fs0 ->
  thinned to_ignore (es ++ fs) (es0 ++ fs0).
Proof.
  intros H Hf. induction H; cbn [app]; [exact Hf| |]; now constructor.
Qed.

Section thinning.

Variable to_ignore : list string.

Lemma appends_ret ig : appends ig (ret tt) (Ok tt) [].
Proof.
  intros self _. exists (curr_path (diff_log self)).
  rewrite app_nil_r, with_log_same. reflexivity.
Qed.

Lemma appends_raise ig e : appends ig (raise e) (Raise e) [].
Proof.
  intros self _. exists (curr_path (diff_log self)).
  rewrite app_nil_r, with_log_same. reflexivity.
Qed.

Lemma appends_record ig path entry :
  appends_at ig path (Log.record entry) (Ok tt) [entry path].
Proof.
  intros self _ Hp. exists path. rewrite record_run, Hp. reflexivity.
Qed.

Lemma appends_of ig path c r es :
  appends ig c r es -> appends_at ig path c r es.
Proof. intros H self Hs _. now apply H. Qed.

Lemma appends_setup_path ig item_path seg k r es :
  appends_at ig (item_path ++ "." ++ seg) k r es ->
  appends ig (Log.setup_path item_path seg ;; k) r es.
Proof.
  intros H self Hs.
  rewrite (bind_ok _ _ _ _ _ (setup_path_run _ _ _)).
  destruct (H (with_log (item_path ++ "." ++ seg) (log (diff_log self)) self)
              (configured_with_log ig _ _ self Hs) eq_refl) as [p Hp].
  exists p. rewrite Hp. reflexivity.
Qed.

Lemma appends_get_curr_path ig path (k : string -> M unit) r es :
  appends_at ig path (k path) r es ->
  appends_at ig path (p <- Log.get_curr_path ;; k p) r es.
Proof.
  intros H self Hs Hp.
  unfold bind at 1, Log.get_curr_path, bind, get, ret. rewrite Hp.
  now apply H.
Qed.

Lemma appends_key_to_ignore ig path (k : bool -> M unit) r es :
  appends_at ig path
    (k (existsb (String.eqb (normalize_path path)) ig)) r es ->
  appends_at ig path (ignored <- __key_to_ignore ;; k ignored) r es.
Proof.
  intros H self Hs Hp.
  unfold bind at 1, __key_to_ignore, bind, get, ret.
  rewrite Hp, (proj1 Hs). now apply H.
Qed.

Lemma thins_of path c : thins to_ignore c -> thins_at to_ignore path c.
Proof.
  intros (r & es & es0 & H & H0 & T). exists r, es, es0.
  repeat split; [now apply appends_of|now apply appends_of|exact T].
Qed.

Lemma thins_ret : thins to_ignore (ret tt).
Proof.
  exists (Ok tt), [], [].
  repeat split; [apply appends_ret|apply appends_ret|constructor].
Qed.

Lemma thins_raise e : thins to_ignore (raise e).
Proof.
  exists (Raise e), [], [].
  repeat split; [apply appends_raise|apply appends_raise|constructor].
Qed.

Lemma thins_record path entry : thins_at to_ignore path (Log.record entry).
Proof.
  exists (Ok tt), [entry path], [entry path].
  repeat split; [apply appends_record|apply appends_record|].
  apply thinned_refl.
Qed.

Lemma thins_bind c k :
  thins to_ignore c -> thins to_ignore k -> thins to_ignore (c ;; k).
Proof.
  intros (r1 & es1 & es01 & H1 & H01 & T1) (r2 & es2 & es02 & H2 & H02 & T2).
  exists (match r1 with Ok _ => r2 | Raise e => Raise e end),
         (match r1 with Ok _ => es1 ++ es2 | Raise _ => es1 end),
         (match r1 with Ok _ => es01 ++ es02 | Raise _ => es01 end).
  split; [now apply appends_bind|]. split; [now apply appends_bind|].
  destruct r1; [now apply thinned_app|exact T1].
Qed.

Lemma thins_setup_path item_path seg k :
  thins_at to_ignore (item_path ++ "." ++ seg) k ->
  thins to_ignore (Log.setup_path item_path seg ;; k).
Proof.
  intros (r & es & es0 & H & H0 & T). exists r, es, es0.
  repeat split; [now apply appends_setup_path|now apply appends_setup_path|].
  exact T.
Qed.

Lemma thins_lift {A} path (r0 : result A) (k : A -> M unit) :
  (forall a, r0 = Ok a -> thins_at to_ignore path (k a)) ->
  thins_at to_ignore path (x <- lift r0 ;; k x).
Proof.
  intros Hk. destruct r0 as [a|e].
  - exact (Hk a eq_refl).
  - apply thins_of. exact (thins_raise e).
Qed.

Lemma thins_lift_any {A} (r0 : result A) (k : A -> M unit) :
  (forall a, r0 = Ok a -> thins to_ignore (k a)) ->
  thins to_ignore (x <- lift r0 ;; k x).
Proof.
  intros Hk. destruct r0 as [a|e].
  - exact (Hk a eq_refl).
  - exact (thins_raise e).
Qed.

Lemma thins_get_curr_path path (k : string -> M unit) :
  thins_at to_ignore path (k path) ->
  thins_at to_ignore path (p <- Log.get_curr_path ;; k p).
Proof.
  intros (r & es & es0 & H & H0 & T). exists r, es, es0.
  repeat split;
    [now apply appends_get_curr_path|now apply appends_get_curr_path|].
  exact T.
Qed.

(** The one place where the list is read: the entry for two unequal scalars
    under a key is left out when the normalized path is listed. *)
Lemma thins_unless_ignored path val act :
  thins_at to_ignore path
    (ignored <- __key_to_ignore ;;
     if negb ignored then Log.unequal_values val act else ret tt).
Proof.
  destruct (existsb (String.eqb (normalize_path path)) to_ignore) eqn:Hex.
  - exists (Ok tt), [], [UnequalValues path val act]. repeat split.
    + apply appends_key_to_ignore. rewrite Hex. cbn [negb].
      apply appends_of, appends_ret.
    + apply appends_key_to_ignore. cbn [existsb negb].
      apply (appends_record [] path (fun p => UnequalValues p val act)).
    + apply thinned_drop; [now apply existsb_eqb_In|constructor].
  - exists (Ok tt), [UnequalValues path val act],
           [UnequalValues path val act]. repeat split.
    + apply appends_key_to_ignore. rewrite Hex. cbn [negb].
      apply (appends_record _ path (fun p => UnequalValues p val act)).
    + apply appends_key_to_ignore. cbn [existsb negb].
      apply (appends_record [] path (fun p => UnequalValues p val act)).
    + apply thinned_refl.
Qed.

Lemma thins_dicts_item rd rl item_path act_data key val :
  (forall path act, thins to_ignore (rd val path act)) ->
  (forall path act, thins to_ignore (rl val path act)) ->
  thins to_ignore (compare_dicts_item rd rl item_path act_data key val).
Proof.
  intros Hd Hl. unfold compare_dicts_item.
  apply thins_setup_path, thins_lift. intros present _.
  destruct present; cbn [negb]; [|apply thins_record].
  destruct val; apply thins_lift; intros act _;
    try (destruct (py_neb _ act);
         [apply thins_unless_ignored|apply thins_of, thins_ret]).
  - destruct (is_list act); [|apply thins_record].
    apply thins_get_curr_path, thins_of, Hl.
  - destruct (is_dict act); [|apply thins_record].
    apply thins_get_curr_path, thins_of, Hd.
Qed.

Lemma thins_items_order_item rd rl item_path act_data act_len idx val :
  (forall path act, thins to_ignore (rd val path act)) ->
  (forall path act, thins to_ignore (rl val path act)) ->
  thins to_ignore (items_order_item rd rl item_path act_data act_len idx val).
Proof.
  intros Hd Hl. unfold items_order_item.
  apply thins_setup_path.
  destruct (Nat.eqb idx act_len); [apply thins_record|].
  destruct val; apply thins_lift; intros act _;
    try (destruct (py_neb _ act);
         [apply thins_record|apply thins_of, thins_ret]).
  - destruct (is_list act); [|apply thins_record].
    apply thins_get_curr_path, thins_of, Hl.
  - destruct (is_dict act); [|apply thins_record].
    apply thins_get_curr_path, thins_of, Hd.
Qed.

Lemma thins_check_array_lengths item_path exp_len act_len :
  thins to_ignore (__check_array_lengths item_path exp_len act_len).
Proof.
  unfold __check_array_lengths. apply thins_setup_path.
  destruct (Nat.ltb act_len exp_len); [apply thins_record|].
  destruct (Nat.ltb exp_len act_len);
    [apply thins_record|apply thins_of, thins_ret].
Qed.

Lemma thins_for_enumerate body items :
  (forall idx val, In val items -> thins to_ignore (body idx val)) ->
  forall idx, thins to_ignore (for_enumerate body idx items).
Proof.
  induction items as [|val rest IH]; intros Hb idx; [apply thins_ret|].
  rewrite for_enumerate_cons. apply thins_bind.
  - apply Hb. now left.
  - apply IH. intros i v Hv. apply Hb. now right.
Qed.

Lemma thins_compare_lists_body rd rl item_path exp_data act_data items :
  (forall val path act, In val items -> thins to_ignore (rd val path act)) ->
  (forall val path act, In val items -> thins to_ignore (rl val path act)) ->
  thins to_ignore (compare_lists_body rd rl item_path exp_data act_data items).
Proof.
  intros Hd Hl.
  assert (H : thins to_ignore
                (__compare_with_items_order_respect rd rl item_path
                   exp_data act_data items)).
  { unfold __compare_with_items_order_respect.
    apply thins_lift_any. intros exp_len _.
    apply thins_lift_any. intros act_len _.
    apply thins_bind; [apply thins_check_array_lengths|].
    apply thins_for_enumerate. intros idx val Hin.
    apply thins_items_order_item; intros; [now apply Hd|now apply Hl]. }
  destruct H as (r & es & es0 & H & H0 & T). exists r, es, es0.
  repeat split; [| |exact T]; intros self Hs;
    unfold compare_lists_body, bind, get; rewrite (proj2 Hs);
    [now apply H|now apply H0].
Qed.

(** Both recursive methods, on any two values. *)
Lemma thins_compare exp_data :
  (forall path act, thins to_ignore (_compare_dicts path exp_data act)) /\
  (forall path act, thins to_ignore (_compare_lists path exp_data act)).
Proof.
  induction exp_data as [| | | | |l IH|d IH] using value_nested_ind;
    split; intros path act;
    try apply thins_raise;
    try (apply thins_compare_lists_body; intros; apply thins_ret).
  - rewrite compare_lists_list. rewrite Forall_forall in IH.
    apply thins_compare_lists_body; intros val p a Hin;
      now apply (IH val Hin).
  - induction d as [|[key val] rest IHr];
      [rewrite compare_dicts_nil; apply thins_ret|].
    rewrite compare_dicts_cons. inversion IH as [|? ? Hval Hrest]; subst.
    apply thins_bind; [|now apply IHr].
    apply thins_dicts_item; intros; now apply Hval.
Qed.

End thinning.

(** A pass with the ignore list and with an empty one. *)
Lemma pass_thins left_ right_ to_ignore with_actual :
  exists r es es0,
    thinned to_ignore es es0 /\
    (forall self,
       left_data self = left_ -> right_data self = right_ ->
       configured to_ignore self ->
       exists p, __compare with_actual self =
                 (r, with_log p (log (diff_log self) ++ es) self)) /\
    (forall self,
       left_data self = left_ -> right_data self = right_ ->
       configured [] self ->
       exists p, __compare with_actual self =
                 (r, with_log p (log (diff_log self) ++ es0) self)).
Proof.
  set (data1 := if with_actual then left_ else right_).
  set (data2 := if with_actual then right_ else left_).
  set (root_log := if with_actual then "RIGHT" else "LEFT").
  destruct (thins_compare to_ignore data1) as [Hd Hl].
  assert (Hrun : forall self,
             left_data self = left_ -> right_data self = right_ ->
             __compare with_actual self =
             match left_ with
             | VDict _ => _compare_dicts root_log data1 data2 self
             | VList _ => _compare_lists root_log data1 data2 self
             | _ => raise RuntimeError self
             end).
  { intros self <- <-. unfold __compare, bind, get, data1, data2, root_log.
    destruct with_actual; destruct (left_data self); reflexivity. }
  assert (Hall : forall c,
            thins to_ignore c ->
            (forall self, left_data self = left_ -> right_data self = right_ ->
                          __compare with_actual self = c self) ->
            exists r es es0,
              thinned to_ignore es es0 /\
              (forall self,
                 left_data self = left_ -> right_data self = right_ ->
                 configured to_ignore self ->
                 exists p, __compare with_actual self =
                           (r, with_log p (log (diff_log self) ++ es) self)) /\
              (forall self,
                 left_data self = left_ -> right_data self = right_ ->
                 configured [] self ->
                 exists p, __compare with_actual self =
                           (r, with_log p (log (diff_log self) ++ es0) self))).
  { intros c (r & es & es0 & H & H0 & T) Hc. exists r, es, es0.
    split; [exact T|].
    split; intros self H1 H2 Hs; rewrite (Hc self H1 H2);
      [now apply H|now apply H0]. }
  destruct left_ as [| | | | |l|d].
  1-5: (apply (Hall (raise RuntimeError) (thins_raise to_ignore RuntimeError));
        intros self H1 H2; now rewrite (Hrun self H1 H2)).
  - apply (Hall _ (Hl root_log data2)).
    intros self H1 H2. now rewrite (Hrun self H1 H2).
  - apply (Hall _ (Hd root_log data2)).
    intros self H1 H2. now rewrite (Hrun self H1 H2).
Qed.

(** The ignore list does not change how an operation ends, and it removes
    nothing from the log but entries for unequal values at paths whose
    normalized form is on the list: the log of a comparator with the list is
    the log of a comparator of the same two documents with an empty list,
    thinned. *)
Theorem ignore_list_only_thins to_ignore self self0 :
  configured to_ignore self -> configured [] self0 ->
  left_data self0 = left_data self -> right_data self0 = right_data self ->
  (fst (outcome compare_with_right self) =
     fst (outcome compare_with_right self0) /\
   thinned to_ignore (snd (outcome compare_with_right self))
     (snd (outcome compare_with_right self0))) /\
  (fst (outcome compare_with_left self) =
     fst (outcome compare_with_left self0) /\
   thinned to_ignore (snd (outcome compare_with_left self))
     (snd (outcome compare_with_left self0))) /\
  (fst (outcome full_compare self) = fst (outcome full_compare self0) /\
   thinned to_ignore (snd (outcome full_compare self))
     (snd (outcome full_compare self0))).
Proof.
  intros Hs Hs0 El Er.
  destruct (pass_thins (left_data self) (right_data self) to_ignore true)
    as (r1 & es1 & es01 & T1 & H1 & H01).
  destruct (pass_thins (left_data self) (right_data self) to_ignore false)
    as (r2 & es2 & es02 & T2 & H2 & H02).
  assert (Hpass : forall (b : bool) ig s (r : result unit) es,
            configured ig s ->
            (forall s',
               left_data s' = left_data s -> right_data s' = right_data s ->
               configured ig s' ->
               exists p, __compare b s' =
                         (r, with_log p (log (diff_log s') ++ es) s')) ->
            forall t p L, exists q,
              __compare b (set_target_property t (with_log p L s)) =
              (r, with_log q (L ++ es) (set_target_property t s))).
  { intros b ig s r es Hc H t p L.
    destruct (H (set_target_property t (with_log p L s)) eq_refl eq_refl Hc)
      as [q Hq].
    exists q. rewrite Hq. reflexivity. }
  destruct (outcomes_of_passes self r1 es1 r2 es2
              (Hpass true _ self _ _ Hs H1) (Hpass false _ self _ _ Hs H2))
    as (-> & -> & ->).
  assert (H01' : forall s', left_data s' = left_data self0 ->
                   right_data s' = right_data self0 -> configured [] s' ->
                   exists p, __compare true s' =
                     (r1, with_log p (log (diff_log s') ++ es01) s')).
  { intros s' A B. apply H01; congruence. }
  assert (H02' : forall s', left_data s' = left_data self0 ->
                   right_data s' = right_data self0 -> configured [] s' ->
                   exists p, __compare false s' =
                     (r2, with_log p (log (diff_log s') ++ es02) s')).
  { intros s' A B. apply H02; congruence. }
  destruct (outcomes_of_passes self0 r1 es01 r2 es02
              (Hpass true _ self0 _ _ Hs0 H01')
              (Hpass false _ self0 _ _ Hs0 H02'))
    as (-> & -> & ->).
  cbn [fst snd]. repeat split; try assumption.
  - now destruct r1.
  - destruct r1; cbn [snd]; [now apply thinned_app|exact T1].
Qed.

(** [{"a": 1, "b": 2}] against [{"a": 9, "b": 8}]: ignoring [DATA.a] leaves
    out the entry for [a] and nothing else. *)
Lemma ignore_list_thins_witness :
  configured ["DATA.a"] ignoring_a /\
  configured [] Cases.not_ignoring_a /\
  snd (outcome compare_with_right Cases.not_ignoring_a) =
    [UnequalValues "RIGHT.a" (VInt 1) (VInt 9);
     UnequalValues "RIGHT.b" (VInt 2) (VInt 8)] /\
  thinned ["DATA.a"] (snd (outcome compare_with_right ignoring_a))
    (snd (outcome compare_with_right Cases.not_ignoring_a)).
Proof.
  split; [split; reflexivity|]. split; [split; reflexivity|].
  split; [reflexivity|].
  apply (ignore_list_only_thins ["DATA.a"] ignoring_a Cases.not_ignoring_a);
    try reflexivity; split; reflexivity.
Defined.

(* ===================================================================== *)
(** ** A document against itself *)
(* ===================================================================== *)

Lemma float_eqb_refl_iff f :
  float_eqb f f = true <-> nan_free (VFloat f) = true.
Proof.
  destruct f as [|s|m e]; cbn [float_eqb nan_free].
  - tauto.
  - now destruct s.
  - now rewrite dyadic_eqb_refl.
Qed.

Lemma Forall2_diag {A} (R : A -> A -> Prop) l :
  Forall2 R l l <-> Forall (fun x => R x x) l.
Proof.
  induction l as [|x xs IH]; [split; constructor|].
  split; intros H; inversion H; subst; constructor; try assumption;
    now apply IH.
Qed.

(** A value conforms to itself exactly when it holds no NaN. *)
Lemma conforms_refl_iff v :
  keys_once v = true -> (conforms v v = true <-> nan_free v = true).
Proof.
  induction v as [|x|x|x|x|l IH|d IH] using value_nested_ind; intros K.
  - tauto.
  - cbn. now destruct x.
  - cbn. now rewrite Z.eqb_refl.
  - apply float_eqb_refl_iff.
  - cbn. now rewrite String.eqb_refl.
  - rewrite conforms_list_iff, Forall2_diag, Forall_forall.
    cbn [nan_free keys_once] in *.
    rewrite forallb_forall in K. rewrite forallb_forall.
    rewrite Forall_forall in IH.
    split; intros H x Hx; apply (IH x Hx (K x Hx)); now apply H.
  - rewrite conforms_dict_iff. cbn [nan_free]. rewrite forallb_forall.
    assert (Dd : distinct (map fst d) = true)
      by (cbn [keys_once] in K; now apply andb_prop in K as [? _]).
    assert (Kv : forall kv, In kv d -> keys_once (snd kv) = true).
    { cbn [keys_once] in K. apply andb_prop in K as [_ K].
      now rewrite forallb_forall in K. }
    rewrite Forall_forall in IH. rewrite Forall_forall. split.
    + intros H [k v] Hin. destruct (H _ Hin) as (w & L & E).
      cbn [fst snd] in *.
      rewrite (lookup_distinct d k v Dd Hin) in L. inversion L; subst w.
      now apply (IH _ Hin (Kv _ Hin)).
    + intros H [k v] Hin. exists v.
      split; [now apply lookup_distinct|].
      apply (IH _ Hin (Kv _ Hin)). now apply H.
Qed.

(** With an empty ignore list, an object or an array whose objects hold each
    key once, compared with itself: each operation returns with an empty log
    exactly when the document holds no NaN. *)
Theorem self_comparison_quiet_iff_no_nan self :
  configured [] self ->
  right_data self = left_data self ->
  object_or_array (left_data self) = true ->
  keys_once (left_data self) = true ->
  (outcome compare_with_right self = (Ok tt, []) <->
   nan_free (left_data self) = true) /\
  (outcome compare_with_left self = (Ok tt, []) <->
   nan_free (left_data self) = true) /\
  (outcome full_compare self = (Ok tt, []) <->
   nan_free (left_data self) = true).
Proof.
  intros Hs Er Hroot K.
  assert (Hroot' : same_root (left_data self) (right_data self) = true).
  { rewrite Er. unfold same_root. destruct (left_data self);
      try discriminate; reflexivity. }
  destruct (public_verdicts [] self Hs Hroot')
    as (r1 & es1 & r2 & es2 & [T1 F1] & [T2 F2] & -> & -> & ->).
  rewrite Er in T1, F1, T2, F2.
  rewrite <- (conforms_refl_iff _ K).
  destruct (conforms (left_data self) (left_data self)).
  - destruct (T1 eq_refl) as [-> ->]. destruct (T2 eq_refl) as [-> ->].
    cbn [app]. tauto.
  - assert (N1 := F1 eq_refl eq_refl). assert (N2 := F2 eq_refl eq_refl).
    split; [|split]; (split; [intros E|discriminate]).
    + inversion E. congruence.
    + inversion E. congruence.
    + destruct r1 as [[]|e]; [|discriminate]. inversion E as [[Hr He]].
      apply app_eq_nil in He as [He _]. congruence.
Qed.

(** [{"a": [NaN]}] compared with itself is not quiet. *)
Lemma self_comparison_nan_witness :
  configured [] Cases.nan_inside /\
  outcome full_compare Cases.nan_inside <> (Ok tt, []).
Proof.
  split; [split; reflexivity|]. intros E.
  apply (self_comparison_quiet_iff_no_nan Cases.nan_inside) in E;
    [discriminate E|split; reflexivity|reflexivity..].
Defined.

(* ===================================================================== *)
(** ** Normalized paths *)
(* ===================================================================== *)

Section root_labels.
Local Open Scope string_scope.

(** A word does not begin inside a text that lacks its first character. *)
Lemma str_contains_after t0 t' w s :
  occurs t0 w = false ->
  str_contains (String t0 t') s = false ->
  str_contains (String t0 t') (w ++ s) = false.
Proof.
  intros Hw Hs. induction w as [|a w IH]; [exact Hs|].
  cbn [occurs] in Hw. apply orb_false_elim in Hw as [Ha Hw].
  cbn [append str_contains]. rewrite (IH Hw), orb_false_r.
  simpl. destruct (ascii_dec t0 a) as [E|]; [|reflexivity].
  rewrite E, Ascii.eqb_refl in Ha. discriminate.
Qed.

Lemma str_contains_drop t k : forall s,
  str_contains t s = false -> str_contains t (str_drop k s) = false.
Proof.
  induction k as [|k IH]; intros s H; [exact H|].
  destruct s as [|c r]; [exact H|]. cbn [str_drop]. apply IH.
  cbn [str_contains] in H. now apply orb_false_elim in H.
Qed.

Lemma str_drop_shorter k c r :
  String.length (str_drop (S k) (String c r)) < String.length (String c r).
Proof.
  cbn [str_drop String.length]. revert r.
  induction k as [|k IH]; intros r; [cbn [str_drop]; lia|].
  destruct r as [|c' r']; cbn [str_drop String.length]; [lia|].
  specialize (IH r'). lia.
Qed.

(** A word that the text lacks is not made by a replacement, when the word
    and the new text do not hold each other's first character. *)
Lemma replace_makes_no t0 t' o old' n new' s :
  let t := String t0 t' in
  let new := String n new' in
  occurs t0 new = false -> occurs n t = false ->
  str_contains t s = false ->
  str_contains t (replace (String o old') new s) = false.
Proof.
  intros t new Hnew Ht.
  remember (String.length s) as m eqn:Hm.
  revert s Hm. induction m as [m IH] using lt_wf_ind. intros s Hm Hs.
  destruct s as [|c r]; [exact Hs|].
  destruct (String.prefix (String o old') (String c r)) eqn:HA.
  - rewrite (replace_at_prefix _ _ _ _ _ HA).
    apply str_contains_after; [exact Hnew|].
    apply (IH (String.length (str_drop (String.length (String o old'))
                                (String c r)))).
    + subst m. apply str_drop_shorter.
    + reflexivity.
    + now apply str_contains_drop.
  - assert (Hp : String.prefix t (replace (String o old') new (String c r))
                 = false).
    { destruct (String.prefix t _) eqn:E; [|reflexivity].
      apply (prefix_of_replaced o n old' new' t Ht) in E.
      cbn [str_contains] in Hs. apply orb_false_elim in Hs as [Hs _].
      congruence. }
    rewrite (replace_off_prefix _ _ _ _ HA) in Hp |- *.
    cbn [str_contains]. rewrite Hp. cbn [orb].
    apply (IH (String.length r)); [subst m; simpl; lia|reflexivity|].
    cbn [str_contains] in Hs. now apply orb_false_elim in Hs.
Qed.

(** A replacement leaves no occurrence of the old text, when the old text
    and the new one do not hold each other's first character. *)
Lemma replace_leaves_no o old' n new' s :
  let old := String o old' in
  let new := String n new' in
  occurs o new = false -> occurs n old' = false ->
  str_contains old (replace old new s) = false.
Proof.
  intros old new Hnew Hold.
  remember (String.length s) as m eqn:Hm.
  revert s Hm. induction m as [m IH] using lt_wf_ind. intros s Hm.
  destruct s as [|c r]; [reflexivity|].
  destruct (String.prefix old (String c r)) eqn:HA.
  - rewrite (replace_at_prefix _ _ _ _ _ HA).
    apply str_contains_after; [exact Hnew|].
    apply (IH (String.length (str_drop (String.length old) (String c r)))).
    + subst m. apply str_drop_shorter.
    + reflexivity.
  - rewrite (replace_off_prefix _ _ _ _ HA).
    cbn [str_contains].
    rewrite (IH (String.length r)); [|subst m; simpl; lia|reflexivity].
    rewrite orb_false_r.
    destruct (String.prefix old (String c (replace old new r))) eqn:E;
      [|reflexivity].
    simpl in E. destruct (ascii_dec o c) as [<-|]; [|discriminate].
    apply (prefix_of_replaced o n old' new' old' Hold) in E.
    simpl in HA. destruct (ascii_dec o o); congruence.
Qed.

(** The normalized form of a path holds neither root label. *)
Lemma normalize_path_no_root path :
  str_contains "RIGHT" (normalize_path path) = false /\
  str_contains "LEFT" (normalize_path path) = false.
Proof.
  unfold normalize_path. split.
  - apply (replace_makes_no "R" "IGHT" "L" "EFT" "D" "ATA");
      [reflexivity..|].
    apply (replace_leaves_no "R" "IGHT" "D" "ATA"); reflexivity.
  - apply (replace_leaves_no "L" "EFT" "D" "ATA"); reflexivity.
Qed.

End root_labels.

(** An entry of the ignore list that holds RIGHT or LEFT anywhere in its
    text matches no path: when every entry does, [__key_to_ignore] answers
    False wherever the cursor is. *)
Theorem entries_naming_a_root_never_match self :
  Forall (fun entry => str_contains "RIGHT" entry || str_contains "LEFT" entry
                       = true)
    (properties_to_ignore self) ->
  __key_to_ignore self = (Ok false, self).
Proof.
  intros H. unfold __key_to_ignore, bind, get, ret.
  destruct (existsb _ (properties_to_ignore self)) eqn:E; [|reflexivity].
  apply existsb_eqb_In in E. rewrite Forall_forall in H. apply H in E.
  destruct (normalize_path_no_root (curr_path (diff_log self))) as [R L].
  rewrite R, L in E. discriminate E.
Qed.

(** The keys COPYRIGHT and LEFTOVERS cannot be ignored: with the cursor at
    the first of them the answer is False. *)
Lemma entries_naming_a_root_witness :
  properties_to_ignore Cases.ignoring_copyright =
    ["DATA.COPYRIGHT"; "DATA.LEFTOVERS"] /\
  __key_to_ignore (with_log "RIGHT.COPYRIGHT" [] Cases.ignoring_copyright) =
  (Ok false, with_log "RIGHT.COPYRIGHT" [] Cases.ignoring_copyright).
Proof.
  split; [reflexivity|].
  apply (entries_naming_a_root_never_match
           (with_log "RIGHT.COPYRIGHT" [] Cases.ignoring_copyright)).
  repeat constructor.
Defined.

Section rooted_paths.
Local Open Scope string_scope.

(** A replacement changes nothing in a text that lacks the old text. *)
Lemma replace_absent o old' new s :
  str_contains (String o old') s = false ->
  replace (String o old') new s = s.
Proof.
  induction s as [|c r IH]; intros H; [reflexivity|].
  cbn [str_contains] in H. apply orb_false_elim in H as [Hp Hr].
  rewrite (replace_off_prefix _ _ _ _ Hp). f_equal. now apply IH.
Qed.

(** The substitution passes over a beginning that holds no opening
    bracket. *)
Lemma strip_indices_after w s :
  occurs "[" w = false ->
  strip_indices (w ++ s) = w ++ strip_indices s.
Proof.
  unfold strip_indices. induction w as [|c w IH]; intros H; [reflexivity|].
  cbn [occurs] in H. apply orb_false_elim in H as [Hc Hw].
  cbn [append sub_from]. rewrite Ascii.eqb_sym in Hc. rewrite Hc.
  f_equal. now apply IH.
Qed.

End rooted_paths.

(** The path of a property in either pass has the same normalized form, the
    one rooted at DATA: for the rest [s] of a path after its root label, the
    form is DATA followed by [s] without its indices, provided the stripped
    rest holds neither RIGHT nor LEFT. *)
Theorem normalize_path_of_rooted (s : string) :
  str_contains "RIGHT" (strip_indices s) = false ->
  str_contains "LEFT" (strip_indices s) = false ->
  normalize_path ("RIGHT" ++ s) = ("DATA" ++ strip_indices s)%string /\
  normalize_path ("LEFT" ++ s) = ("DATA" ++ strip_indices s)%string.
Proof.
  intros HR HL. unfold normalize_path. split.
  - rewrite (strip_indices_after "RIGHT" s eq_refl).
    rewrite (replace_at_occurrence "R" "IGHT" "DATA" (strip_indices s)).
    rewrite (replace_absent "R" "IGHT" "DATA" _ HR).
    apply replace_absent.
    now apply (str_contains_after "L" "EFT" "DATA").
  - rewrite (strip_indices_after "LEFT" s eq_refl).
    rewrite (replace_absent "R" "IGHT" "DATA").
    + rewrite (replace_at_occurrence "L" "EFT" "DATA" (strip_indices s)).
      now rewrite (replace_absent "L" "EFT" "DATA" _ HL).
    + now apply (str_contains_after "R" "IGHT" "LEFT").
Qed.

(** The path of the key [b] of an item of the array under [a]. *)
Lemma normalize_path_witness :
  str_contains "RIGHT" (strip_indices ".a.<array>[12].b") = false /\
  str_contains "LEFT" (strip_indices ".a.<array>[12].b") = false /\
  normalize_path "RIGHT.a.<array>[12].b" = "DATA.a.<array>.b" /\
  normalize_path "LEFT.a.<array>[12].b" = "DATA.a.<array>.b".
Proof.
  split; [reflexivity|]. split; [reflexivity|].
  exact (normalize_path_of_rooted ".a.<array>[12].b" eq_refl eq_refl).
Defined.

(* ===================================================================== *)
(** ** One operation after another *)
(* ===================================================================== *)

(** What a public operation leaves of the comparator: the target property
    and the recorder may have changed, nothing else. *)
Lemma public_state op self :
  In op [compare_with_right; compare_with_left; full_compare] ->
  exists t p L, snd (op self) = set_target_property t (with_log p L self).
Proof.
  assert (Hpass : forall (b : bool) s (k : unit -> M unit),
             exists (r : result unit) p es,
               bind (__compare b) k s =
               match r with
               | Ok _ => k tt (with_log p (log (diff_log s) ++ es) s)
               | Raise e =>
                   (Raise e, with_log p (log (diff_log s) ++ es) s)
               end).
  { intros b s k. destruct (compare_below_root b s) as (r & p & es & E & _).
    exists r, p, es.
    destruct r as [[]|e];
      [now rewrite (bind_ok _ _ _ _ _ E)
      |now rewrite (bind_raise _ _ _ _ _ E)]. }
  intros [<-|[<-|[<-|[]]]].
  - unfold compare_with_right.
    rewrite (bind_ok _ _ _ _ _ (clear_run _)).
    rewrite (bind_ok _ _ _ _ _ (edit_target_run _ _ _)).
    match goal with
    | |- context [bind (__compare ?b) ?k ?s] =>
        destruct (Hpass b s k) as (r & p & es & ->)
    end.
    destruct r as [[]|e]; eexists _, _, _; reflexivity.
  - unfold compare_with_left.
    rewrite (bind_ok _ _ _ _ _ (clear_run _)).
    rewrite (bind_ok _ _ _ _ _ (edit_target_run _ _ _)).
    match goal with
    | |- context [bind (__compare ?b) ?k ?s] =>
        destruct (Hpass b s k) as (r & p & es & ->)
    end.
    destruct r as [[]|e]; eexists _, _, _; reflexivity.
  - unfold full_compare.
    rewrite (bind_ok _ _ _ _ _ (clear_run _)).
    rewrite (bind_ok _ _ _ _ _ (edit_target_run _ _ _)).
    match goal with
    | |- context [bind (__compare ?b) ?k ?s] =>
        destruct (Hpass b s k) as (r & p & es & ->)
    end.
    destruct r as [[]|e]; [|eexists _, _, _; reflexivity].
    rewrite (bind_ok _ _ _ _ _ (edit_target_run _ _ _)).
    match goal with
    | |- context [bind (__compare ?b) ?k ?s] =>
        destruct (Hpass b s k) as (r' & p' & es' & ->)
    end.
    destruct r' as [[]|e']; eexists _, _, _; reflexivity.
Qed.

(** A public operation gives the same result and the same log whichever
    public operations were called on the comparator before it, and however
    they ended: nothing that an operation leaves behind (the entries, the
    cursor, the rewritten target property) reaches the next one. *)
Theorem operations_do_not_interfere :
  forall (self : JSONComparator) (before op : M unit),
    target_key_path self = None ->
    In before [compare_with_right; compare_with_left; full_compare] ->
    In op [compare_with_right; compare_with_left; full_compare] ->
    outcome op (snd (before self)) = outcome op self.
Proof.
  intros self before op Hk Hb Hop.
  destruct (public_state before self Hb) as (t & p & L & ->).
  destruct (public_outcomes (left_data self) (right_data self)
              (properties_to_ignore self))
    as (r1 & es1 & r2 & es2 & H).
  destruct (H self eq_refl eq_refl (conj eq_refl Hk)) as (Hr & Hl & Hf).
  destruct (H (set_target_property t (with_log p L self)) eq_refl eq_refl
              (conj eq_refl Hk)) as (Hr' & Hl' & Hf').
  destruct Hop as [<-|[<-|[<-|[]]]]; congruence.
Qed.

(** [compare_with_left] after a [compare_with_right] that raised. *)
Lemma operations_do_not_interfere_witness :
  target_key_path Cases.three_against_one = None /\
  fst (outcome compare_with_right Cases.three_against_one) =
    Raise IndexError /\
  outcome compare_with_left
    (snd (compare_with_right Cases.three_against_one)) =
  outcome compare_with_left Cases.three_against_one.
Proof.
  split; [reflexivity|]. split; [reflexivity|].
  apply (operations_do_not_interfere Cases.three_against_one
           compare_with_right compare_with_left);
    [reflexivity|now left|right; now left].
Defined.

(* ===================================================================== *)
(** ** The identifying key *)
(* ===================================================================== *)

Lemma str_contains_char c s :
  occurs c s = false -> str_contains (String c "") s = false.
Proof.
  induction s as [|a r IH]; intros H; [reflexivity|].
  cbn [occurs] in H. apply orb_false_elim in H as [Ha Hr].
  cbn [str_contains]. rewrite (IH Hr), orb_false_r. simpl.
  destruct (ascii_dec c a) as [E|]; [|reflexivity].
  rewrite E, Ascii.eqb_refl in Ha. discriminate.
Qed.

(** When the target property is the path of the cursor without its indices,
    then a dot and a key without dots, [__get_target_prop_value] resolves
    that key: it returns the key with the value the expected object holds
    under it, and raises KeyError if the object lacks the key.  The
    comparator is left as it was. *)
Theorem target_key_is_resolved_from_cursor self stem key d :
  strip_indices (curr_path (diff_log self)) = stem ->
  target_property self = (stem ++ "." ++ key)%string ->
  occurs "." key = false ->
  __get_target_prop_value (VDict d) self =
  match lookup key d with
  | Some v => (Ok (key, v), self)
  | None => (Raise KeyError, self)
  end.
Proof.
  intros Hstem Htarget Hkey.
  unfold __get_target_prop_value, bind, get, lift, ret, getitem_key.
  rewrite Hstem, Htarget. unfold removeprefix.
  rewrite prefix_app, str_drop_app.
  rewrite (replace_at_occurrence "." "" "" key
           : replace "." "" ("." ++ key) = _).
  cbn [append].
  rewrite (replace_absent "." "" "" key (str_contains_char _ _ Hkey)).
  now destruct (lookup key d).
Qed.

(** The first cat of the docstring of [__init__]: the key is [id]. *)
Lemma target_key_witness :
  strip_indices (curr_path (diff_log Cases.at_first_cat)) =
    "RIGHT.cats.<array>" /\
  target_property Cases.at_first_cat = "RIGHT.cats.<array>.id" /\
  __get_target_prop_value (VDict [("id", VInt 4)]) Cases.at_first_cat =
    (Ok ("id", VInt 4), Cases.at_first_cat) /\
  __get_target_prop_value (VDict [("name", VStr "Nyan")]) Cases.at_first_cat =
    (Raise KeyError, Cases.at_first_cat).
Proof.
  split; [reflexivity|]. split; [reflexivity|]. split.
  - exact (target_key_is_resolved_from_cursor Cases.at_first_cat
             "RIGHT.cats.<array>" "id" [("id", VInt 4)]
             eq_refl eq_refl eq_refl).
  - exact (target_key_is_resolved_from_cursor Cases.at_first_cat
             "RIGHT.cats.<array>" "id" [("name", VStr "Nyan")]
             eq_refl eq_refl eq_refl).
Defined.

(* ===================================================================== *)
(** ** The two passes side by side *)
(* ===================================================================== *)

Section both_roots.
Local Open Scope string_scope.

Lemma to_left_of_right rest : to_left ("RIGHT" ++ rest) = "LEFT" ++ rest.
Proof.
  unfold to_left. rewrite prefix_app.
  now rewrite (str_drop_app "RIGHT" rest).
Qed.

(** A replacement passes over a beginning that lacks the first character of
    the old text. *)
Lemma replace_after o old' new w s :
  occurs o w = false ->
  replace (String o old') new (w ++ s) = w ++ replace (String o old') new s.
Proof.
  induction w as [|a w IH]; intros H; [reflexivity|].
  cbn [occurs] in H. apply orb_false_elim in H as [Ha Hw].
  cbn [append]. rewrite replace_off_prefix.
  - f_equal. now apply IH.
  - simpl. destruct (ascii_dec o a) as [E|]; [|reflexivity].
    rewrite E, Ascii.eqb_refl in Ha. discriminate.
Qed.

(** The path of a property has the same normalized form in both passes. *)
Lemma normalize_path_either_root rest :
  normalize_path ("LEFT" ++ rest) = normalize_path ("RIGHT" ++ rest).
Proof.
  unfold normalize_path.
  rewrite (strip_indices_after "RIGHT" rest eq_refl).
  rewrite (strip_indices_after "LEFT" rest eq_refl).
  rewrite (replace_at_occurrence "R" "IGHT" "DATA" (strip_indices rest)).
  rewrite (replace_after "R" "IGHT" "DATA" "LEFT" _ eq_refl).
  rewrite (replace_at_occurrence "L" "EFT" "DATA").
  now rewrite (replace_after "L" "EFT" "DATA" "DATA" _ eq_refl).
Qed.

End both_roots.

Section mirror.

Variable to_ignore : list string.

Local Abbreviation moved := (map (at_path to_left)).

Lemma mirrored_of rest c1 c0 :
  mirrored to_ignore c1 c0 -> mirrored_at to_ignore rest c1 c0.
Proof.
  intros (r & es & H0 & H1). exists r, es.
  split; now apply appends_of.
Qed.

Lemma mirrored_ret : mirrored to_ignore (ret tt) (ret tt).
Proof. exists (Ok tt), []. split; apply appends_ret. Qed.

Lemma mirrored_raise e : mirrored to_ignore (raise e) (raise e).
Proof. exists (Raise e), []. split; apply appends_raise. Qed.

Lemma mirrored_record rest entry :
  (forall p, at_path to_left (entry p) = entry (to_left p)) ->
  mirrored_at to_ignore rest (Log.record entry) (Log.record entry).
Proof.
  intros He. exists (Ok tt), [entry ("RIGHT" ++ rest)%string].
  split; [apply appends_record|].
  cbn [map]. rewrite He, to_left_of_right. apply appends_record.
Qed.

Lemma mirrored_bind c1 c0 k1 k0 :
  mirrored to_ignore c1 c0 -> mirrored to_ignore k1 k0 ->
  mirrored to_ignore (c1 ;; k1) (c0 ;; k0).
Proof.
  intros (r & es & H0 & H1) (r' & es' & K0 & K1).
  exists (match r with Ok _ => r' | Raise e => Raise e end),
         (match r with Ok _ => es ++ es' | Raise _ => es end).
  split; [now apply appends_bind|].
  replace (moved (match r with Ok _ => es ++ es' | Raise _ => es end))
    with (match r with Ok _ => moved es ++ moved es' | Raise _ => moved es end)
    by (destruct r; [now rewrite map_app|reflexivity]).
  now apply appends_bind.
Qed.

Lemma mirrored_setup_path rest seg k1 k0 :
  mirrored_at to_ignore (rest ++ "." ++ seg) k1 k0 ->
  mirrored to_ignore
    (Log.setup_path ("LEFT" ++ rest) seg ;; k1)
    (Log.setup_path ("RIGHT" ++ rest) seg ;; k0).
Proof.
  intros (r & es & H0 & H1). exists r, es.
  split; apply appends_setup_path; [exact H0|exact H1].
Qed.

Lemma mirrored_lift {A} rest (r0 : result A) (k1 k0 : A -> M unit) :
  (forall a, r0 = Ok a -> mirrored_at to_ignore rest (k1 a) (k0 a)) ->
  mirrored_at to_ignore rest (x <- lift r0 ;; k1 x) (x <- lift r0 ;; k0 x).
Proof.
  intros Hk. destruct r0 as [a|e].
  - exact (Hk a eq_refl).
  - apply mirrored_of. exact (mirrored_raise e).
Qed.

Lemma mirrored_lift_any {A} (r0 : result A) (k1 k0 : A -> M unit) :
  (forall a, r0 = Ok a -> mirrored to_ignore (k1 a) (k0 a)) ->
  mirrored to_ignore (x <- lift r0 ;; k1 x) (x <- lift r0 ;; k0 x).
Proof.
  intros Hk. destruct r0 as [a|e].
  - exact (Hk a eq_refl).
  - exact (mirrored_raise e).
Qed.

Lemma mirrored_get_curr_path rest (k1 k0 : string -> M unit) :
  mirrored_at to_ignore rest
    (k1 ("LEFT" ++ rest)%string) (k0 ("RIGHT" ++ rest)%string) ->
  mirrored_at to_ignore rest
    (p <- Log.get_curr_path ;; k1 p) (p <- Log.get_curr_path ;; k0 p).
Proof.
  intros (r & es & H0 & H1). exists r, es.
  split; now apply appends_get_curr_path.
Qed.

(** The ignore test answers the same in both passes. *)
Lemma mirrored_key_to_ignore rest (k1 k0 : bool -> M unit) :
  (forall b, mirrored_at to_ignore rest (k1 b) (k0 b)) ->
  mirrored_at to_ignore rest
    (ignored <- __key_to_ignore ;; k1 ignored)
    (ignored <- __key_to_ignore ;; k0 ignored).
Proof.
  intros H.
  destruct (H (existsb (String.eqb (normalize_path ("RIGHT" ++ rest)))
                 to_ignore)) as (r & es & H0 & H1).
  exists r, es. split; apply appends_key_to_ignore; [exact H0|].
  now rewrite normalize_path_either_root.
Qed.

Lemma mirrored_dicts_item rd rl rest act_data key val :
  (forall s act, mirrored to_ignore
                   (rd val ("LEFT" ++ s)%string act)
                   (rd val ("RIGHT" ++ s)%string act)) ->
  (forall s act, mirrored to_ignore
                   (rl val ("LEFT" ++ s)%string act)
                   (rl val ("RIGHT" ++ s)%string act)) ->
  mirrored to_ignore
    (compare_dicts_item rd rl ("LEFT" ++ rest) act_data key val)
    (compare_dicts_item rd rl ("RIGHT" ++ rest) act_data key val).
Proof.
  intros Hd Hl. unfold compare_dicts_item.
  apply mirrored_setup_path, mirrored_lift. intros present _.
  destruct present; cbn [negb]; [|now apply mirrored_record].
  destruct val; apply mirrored_lift; intros act _;
    try (destruct (py_neb _ act);
         [apply mirrored_key_to_ignore; intros [|]; cbn [negb];
          [apply mirrored_of, mirrored_ret|now apply mirrored_record]
         |apply mirrored_of, mirrored_ret]).
  - destruct (is_list act); [|now apply mirrored_record].
    apply mirrored_get_curr_path, mirrored_of, Hl.
  - destruct (is_dict act); [|now apply mirrored_record].
    apply mirrored_get_curr_path, mirrored_of, Hd.
Qed.

Lemma mirrored_items_order_item rd rl rest act_data act_len idx val :
  (forall s act, mirrored to_ignore
                   (rd val ("LEFT" ++ s)%string act)
                   (rd val ("RIGHT" ++ s)%string act)) ->
  (forall s act, mirrored to_ignore
                   (rl val ("LEFT" ++ s)%string act)
                   (rl val ("RIGHT" ++ s)%string act)) ->
  mirrored to_ignore
    (items_order_item rd rl ("LEFT" ++ rest) act_data act_len idx val)
    (items_order_item rd rl ("RIGHT" ++ rest) act_data act_len idx val).
Proof.
  intros Hd Hl. unfold items_order_item.
  apply mirrored_setup_path.
  destruct (Nat.eqb idx act_len); [now apply mirrored_record|].
  destruct val; apply mirrored_lift; intros act _;
    try (destruct (py_neb _ act);
         [now apply mirrored_record|apply mirrored_of, mirrored_ret]).
  - destruct (is_list act); [|now apply mirrored_record].
    apply mirrored_get_curr_path, mirrored_of, Hl.
  - destruct (is_dict act); [|now apply mirrored_record].
    apply mirrored_get_curr_path, mirrored_of, Hd.
Qed.

Lemma mirrored_check_array_lengths rest exp_len act_len :
  mirrored to_ignore
    (__check_array_lengths ("LEFT" ++ rest) exp_len act_len)
    (__check_array_lengths ("RIGHT" ++ rest) exp_len act_len).
Proof.
  unfold __check_array_lengths. apply mirrored_setup_path.
  destruct (Nat.ltb act_len exp_len); [now apply mirrored_record|].
  destruct (Nat.ltb exp_len act_len);
    [now apply mirrored_record|apply mirrored_of, mirrored_ret].
Qed.

Lemma mirrored_for_enumerate body1 body0 items :
  (forall idx val, In val items ->
                   mirrored to_ignore (body1 idx val) (body0 idx val)) ->
  forall idx,
    mirrored to_ignore
      (for_enumerate body1 idx items) (for_enumerate body0 idx items).
Proof.
  induction items as [|val rest IH]; intros Hb idx; [apply mirrored_ret|].
  rewrite !for_enumerate_cons. apply mirrored_bind.
  - apply Hb. now left.
  - apply IH. intros i v Hv. apply Hb. now right.
Qed.

Lemma mirrored_compare_lists_body rd rl rest exp_data act_data items :
  (forall val s act, In val items ->
     mirrored to_ignore (rd val ("LEFT" ++ s)%string act)
       (rd val ("RIGHT" ++ s)%string act)) ->
  (forall val s act, In val items ->
     mirrored to_ignore (rl val ("LEFT" ++ s)%string act)
       (rl val ("RIGHT" ++ s)%string act)) ->
  mirrored to_ignore
    (compare_lists_body rd rl ("LEFT" ++ rest) exp_data act_data items)
    (compare_lists_body rd rl ("RIGHT" ++ rest) exp_data act_data items).
Proof.
  intros Hd Hl.
  assert (H : mirrored to_ignore
                (__compare_with_items_order_respect rd rl ("LEFT" ++ rest)
                   exp_data act_data items)
                (__compare_with_items_order_respect rd rl ("RIGHT" ++ rest)
                   exp_data act_data items)).
  { unfold __compare_with_items_order_respect.
    apply mirrored_lift_any. intros exp_len _.
    apply mirrored_lift_any. intros act_len _.
    apply mirrored_bind; [apply mirrored_check_array_lengths|].
    apply mirrored_for_enumerate. intros idx val Hin.
    apply mirrored_items_order_item; intros; [now apply Hd|now apply Hl]. }
  destruct H as (r & es & H0 & H1). exists r, es.
  split; intros self Hs;
    unfold compare_lists_body, bind, get; rewrite (proj2 Hs);
    [now apply H0|now apply H1].
Qed.

(** Both recursive methods, on any two values, at a path below LEFT and at
    the same path below RIGHT. *)
Lemma mirrored_compare exp_data :
  (forall rest act,
     mirrored to_ignore
       (_compare_dicts ("LEFT" ++ rest) exp_data act)
       (_compare_dicts ("RIGHT" ++ rest) exp_data act)) /\
  (forall rest act,
     mirrored to_ignore
       (_compare_lists ("LEFT" ++ rest) exp_data act)
       (_compare_lists ("RIGHT" ++ rest) exp_data act)).
Proof.
  induction exp_data as [| | | | |l IH|d IH] using value_nested_ind;
    split; intros rest act;
    try apply mirrored_raise;
    try (apply mirrored_compare_lists_body; intros; apply mirrored_ret).
  - rewrite !compare_lists_list. rewrite Forall_forall in IH.
    apply mirrored_compare_lists_body; intros val p a Hin;
      now apply (IH val Hin).
  - induction d as [|[key val] rest' IHr];
      [rewrite !compare_dicts_nil; apply mirrored_ret|].
    rewrite !compare_dicts_cons. inversion IH as [|? ? Hval Hrest]; subst.
    apply mirrored_bind; [|now apply IHr].
    apply mirrored_dicts_item; intros; now apply Hval.
Qed.

End mirror.

(** The pass below LEFT over two documents of the same root, and the pass
    below RIGHT over the same two documents swapped. *)
Lemma pass_mirrors to_ignore left_ right_ :
  same_root left_ right_ = true ->
  exists r es,
    (forall self,
       left_data self = right_ -> right_data self = left_ ->
       configured to_ignore self ->
       exists p, __compare true self =
                 (r, with_log p (log (diff_log self) ++ es) self)) /\
    (forall self,
       left_data self = left_ -> right_data self = right_ ->
       configured to_ignore self ->
       exists p, __compare false self =
                 (r, with_log p
                       (log (diff_log self) ++ map (at_path to_left) es)
                       self)).
Proof.
  intros Hroot.
  destruct (mirrored_compare to_ignore right_) as [Hd Hl].
  destruct left_ as [| | | | |ll|dl]; destruct right_ as [| | | | |lr|dr];
    try discriminate.
  - destruct (Hl "" (VList ll)) as (r & es & H0 & H1). exists r, es.
    split; intros self E1 E2 Hs; unfold __compare, bind, get;
      rewrite E1, E2; [now apply H0|now apply H1].
  - destruct (Hd "" (VDict dl)) as (r & es & H0 & H1). exists r, es.
    split; intros self E1 E2 Hs; unfold __compare, bind, get;
      rewrite E1, E2; [now apply H0|now apply H1].
Qed.

(** On two documents that are both objects or both arrays,
    [compare_with_left] is [compare_with_right] on the two documents
    swapped: the two end the same way and log the same entries, at the same
    paths below LEFT and below RIGHT. *)
Theorem passes_mirror_each_other to_ignore self swapped :
  configured to_ignore self -> configured to_ignore swapped ->
  left_data swapped = right_data self ->
  right_data swapped = left_data self ->
  same_root (left_data self) (right_data self) = true ->
  fst (outcome compare_with_left self) =
    fst (outcome compare_with_right swapped) /\
  snd (outcome compare_with_left self) =
    map (at_path to_left) (snd (outcome compare_with_right swapped)).
Proof.
  intros Hs Hw El Er Hroot.
  destruct (pass_mirrors to_ignore _ _ Hroot) as (r & es & H0 & H1).
  assert (Hpass : forall (b : bool) s (r : result unit) es,
            configured to_ignore s ->
            (forall s',
               left_data s' = left_data s -> right_data s' = right_data s ->
               configured to_ignore s' ->
               exists p, __compare b s' =
                         (r, with_log p (log (diff_log s') ++ es) s')) ->
            forall t p L, exists q,
              __compare b (set_target_property t (with_log p L s)) =
              (r, with_log q (L ++ es) (set_target_property t s))).
  { intros b s r' es' Hc H t p L.
    destruct (H (set_target_property t (with_log p L s)) eq_refl eq_refl Hc)
      as [q Hq].
    exists q. rewrite Hq. reflexivity. }
  destruct (compare_appends (left_data self) (right_data self) to_ignore true)
    as (r1 & es1 & A1).
  destruct (compare_appends (left_data swapped) (right_data swapped)
              to_ignore false) as (r2 & es2 & A2).
  destruct (outcomes_of_passes self r1 es1 r (map (at_path to_left) es)
              (Hpass true self _ _ Hs A1)
              (Hpass false self _ _ Hs H1)) as (_ & -> & _).
  assert (H0' : forall s', left_data s' = left_data swapped ->
                  right_data s' = right_data swapped ->
                  configured to_ignore s' ->
                  exists p, __compare true s' =
                    (r, with_log p (log (diff_log s') ++ es) s')).
  { intros s' A B. apply H0; congruence. }
  destruct (outcomes_of_passes swapped r es r2 es2
              (Hpass true swapped _ _ Hw H0')
              (Hpass false swapped _ _ Hw A2)) as (-> & _ & _).
  split; reflexivity.
Qed.

(** [{"a": 1, "l": [true]}] and [{"a": 1.0, "l": [1], "more": null}]: the
    pass below LEFT over the one comparator logs what the pass below RIGHT
    over the other logs, the missing key. *)
Lemma passes_mirror_witness :
  configured [] Cases.small_in_large /\
  configured [] Cases.large_in_small /\
  same_root Cases.small Cases.large = true /\
  snd (outcome compare_with_right Cases.large_in_small) =
    [MissingProperty "RIGHT.more"] /\
  snd (outcome compare_with_left Cases.small_in_large) =
    map (at_path to_left)
      (snd (outcome compare_with_right Cases.large_in_small)).
Proof.
  split; [split; reflexivity|]. split; [split; reflexivity|].
  split; [reflexivity|]. split; [reflexivity|].
  apply (passes_mirror_each_other [] Cases.small_in_large
           Cases.large_in_small); try reflexivity; split; reflexivity.
Defined.

(* ===================================================================== *)
(** ** Entries that report a difference *)
(* ===================================================================== *)

Section truthful_runs.

Local Abbreviation cfg := any_comparator.
Local Abbreviation sound :=
  (fun (_ : result unit) (es : list diff_entry) => Forall truthful es).

Lemma sound_seq c k :
  emits cfg c sound -> emits cfg k sound -> emits cfg (c ;; k) sound.
Proof.
  intros Hc Hk. apply (emits_bind cfg any_comparator_blind c k sound).
  - exact Hc.
  - auto.
  - intros es1 H1. apply (emits_weaken cfg k sound); [|exact Hk].
    intros r es2 H2. apply Forall_app. now split.
Qed.

Lemma sound_record path entry :
  truthful (entry path) -> emits_at cfg path (Log.record entry) sound.
Proof. intros H. apply emits_record. now repeat constructor. Qed.

Lemma sound_done path : emits_at cfg path (ret tt) sound.
Proof. apply emits_of, emits_ret. constructor. Qed.

(** The leaf of all three loops: two values where a scalar is expected. *)
Lemma sound_unequal path val act (k : M unit) :
  scalar val = true ->
  (k = Log.unequal_values val act \/ k = ret tt) ->
  emits_at cfg path (if py_neb val act then k else ret tt) sound.
Proof.
  intros Hv Hk. destruct (py_neb val act) eqn:E; [|apply sound_done].
  destruct Hk as [->| ->]; [|apply sound_done].
  apply sound_record. now split.
Qed.

Lemma sound_incorrect_dict path act :
  is_dict act = false ->
  emits_at cfg path (Log.incorrect_type (VDict []) act) sound.
Proof. intros H. apply sound_record. left. now split. Qed.

Lemma sound_incorrect_list path act :
  is_list act = false ->
  emits_at cfg path (Log.incorrect_type (VList []) act) sound.
Proof. intros H. apply sound_record. right. now split. Qed.

Lemma sound_dicts_item rd rl item_path act_data key val :
  (forall path act, emits cfg (rd val path act) sound) ->
  (forall path act, emits cfg (rl val path act) sound) ->
  emits cfg (compare_dicts_item rd rl item_path act_data key val) sound.
Proof.
  intros Hd Hl. unfold compare_dicts_item.
  apply emits_setup_path, emits_lift;
    [exact any_comparator_blind|constructor|].
  intros present _. destruct present; cbn [negb];
    [|now apply sound_record].
  destruct val; (apply emits_lift; [constructor|]); intros act _;
    try (destruct (py_neb _ act) eqn:E; [|apply sound_done];
         apply emits_key_to_ignore_any; intros []; cbn [negb];
         [apply sound_done|apply sound_record; now split]).
  - destruct (is_list act) eqn:Ha; [|now apply sound_incorrect_list].
    apply emits_get_curr_path, emits_of, Hl.
  - destruct (is_dict act) eqn:Ha; [|now apply sound_incorrect_dict].
    apply emits_get_curr_path, emits_of, Hd.
Qed.

Lemma sound_items_order_item rd rl item_path act_data act_len idx val :
  (forall path act, emits cfg (rd val path act) sound) ->
  (forall path act, emits cfg (rl val path act) sound) ->
  emits cfg (items_order_item rd rl item_path act_data act_len idx val)
    sound.
Proof.
  intros Hd Hl. unfold items_order_item.
  apply emits_setup_path; [exact any_comparator_blind|].
  destruct (Nat.eqb idx act_len); [now apply sound_record|].
  destruct val; (apply emits_lift; [constructor|]); intros act _;
    try (apply sound_unequal; [reflexivity|now left]).
  - destruct (is_list act) eqn:Ha; [|now apply sound_incorrect_list].
    apply emits_get_curr_path, emits_of, Hl.
  - destruct (is_dict act) eqn:Ha; [|now apply sound_incorrect_dict].
    apply emits_get_curr_path, emits_of, Hd.
Qed.

Lemma sound_nested_obj_prop_item rd rl item_path act_data idx val :
  (forall path act, emits cfg (rd val path act) sound) ->
  (forall path act, emits cfg (rl val path act) sound) ->
  emits cfg (nested_obj_prop_item rd rl item_path act_data idx val) sound.
Proof.
  intros Hd Hl. unfold nested_obj_prop_item.
  apply emits_setup_path; [exact any_comparator_blind|].
  destruct val;
    try (apply emits_lift; [constructor|]; intros act _;
         apply sound_unequal; [reflexivity|now left]).
  - apply emits_lift; [constructor|]. intros act _.
    destruct (is_list act) eqn:Ha; [|now apply sound_incorrect_list].
    apply emits_get_curr_path, emits_of, Hl.
  - apply emits_get_target_prop_value; [constructor|].
    intros [target_prop target_prop_val].
    apply emits_lift; [constructor|].
    intros [i|] _; [|now apply sound_record].
    apply emits_lift; [constructor|]. intros act _.
    apply emits_get_curr_path, emits_of, Hd.
Qed.

Lemma sound_check_array_lengths item_path exp_len act_len :
  emits cfg (__check_array_lengths item_path exp_len act_len) sound.
Proof.
  unfold __check_array_lengths.
  apply emits_setup_path; [exact any_comparator_blind|].
  destruct (Nat.ltb act_len exp_len) eqn:H1.
  - apply sound_record. now apply Nat.ltb_lt.
  - destruct (Nat.ltb exp_len act_len) eqn:H2; [|apply sound_done].
    apply sound_record. now apply Nat.ltb_lt.
Qed.

Lemma sound_for_enumerate body items :
  (forall idx val, In val items -> emits cfg (body idx val) sound) ->
  forall idx, emits cfg (for_enumerate body idx items) sound.
Proof.
  induction items as [|val rest IH]; intros Hb idx;
    [apply emits_ret; constructor|].
  rewrite for_enumerate_cons. apply sound_seq.
  - apply Hb. now left.
  - apply IH. intros i v Hv. apply Hb. now right.
Qed.

Lemma sound_compare_lists_body rd rl item_path exp_data act_data items :
  (forall val path act, In val items -> emits cfg (rd val path act) sound) ->
  (forall val path act, In val items -> emits cfg (rl val path act) sound) ->
  emits cfg (compare_lists_body rd rl item_path exp_data act_data items)
    sound.
Proof.
  intros Hd Hl. apply emits_compare_lists_body.
  - unfold __compare_with_items_order_respect.
    apply emits_lift_any; [constructor|]. intros exp_len _.
    apply emits_lift_any; [constructor|]. intros act_len _.
    apply sound_seq; [apply sound_check_array_lengths|].
    apply sound_for_enumerate. intros idx val Hin.
    apply sound_items_order_item; intros; [now apply Hd|now apply Hl].
  - unfold __compare_with_nested_obj_prop_respect.
    apply emits_lift_any; [constructor|]. intros exp_len _.
    apply emits_lift_any; [constructor|]. intros act_len _.
    apply sound_seq; [apply sound_check_array_lengths|].
    apply sound_for_enumerate. intros idx val Hin.
    apply sound_nested_obj_prop_item; intros; [now apply Hd|now apply Hl].
Qed.

(** Both recursive methods, in either strategy. *)
Lemma sound_compare exp_data :
  (forall path act, emits cfg (_compare_dicts path exp_data act) sound) /\
  (forall path act, emits cfg (_compare_lists path exp_data act) sound).
Proof.
  induction exp_data as [| | | | |l IH|d IH] using value_nested_ind;
    split; intros path act;
    try (apply emits_raise; constructor);
    try (apply sound_compare_lists_body; intros; apply emits_ret;
         constructor).
  - rewrite compare_lists_list. rewrite Forall_forall in IH.
    apply sound_compare_lists_body; intros val p a Hin;
      now apply (IH val Hin).
  - induction d as [|[key val] rest IHr];
      [rewrite compare_dicts_nil; apply emits_ret; constructor|].
    rewrite compare_dicts_cons. inversion IH as [|? ? Hval Hrest]; subst.
    apply sound_seq; [|now apply IHr].
    apply sound_dicts_item; intros; now apply Hval.
Qed.

End truthful_runs.

Lemma compare_sound with_actual self :
  exists r p es,
    __compare with_actual self =
    (r, with_log p (log (diff_log self) ++ es) self) /\
    Forall truthful es.
Proof.
  destruct (sound_compare
              (if with_actual then left_data self else right_data self))
    as [Hd Hl].
  unfold __compare, bind, get.
  destruct (left_data self) eqn:E; destruct with_actual;
    try (exists (Raise RuntimeError), (curr_path (diff_log self)), [];
         split; [|constructor];
         now rewrite app_nil_r, with_log_same);
    first [apply (Hd _ _ self I)|apply (Hl _ _ self I)].
Qed.

(** Whatever the comparator holds (the two documents, the ignore list, the
    strategy) and however the operation ends, every entry of the log that a
    public operation leaves reports a difference that is there: no entry
    shows two equal values as unequal, a value of the expected kind as
    being of an incorrect type, or two lengths in the wrong order. *)
Theorem every_entry_reports_a_difference :
  forall self : JSONComparator,
    Forall truthful (snd (outcome compare_with_right self)) /\
    Forall truthful (snd (outcome compare_with_left self)) /\
    Forall truthful (snd (outcome full_compare self)).
Proof.
  intros self.
  assert (Hpass : forall (b : bool) s (k : unit -> M unit),
             exists (r : result unit) p es,
               Forall truthful es /\
               bind (__compare b) k s =
               match r with
               | Ok _ => k tt (with_log p (log (diff_log s) ++ es) s)
               | Raise e =>
                   (Raise e, with_log p (log (diff_log s) ++ es) s)
               end).
  { intros b s k. destruct (compare_sound b s) as (r & p & es & E & H).
    exists r, p, es. split; [exact H|].
    destruct r as [[]|e];
      [now rewrite (bind_ok _ _ _ _ _ E)
      |now rewrite (bind_raise _ _ _ _ _ E)]. }
  split; [|split]; unfold outcome.
  - unfold compare_with_right.
    rewrite (bind_ok _ _ _ _ _ (clear_run _)).
    rewrite (bind_ok _ _ _ _ _ (edit_target_run _ _ _)).
    match goal with
    | |- context [bind (__compare ?b) ?k ?s] =>
        destruct (Hpass b s k) as (r & p & es & Hes & ->)
    end.
    destruct r as [[]|e]; exact Hes.
  - unfold compare_with_left.
    rewrite (bind_ok _ _ _ _ _ (clear_run _)).
    rewrite (bind_ok _ _ _ _ _ (edit_target_run _ _ _)).
    match goal with
    | |- context [bind (__compare ?b) ?k ?s] =>
        destruct (Hpass b s k) as (r & p & es & Hes & ->)
    end.
    destruct r as [[]|e]; exact Hes.
  - unfold full_compare.
    rewrite (bind_ok _ _ _ _ _ (clear_run _)).
    rewrite (bind_ok _ _ _ _ _ (edit_target_run _ _ _)).
    match goal with
    | |- context [bind (__compare ?b) ?k ?s] =>
        destruct (Hpass b s k) as (r & p & es & Hes & ->)
    end.
    destruct r as [[]|e]; [|exact Hes].
    rewrite (bind_ok _ _ _ _ _ (edit_target_run _ _ _)).
    match goal with
    | |- context [bind (__compare ?b) ?k ?s] =>
        destruct (Hpass b s k) as (r' & p' & es' & Hes' & ->)
    end.
    destruct r' as [[]|e']; apply Forall_app; now split.
Qed.

(* ===================================================================== *)
(** ** The ignore list and the paths it is tested against *)
(* ===================================================================== *)

Section ignore_test.
Local Open Scope string_scope.

Lemma match_free_no_bracket s : occurs "[" s = false -> match_free s = true.
Proof.
  induction s as [|c r IH]; intros H; [reflexivity|].
  cbn [occurs] in H. apply orb_false_elim in H as [Hc Hr].
  cbn [match_free]. rewrite Ascii.eqb_sym in Hc. rewrite Hc. now apply IH.
Qed.

Lemma last_close_no_bracket s : occurs "]" s = false -> last_close s = None.
Proof.
  induction s as [|c r IH]; intros H; [reflexivity|].
  cbn [occurs] in H. apply orb_false_elim in H as [Hc Hr].
  cbn [last_close]. rewrite (IH Hr). rewrite Ascii.eqb_sym in Hc.
  rewrite Hc. now destruct (is_paren c).
Qed.

(** One indexed segment, between two texts without brackets, is deleted and
    nothing else. *)
Lemma strip_one_index u m v :
  occurs "[" u = false -> paren_free m = true ->
  occurs "[" v = false -> occurs "]" v = false ->
  strip_indices (u ++ String "[" (m ++ String "]" v)) = u ++ v.
Proof.
  intros Hu Hm Hv Hv'. rewrite (strip_indices_after u _ Hu). f_equal.
  unfold strip_indices. cbn [sub_from]. rewrite Ascii.eqb_refl.
  rewrite (last_close_index m v Hm (last_close_no_bracket v Hv')).
  rewrite sub_from_skip_index.
  now apply sub_from_match_free, match_free_no_bracket.
Qed.

(** Below either root label, a path whose stripped rest is [t] has the
    normalized form DATA followed by [t], when [t] holds no root label. *)
Lemma normalize_path_below_root s t :
  strip_indices s = t ->
  str_contains "RIGHT" t = false -> str_contains "LEFT" t = false ->
  normalize_path ("RIGHT" ++ s) = "DATA" ++ t /\
  normalize_path ("LEFT" ++ s) = "DATA" ++ t.
Proof.
  intros <- HR HL. unfold normalize_path. split.
  - rewrite (strip_indices_after "RIGHT" s eq_refl).
    rewrite (replace_at_occurrence "R" "IGHT" "DATA" (strip_indices s)).
    rewrite (replace_absent "R" "IGHT" "DATA" _ HR).
    apply replace_absent.
    now apply (str_contains_after "L" "EFT" "DATA").
  - rewrite (strip_indices_after "LEFT" s eq_refl).
    rewrite (replace_absent "R" "IGHT" "DATA").
    + rewrite (replace_at_occurrence "L" "EFT" "DATA" (strip_indices s)).
      now rewrite (replace_absent "L" "EFT" "DATA" _ HL).
    + now apply (str_contains_after "R" "IGHT" "LEFT").
Qed.

End ignore_test.

(** C4.  The claim fails on the code where the path of the scalar runs
    through an array nested in an item of an array: [__key_to_ignore]
    deletes everything from the first opening bracket to the last closing
    one, so with the index-stripped, DATA-rooted path of the scalar in the
    ignore list its mismatch is still recorded, and with the path of another
    property in the list it is suppressed; and a key that holds RIGHT or
    LEFT is rewritten with the root label, so its path cannot be listed.
    On a path with no index or one index, and keys without brackets and
    root labels, the normalized form is the index-stripped path rooted at
    DATA, in both passes.  The scope of the test is as claimed: in the loop
    of the object comparison the entry for two unequal scalars is left out
    exactly when the normalized form of the path is in the list; a missing
    property and a type mismatch are recorded whatever the list holds, and
    so is a scalar mismatch met by the positional array loop. *)
Theorem C4_ignore_list_misses_nested_paths :
  (* the claimed normal form of the path is listed: still recorded *)
  (In "DATA.a.<array>.b.<array>.c"
      (properties_to_ignore Cases.listing_inner_path) /\
   normalize_path "RIGHT.a.<array>[0].b.<array>[0].c" = "DATA.a.<array>.c" /\
   outcome compare_with_right Cases.listing_inner_path =
   (Ok tt,
    [UnequalValues "RIGHT.a.<array>[0].b.<array>[0].c" (VInt 1) (VInt 2);
     UnequalValues "RIGHT.a.<array>[0].c" (VInt 5) (VInt 6)])) /\
  (* only the path of another property is listed: suppressed *)
  (properties_to_ignore Cases.listing_other_path = ["DATA.a.<array>.c"] /\
   outcome compare_with_right Cases.listing_other_path = (Ok tt, [])) /\
  (* a key that holds a root label *)
  (In "DATA.COPYRIGHT" (properties_to_ignore Cases.ignoring_copyright) /\
   normalize_path "RIGHT.COPYRIGHT" = "DATA.COPYDATA" /\
   outcome compare_with_right Cases.ignoring_copyright =
   (Ok tt, [UnequalValues "RIGHT.COPYRIGHT" (VInt 1) (VInt 2)])) /\
  (* the normal form of a path with no index, or with one index *)
  (forall u m v : string,
      occurs "[" u = false -> paren_free m = true ->
      occurs "[" v = false -> occurs "]" v = false ->
      str_contains "RIGHT" (u ++ v) = false ->
      str_contains "LEFT" (u ++ v) = false ->
      normalize_path ("RIGHT" ++ u ++ v) = ("DATA" ++ u ++ v)%string /\
      normalize_path ("LEFT" ++ u ++ v) = ("DATA" ++ u ++ v)%string /\
      normalize_path ("RIGHT" ++ u ++ "[" ++ m ++ "]" ++ v) =
        ("DATA" ++ u ++ v)%string /\
      normalize_path ("LEFT" ++ u ++ "[" ++ m ++ "]" ++ v) =
        ("DATA" ++ u ++ v)%string) /\
  (* the exact path is suppressed, its sibling is reported; the path of a
     missing property, of a mistyped one, of an array item: recorded *)
  (outcome compare_with_right ignoring_a =
     (Ok tt, [UnequalValues "RIGHT.b" (VInt 2) (VInt 8)]) /\
   outcome compare_with_right Cases.ignoring_missing_a =
     (Ok tt, [MissingProperty "RIGHT.a"]) /\
   outcome compare_with_right Cases.ignoring_mistyped_a =
     (Ok tt, [IncorrectType "RIGHT.a" (VDict []) (VInt 9)]) /\
   normalize_path "RIGHT.<array>[0]" = "DATA.<array>" /\
   outcome compare_with_right ignoring_items =
     (Ok tt, [UnequalValues "RIGHT.<array>[0]" (VInt 1) (VInt 9)])) /\
  (* the loop of the object comparison, turn by turn *)
  (forall (self : JSONComparator) (item_path : string) (act_data : value),
      _compare_dicts item_path (VDict []) act_data self = (Ok tt, self)) /\
  (forall (self : JSONComparator) (item_path key : string) (val act : value)
          (d rest : list (string * value)),
      let path := (item_path ++ "." ++ key)%string in
      let run :=
        _compare_dicts item_path (VDict ((key, val) :: rest)) (VDict d) self
      in
      let continue_with es :=
        _compare_dicts item_path (VDict rest) (VDict d)
          (with_log path (log (diff_log self) ++ es) self) in
      (lookup key d = Some act -> scalar val = true ->
       py_neb val act = true ->
       (In (normalize_path path) (properties_to_ignore self) ->
        run = continue_with []) /\
       (~ In (normalize_path path) (properties_to_ignore self) ->
        run = continue_with [UnequalValues path val act])) /\
      (lookup key d = None -> run = continue_with [MissingProperty path]) /\
      (lookup key d = Some act -> is_dict val = true ->
       is_dict act = false ->
       run = continue_with [IncorrectType path (VDict []) act]) /\
      (lookup key d = Some act -> is_list val = true ->
       is_list act = false ->
       run = continue_with [IncorrectType path (VList []) act])) /\
  (* the scalar leaf of the positional loop *)
  (forall (self : JSONComparator) rd rl (item_path : string)
          (l : list value) (idx : nat) (val act : value),
      let ipath :=
        (item_path ++ "." ++ "<array>[" ++ str_of_nat idx ++ "]")%string in
      nth_error l idx = Some act -> scalar val = true ->
      py_neb val act = true ->
      items_order_item rd rl item_path (VList l) (List.length l) idx val self
      = (Ok tt, with_log ipath
                  (log (diff_log self) ++ [UnequalValues ipath val act])
                  self)).
Proof.
  split; [split; [now left|split; vm_compute; reflexivity]|].
  split; [split; vm_compute; reflexivity|].
  split; [split; [now left|split; vm_compute; reflexivity]|].
  split.
  { intros u m v Hu Hm Hv Hv' HR HL.
    assert (Huv : strip_indices (u ++ v) = (u ++ v)%string).
    { rewrite (strip_indices_after u v Hu). f_equal.
      now apply sub_from_match_free, match_free_no_bracket. }
    destruct (normalize_path_below_root _ _ Huv HR HL) as [E1 E2].
    destruct (normalize_path_below_root _ _
                (strip_one_index u m v Hu Hm Hv Hv') HR HL) as [E3 E4].
    repeat split; assumption. }
  split; [repeat split; vm_compute; reflexivity|].
  split; [intros self item_path act_data; now rewrite compare_dicts_nil|].
  split.
  - intros self item_path key val act d rest path run continue_with.
    split; [|split; [|split]].
    + intros Hl Hv Hne.
      pose proof (dict_turn_scalar self item_path key val d rest act Hl Hv)
        as H.
      cbv zeta in H. rewrite Hne in H. cbn [andb] in H.
      split; intros Hin.
      * apply existsb_eqb_In in Hin. fold path in H. rewrite Hin in H.
        exact H.
      * destruct (existsb _ (properties_to_ignore self)) eqn:E.
        -- apply existsb_eqb_In in E. contradiction.
        -- exact H.
    + apply dict_turn_missing.
    + apply dict_turn_not_dict.
    + apply dict_turn_not_list.
  - intros self rd rl item_path l idx val act ipath Hn Hv Hne.
    pose proof (order_turn_scalar rd rl self item_path l idx val act Hn Hv)
      as H.
    cbv zeta in H. rewrite Hne in H. exact H.
Qed.
